(** * Concept Explorer: a shallow embedding of [explorer.py]

    The first part embeds the program: the Python primitives it relies on
    (strings, slicing, stable sort), the Diversity Scorer
    ([_diversity_score]), the concept graph, the [ConceptExplorer] object,
    the bounded tree renderer ([_color_node], [_generate_ascii_tree],
    [update_live_tree]), the plain exporter ([_plain_ascii_tree]), the
    outside world (backend, random generator, terminal), the Generator
    Gateway ([query_ollama], [get_related_concepts]) and the exploration
    loop ([build_concept_web]) as a step function.  The second part states
    and proves the properties. *)

From Stdlib Require Import ZArith QArith String Ascii Lia.
From stdpp Require Import base option list gmap sets relations sorting.

Set Default Proof Using "Type".
Set Warnings "-register-all,-clear-no-such-hyp".

(** ** Python strings

    A Python [str] is a sequence of code points; [len], slicing and [+]
    are [length], [take]/[drop] and [++] on that sequence. *)

Abbreviation str := (list N).

(** String literals of the source, written in ASCII. *)
Definition py (s : string) : str :=
  List.map N_of_ascii (list_ascii_of_string s).

(** The non-ASCII characters the source prints. *)
Definition BOX_UP_RIGHT : N := 9492%N.    (* U+2514 *)
Definition BOX_VERT_RIGHT : N := 9500%N.  (* U+251C *)
Definition BOX_HORIZ : N := 9472%N.       (* U+2500 *)
Definition BOX_VERT : N := 9474%N.        (* U+2502 *)
Definition NEWLINE : N := 10%N.

(** [str.isspace] on one character: the Unicode white space table. *)
Definition isspace (c : N) : bool :=
  ((9 <=? c) && (c <=? 13) || (28 <=? c) && (c <=? 32)
   || (c =? 133) || (c =? 160) || (c =? 5760)
   || (8192 <=? c) && (c <=? 8202)
   || (c =? 8232) || (c =? 8233) || (c =? 8239) || (c =? 8287)
   || (c =? 12288))%N.

(** [str.lower].  CPython lower-cases a string code point by code point
    with the full case mapping of its Unicode database; the tables below
    are those of CPython 3.11 (Unicode 14.0.0).  Three things make up the
    mapping: the one-to-one mappings, kept as runs [(first, last, step,
    image of first)] of code points [first], [first + step], ... that are
    all moved by the same distance; U+0130, which becomes the two code
    points U+0069 U+0307; and the capital sigma U+03A3, which becomes the
    final sigma U+03C2 when a cased letter stands before it and none
    after it, case-ignorable code points being skipped on both sides, and
    the small sigma U+03C3 otherwise. *)
Definition lower_runs : list (N * N * N * N) :=
  [
   (65, 90, 1, 97); (192, 214, 1, 224); (216, 222, 1, 248);
   (256, 302, 2, 257); (306, 310, 2, 307); (313, 327, 2, 314);
   (330, 374, 2, 331); (376, 376, 1, 255); (377, 381, 2, 378);
   (385, 385, 1, 595); (386, 388, 2, 387); (390, 390, 1, 596);
   (391, 391, 1, 392); (393, 394, 1, 598); (395, 395, 1, 396);
   (398, 398, 1, 477); (399, 399, 1, 601); (400, 400, 1, 603);
   (401, 401, 1, 402); (403, 403, 1, 608); (404, 404, 1, 611);
   (406, 406, 1, 617); (407, 407, 1, 616); (408, 408, 1, 409);
   (412, 412, 1, 623); (413, 413, 1, 626); (415, 415, 1, 629);
   (416, 420, 2, 417); (422, 422, 1, 640); (423, 423, 1, 424);
   (425, 425, 1, 643); (428, 428, 1, 429); (430, 430, 1, 648);
   (431, 431, 1, 432); (433, 434, 1, 650); (435, 437, 2, 436);
   (439, 439, 1, 658); (440, 440, 1, 441); (444, 444, 1, 445);
   (452, 452, 1, 454); (453, 453, 1, 454); (455, 455, 1, 457);
   (456, 456, 1, 457); (458, 458, 1, 460); (459, 475, 2, 460);
   (478, 494, 2, 479); (497, 497, 1, 499); (498, 500, 2, 499);
   (502, 502, 1, 405); (503, 503, 1, 447); (504, 542, 2, 505);
   (544, 544, 1, 414); (546, 562, 2, 547); (570, 570, 1, 11365);
   (571, 571, 1, 572); (573, 573, 1, 410); (574, 574, 1, 11366);
   (577, 577, 1, 578); (579, 579, 1, 384); (580, 580, 1, 649);
   (581, 581, 1, 652); (582, 590, 2, 583); (880, 882, 2, 881);
   (886, 886, 1, 887); (895, 895, 1, 1011); (902, 902, 1, 940);
   (904, 906, 1, 941); (908, 908, 1, 972); (910, 911, 1, 973);
   (913, 929, 1, 945); (932, 939, 1, 964); (975, 975, 1, 983);
   (984, 1006, 2, 985); (1012, 1012, 1, 952); (1015, 1015, 1, 1016);
   (1017, 1017, 1, 1010); (1018, 1018, 1, 1019); (1021, 1023, 1, 891);
   (1024, 1039, 1, 1104); (1040, 1071, 1, 1072); (1120, 1152, 2, 1121);
   (1162, 1214, 2, 1163); (1216, 1216, 1, 1231); (1217, 1229, 2, 1218);
   (1232, 1326, 2, 1233); (1329, 1366, 1, 1377); (4256, 4293, 1, 11520);
   (4295, 4295, 1, 11559); (4301, 4301, 1, 11565); (5024, 5103, 1, 43888);
   (5104, 5109, 1, 5112); (7312, 7354, 1, 4304); (7357, 7359, 1, 4349);
   (7680, 7828, 2, 7681); (7838, 7838, 1, 223); (7840, 7934, 2, 7841);
   (7944, 7951, 1, 7936); (7960, 7965, 1, 7952); (7976, 7983, 1, 7968);
   (7992, 7999, 1, 7984); (8008, 8013, 1, 8000); (8025, 8031, 2, 8017);
   (8040, 8047, 1, 8032); (8072, 8079, 1, 8064); (8088, 8095, 1, 8080);
   (8104, 8111, 1, 8096); (8120, 8121, 1, 8112); (8122, 8123, 1, 8048);
   (8124, 8124, 1, 8115); (8136, 8139, 1, 8050); (8140, 8140, 1, 8131);
   (8152, 8153, 1, 8144); (8154, 8155, 1, 8054); (8168, 8169, 1, 8160);
   (8170, 8171, 1, 8058); (8172, 8172, 1, 8165); (8184, 8185, 1, 8056);
   (8186, 8187, 1, 8060); (8188, 8188, 1, 8179); (8486, 8486, 1, 969);
   (8490, 8490, 1, 107); (8491, 8491, 1, 229); (8498, 8498, 1, 8526);
   (8544, 8559, 1, 8560); (8579, 8579, 1, 8580); (9398, 9423, 1, 9424);
   (11264, 11311, 1, 11312); (11360, 11360, 1, 11361); (11362, 11362, 1, 619);
   (11363, 11363, 1, 7549); (11364, 11364, 1, 637); (11367, 11371, 2, 11368);
   (11373, 11373, 1, 593); (11374, 11374, 1, 625); (11375, 11375, 1, 592);
   (11376, 11376, 1, 594); (11378, 11378, 1, 11379); (11381, 11381, 1, 11382);
   (11390, 11391, 1, 575); (11392, 11490, 2, 11393); (11499, 11501, 2, 11500);
   (11506, 11506, 1, 11507); (42560, 42604, 2, 42561);
   (42624, 42650, 2, 42625); (42786, 42798, 2, 42787);
   (42802, 42862, 2, 42803); (42873, 42875, 2, 42874);
   (42877, 42877, 1, 7545); (42878, 42886, 2, 42879);
   (42891, 42891, 1, 42892); (42893, 42893, 1, 613); (42896, 42898, 2, 42897);
   (42902, 42920, 2, 42903); (42922, 42922, 1, 614); (42923, 42923, 1, 604);
   (42924, 42924, 1, 609); (42925, 42925, 1, 620); (42926, 42926, 1, 618);
   (42928, 42928, 1, 670); (42929, 42929, 1, 647); (42930, 42930, 1, 669);
   (42931, 42931, 1, 43859); (42932, 42946, 2, 42933);
   (42948, 42948, 1, 42900); (42949, 42949, 1, 642); (42950, 42950, 1, 7566);
   (42951, 42953, 2, 42952); (42960, 42960, 1, 42961);
   (42966, 42968, 2, 42967); (42997, 42997, 1, 42998);
   (65313, 65338, 1, 65345); (66560, 66599, 1, 66600);
   (66736, 66771, 1, 66776); (66928, 66938, 1, 66967);
   (66940, 66954, 1, 66979); (66956, 66962, 1, 66995);
   (66964, 66965, 1, 67003); (68736, 68786, 1, 68800);
   (71840, 71871, 1, 71872); (93760, 93791, 1, 93792);
   (125184, 125217, 1, 125218)
  ]%N.

(** The case-ignorable code points, and the cased ones that are not
    case-ignorable, as ranges [(first, last)]. *)
Definition case_ignorable_ranges : list (N * N) :=
  [
   (39, 39); (46, 46); (58, 58); (94, 94); (96, 96); (168, 168); (173, 173);
   (175, 175); (180, 180); (183, 184); (688, 879); (884, 885); (890, 890);
   (900, 901); (903, 903); (1155, 1161); (1369, 1369); (1375, 1375);
   (1425, 1469); (1471, 1471); (1473, 1474); (1476, 1477); (1479, 1479);
   (1524, 1524); (1536, 1541); (1552, 1562); (1564, 1564); (1600, 1600);
   (1611, 1631); (1648, 1648); (1750, 1757); (1759, 1768); (1770, 1773);
   (1807, 1807); (1809, 1809); (1840, 1866); (1958, 1968); (2027, 2037);
   (2042, 2042); (2045, 2045); (2070, 2093); (2137, 2139); (2184, 2184);
   (2192, 2193); (2200, 2207); (2249, 2306); (2362, 2362); (2364, 2364);
   (2369, 2376); (2381, 2381); (2385, 2391); (2402, 2403); (2417, 2417);
   (2433, 2433); (2492, 2492); (2497, 2500); (2509, 2509); (2530, 2531);
   (2558, 2558); (2561, 2562); (2620, 2620); (2625, 2626); (2631, 2632);
   (2635, 2637); (2641, 2641); (2672, 2673); (2677, 2677); (2689, 2690);
   (2748, 2748); (2753, 2757); (2759, 2760); (2765, 2765); (2786, 2787);
   (2810, 2815); (2817, 2817); (2876, 2876); (2879, 2879); (2881, 2884);
   (2893, 2893); (2901, 2902); (2914, 2915); (2946, 2946); (3008, 3008);
   (3021, 3021); (3072, 3072); (3076, 3076); (3132, 3132); (3134, 3136);
   (3142, 3144); (3146, 3149); (3157, 3158); (3170, 3171); (3201, 3201);
   (3260, 3260); (3263, 3263); (3270, 3270); (3276, 3277); (3298, 3299);
   (3328, 3329); (3387, 3388); (3393, 3396); (3405, 3405); (3426, 3427);
   (3457, 3457); (3530, 3530); (3538, 3540); (3542, 3542); (3633, 3633);
   (3636, 3642); (3654, 3662); (3761, 3761); (3764, 3772); (3782, 3782);
   (3784, 3789); (3864, 3865); (3893, 3893); (3895, 3895); (3897, 3897);
   (3953, 3966); (3968, 3972); (3974, 3975); (3981, 3991); (3993, 4028);
   (4038, 4038); (4141, 4144); (4146, 4151); (4153, 4154); (4157, 4158);
   (4184, 4185); (4190, 4192); (4209, 4212); (4226, 4226); (4229, 4230);
   (4237, 4237); (4253, 4253); (4348, 4348); (4957, 4959); (5906, 5908);
   (5938, 5939); (5970, 5971); (6002, 6003); (6068, 6069); (6071, 6077);
   (6086, 6086); (6089, 6099); (6103, 6103); (6109, 6109); (6155, 6159);
   (6211, 6211); (6277, 6278); (6313, 6313); (6432, 6434); (6439, 6440);
   (6450, 6450); (6457, 6459); (6679, 6680); (6683, 6683); (6742, 6742);
   (6744, 6750); (6752, 6752); (6754, 6754); (6757, 6764); (6771, 6780);
   (6783, 6783); (6823, 6823); (6832, 6862); (6912, 6915); (6964, 6964);
   (6966, 6970); (6972, 6972); (6978, 6978); (7019, 7027); (7040, 7041);
   (7074, 7077); (7080, 7081); (7083, 7085); (7142, 7142); (7144, 7145);
   (7149, 7149); (7151, 7153); (7212, 7219); (7222, 7223); (7288, 7293);
   (7376, 7378); (7380, 7392); (7394, 7400); (7405, 7405); (7412, 7412);
   (7416, 7417); (7468, 7530); (7544, 7544); (7579, 7679); (8125, 8125);
   (8127, 8129); (8141, 8143); (8157, 8159); (8173, 8175); (8189, 8190);
   (8203, 8207); (8216, 8217); (8228, 8228); (8231, 8231); (8234, 8238);
   (8288, 8292); (8294, 8303); (8305, 8305); (8319, 8319); (8336, 8348);
   (8400, 8432); (11388, 11389); (11503, 11505); (11631, 11631);
   (11647, 11647); (11744, 11775); (11823, 11823); (12293, 12293);
   (12330, 12333); (12337, 12341); (12347, 12347); (12441, 12446);
   (12540, 12542); (40981, 40981); (42232, 42237); (42508, 42508);
   (42607, 42610); (42612, 42621); (42623, 42623); (42652, 42655);
   (42736, 42737); (42752, 42785); (42864, 42864); (42888, 42890);
   (42994, 42996); (43000, 43001); (43010, 43010); (43014, 43014);
   (43019, 43019); (43045, 43046); (43052, 43052); (43204, 43205);
   (43232, 43249); (43263, 43263); (43302, 43309); (43335, 43345);
   (43392, 43394); (43443, 43443); (43446, 43449); (43452, 43453);
   (43471, 43471); (43493, 43494); (43561, 43566); (43569, 43570);
   (43573, 43574); (43587, 43587); (43596, 43596); (43632, 43632);
   (43644, 43644); (43696, 43696); (43698, 43700); (43703, 43704);
   (43710, 43711); (43713, 43713); (43741, 43741); (43756, 43757);
   (43763, 43764); (43766, 43766); (43867, 43871); (43881, 43883);
   (44005, 44005); (44008, 44008); (44013, 44013); (64286, 64286);
   (64434, 64450); (65024, 65039); (65043, 65043); (65056, 65071);
   (65106, 65106); (65109, 65109); (65279, 65279); (65287, 65287);
   (65294, 65294); (65306, 65306); (65342, 65342); (65344, 65344);
   (65392, 65392); (65438, 65439); (65507, 65507); (65529, 65531);
   (66045, 66045); (66272, 66272); (66422, 66426); (67456, 67461);
   (67463, 67504); (67506, 67514); (68097, 68099); (68101, 68102);
   (68108, 68111); (68152, 68154); (68159, 68159); (68325, 68326);
   (68900, 68903); (69291, 69292); (69446, 69456); (69506, 69509);
   (69633, 69633); (69688, 69702); (69744, 69744); (69747, 69748);
   (69759, 69761); (69811, 69814); (69817, 69818); (69821, 69821);
   (69826, 69826); (69837, 69837); (69888, 69890); (69927, 69931);
   (69933, 69940); (70003, 70003); (70016, 70017); (70070, 70078);
   (70089, 70092); (70095, 70095); (70191, 70193); (70196, 70196);
   (70198, 70199); (70206, 70206); (70367, 70367); (70371, 70378);
   (70400, 70401); (70459, 70460); (70464, 70464); (70502, 70508);
   (70512, 70516); (70712, 70719); (70722, 70724); (70726, 70726);
   (70750, 70750); (70835, 70840); (70842, 70842); (70847, 70848);
   (70850, 70851); (71090, 71093); (71100, 71101); (71103, 71104);
   (71132, 71133); (71219, 71226); (71229, 71229); (71231, 71232);
   (71339, 71339); (71341, 71341); (71344, 71349); (71351, 71351);
   (71453, 71455); (71458, 71461); (71463, 71467); (71727, 71735);
   (71737, 71738); (71995, 71996); (71998, 71998); (72003, 72003);
   (72148, 72151); (72154, 72155); (72160, 72160); (72193, 72202);
   (72243, 72248); (72251, 72254); (72263, 72263); (72273, 72278);
   (72281, 72283); (72330, 72342); (72344, 72345); (72752, 72758);
   (72760, 72765); (72767, 72767); (72850, 72871); (72874, 72880);
   (72882, 72883); (72885, 72886); (73009, 73014); (73018, 73018);
   (73020, 73021); (73023, 73029); (73031, 73031); (73104, 73105);
   (73109, 73109); (73111, 73111); (73459, 73460); (78896, 78904);
   (92912, 92916); (92976, 92982); (92992, 92995); (94031, 94031);
   (94095, 94111); (94176, 94177); (94179, 94180); (110576, 110579);
   (110581, 110587); (110589, 110590); (113821, 113822); (113824, 113827);
   (118528, 118573); (118576, 118598); (119143, 119145); (119155, 119170);
   (119173, 119179); (119210, 119213); (119362, 119364); (121344, 121398);
   (121403, 121452); (121461, 121461); (121476, 121476); (121499, 121503);
   (121505, 121519); (122880, 122886); (122888, 122904); (122907, 122913);
   (122915, 122916); (122918, 122922); (123184, 123197); (123566, 123566);
   (123628, 123631); (125136, 125142); (125252, 125259); (127995, 127999);
   (917505, 917505); (917536, 917631); (917760, 917999)
  ]%N.

Definition cased_ranges : list (N * N) :=
  [
   (65, 90); (97, 122); (170, 170); (181, 181); (186, 186); (192, 214);
   (216, 246); (248, 442); (444, 447); (452, 659); (661, 687); (880, 883);
   (886, 887); (891, 893); (895, 895); (902, 902); (904, 906); (908, 908);
   (910, 929); (931, 1013); (1015, 1153); (1162, 1327); (1329, 1366);
   (1376, 1416); (4256, 4293); (4295, 4295); (4301, 4301); (4304, 4346);
   (4349, 4351); (5024, 5109); (5112, 5117); (7296, 7304); (7312, 7354);
   (7357, 7359); (7424, 7467); (7531, 7543); (7545, 7578); (7680, 7957);
   (7960, 7965); (7968, 8005); (8008, 8013); (8016, 8023); (8025, 8025);
   (8027, 8027); (8029, 8029); (8031, 8061); (8064, 8116); (8118, 8124);
   (8126, 8126); (8130, 8132); (8134, 8140); (8144, 8147); (8150, 8155);
   (8160, 8172); (8178, 8180); (8182, 8188); (8450, 8450); (8455, 8455);
   (8458, 8467); (8469, 8469); (8473, 8477); (8484, 8484); (8486, 8486);
   (8488, 8488); (8490, 8493); (8495, 8500); (8505, 8505); (8508, 8511);
   (8517, 8521); (8526, 8526); (8544, 8575); (8579, 8580); (9398, 9449);
   (11264, 11387); (11390, 11492); (11499, 11502); (11506, 11507);
   (11520, 11557); (11559, 11559); (11565, 11565); (42560, 42605);
   (42624, 42651); (42786, 42863); (42865, 42887); (42891, 42894);
   (42896, 42954); (42960, 42961); (42963, 42963); (42965, 42969);
   (42997, 42998); (43002, 43002); (43824, 43866); (43872, 43880);
   (43888, 43967); (64256, 64262); (64275, 64279); (65313, 65338);
   (65345, 65370); (66560, 66639); (66736, 66771); (66776, 66811);
   (66928, 66938); (66940, 66954); (66956, 66962); (66964, 66965);
   (66967, 66977); (66979, 66993); (66995, 67001); (67003, 67004);
   (68736, 68786); (68800, 68850); (71840, 71903); (93760, 93823);
   (119808, 119892); (119894, 119964); (119966, 119967); (119970, 119970);
   (119973, 119974); (119977, 119980); (119982, 119993); (119995, 119995);
   (119997, 120003); (120005, 120069); (120071, 120074); (120077, 120084);
   (120086, 120092); (120094, 120121); (120123, 120126); (120128, 120132);
   (120134, 120134); (120138, 120144); (120146, 120485); (120488, 120512);
   (120514, 120538); (120540, 120570); (120572, 120596); (120598, 120628);
   (120630, 120654); (120656, 120686); (120688, 120712); (120714, 120744);
   (120746, 120770); (120772, 120779); (122624, 122633); (122635, 122654);
   (125184, 125251); (127280, 127305); (127312, 127337); (127344, 127369)
  ]%N.

Definition in_ranges (ranges : list (N * N)) (c : N) : bool :=
  existsb (λ r : N * N, (r.1 <=? c) && (c <=? r.2))%N ranges.

Definition case_ignorable (c : N) : bool := in_ranges case_ignorable_ranges c.
Definition cased (c : N) : bool := in_ranges cased_ranges c.

Definition CAPITAL_SIGMA : N := 931%N.   (* U+03A3 *)
Definition FINAL_SIGMA : N := 962%N.     (* U+03C2 *)
Definition SMALL_SIGMA : N := 963%N.     (* U+03C3 *)

(** The lower case of one code point other than the capital sigma. *)
Definition lower_char (c : N) : str :=
  if (c =? 304)%N then [105; 775]%N
  else
    match List.find (λ r : N * N * N * N,
                       let '(first, last, step, _) := r in
                       (first <=? c) && (c <=? last)
                       && ((c - first) mod step =? 0))%N lower_runs with
    | Some (first, _, _, image) => [image + (c - first)]%N
    | None => [c]
    end.

(** Is the capital sigma between [before] (the code points before it,
    nearest first) and [after] in final position? *)
Fixpoint skip_ignorable (s : str) : str :=
  match s with
  | c :: s' => if case_ignorable c then skip_ignorable s' else s
  | [] => []
  end.

Definition final_sigma (before after : str) : bool :=
  match skip_ignorable before with
  | c :: _ => cased c
  | [] => false
  end
  && match skip_ignorable after with
     | c :: _ => negb (cased c)
     | [] => true
     end.

Fixpoint lower_from (before s : str) : str :=
  match s with
  | [] => []
  | c :: s' =>
      (if (c =? CAPITAL_SIGMA)%N
       then [if final_sigma before s' then FINAL_SIGMA else SMALL_SIGMA]
       else lower_char c)
      ++ lower_from (c :: before) s'
  end.

Definition lower (s : str) : str := lower_from [] s.

(** [s.strip()] *)
Fixpoint lstrip (s : str) : str :=
  match s with
  | c :: s' => if isspace c then lstrip s' else s
  | [] => []
  end.

Definition strip (s : str) : str := rev (lstrip (rev (lstrip s))).

(** [s.split()]: maximal runs of non-space characters, in order. *)
Fixpoint split_from (cur : str) (s : str) : list str :=
  match s with
  | [] => match cur with [] => [] | _ => [rev cur] end
  | c :: s' =>
      if isspace c
      then match cur with
           | [] => split_from [] s'
           | _ => rev cur :: split_from [] s'
           end
      else split_from (c :: cur) s'
  end.

Definition split (s : str) : list str := split_from [] s.

(** Slicing.  An index below zero counts from the end, and every index is
    clamped to the sequence, as Python does: [slice_to s k] is [s[:k]],
    [slice_from s k] is [s[k:]] and [slice s i j] is [s[i:j]]. *)
Definition norm_index (n : nat) (i : Z) : nat :=
  if (i <? 0)%Z then Z.to_nat (Z.of_nat n + i)
  else Z.to_nat (Z.min i (Z.of_nat n)).

Definition slice_to {A} (s : list A) (k : Z) : list A :=
  take (norm_index (length s) k) s.

Definition slice_from {A} (s : list A) (k : Z) : list A :=
  drop (norm_index (length s) k) s.

Definition slice {A} (s : list A) (i j : Z) : list A :=
  take (norm_index (length s) j - norm_index (length s) i)
       (drop (norm_index (length s) i) s).

(** [len(s)] as a Python integer. *)
Definition len {A} (s : list A) : Z := Z.of_nat (length s).

(** [s.count("\n")] *)
Definition count_newlines (s : str) : Z :=
  Z.of_nat (length (List.filter (N.eqb NEWLINE) s)).

(** [c in s] for a one-character [c], [s.find(c)] and [s.rfind(c)]
    (the last two give -1 when [c] is absent). *)
Definition contains (c : N) (s : str) : bool := existsb (N.eqb c) s.

Fixpoint find (c : N) (s : str) : Z :=
  match s with
  | [] => -1
  | d :: s' => if (c =? d)%N then 0
               else let r := find c s' in if (r <? 0)%Z then -1 else r + 1
  end%Z.

Fixpoint rfind (c : N) (s : str) : Z :=
  match s with
  | [] => -1
  | d :: s' =>
      let r := rfind c s' in
      if (0 <=? r)%Z then r + 1 else if (c =? d)%N then 0 else -1
  end%Z.

(** [sep.join(parts)] *)
Fixpoint join (sep : str) (parts : list str) : str :=
  match parts with
  | [] => []
  | [p] => p
  | p :: rest => p ++ sep ++ join sep rest
  end.

(** ** Python lists

    [l.sort(key=...)] is a stable ascending sort: elements with equal keys
    keep their order. *)
Section Sort.
Context {A : Type} (key : A → nat).

Fixpoint insert_by_key (x : A) (l : list A) : list A :=
  match l with
  | [] => [x]
  | y :: l' => if (key x <=? key y)%nat then x :: l
               else y :: insert_by_key x l'
  end.

Definition sort_key (l : list A) : list A := foldr insert_by_key [] l.
End Sort.

(** [list(dict.fromkeys(l))]: the first occurrence of each element, in
    order. *)
Fixpoint dedup_first (seen : list str) (l : list str) : list str :=
  match l with
  | [] => []
  | x :: l' =>
      if bool_decide (x ∈ seen) then dedup_first seen l'
      else x :: dedup_first (x :: seen) l'
  end.

Definition fromkeys (l : list str) : list str := dedup_first [] l.

(** ** Diversity Scorer *)

(** [set(s.lower().split())] *)
Definition word_set (s : str) : gset str := list_to_set (split (lower s)).

Definition _diversity_score (concept : str) (existing_concepts : gset str)
  : nat :=
  set_fold
    (λ existing score,
       let shared_words := word_set concept ∩ word_set existing in
       if decide (shared_words = ∅) then S score else score)
    0%nat existing_concepts.

(** ** Concept Graph

    The [networkx.DiGraph] of the source: nodes and edges are kept in
    insertion order, which is the order [graph.nodes], [successors] and
    [predecessors] iterate in. *)

Record DiGraph := mkDiGraph {
  nodes : list str;
  edges : list (str * str)
}.

Definition empty_graph : DiGraph := mkDiGraph [] [].

(** [n in graph] *)
Definition has_node (g : DiGraph) (n : str) : bool :=
  bool_decide (n ∈ nodes g).

Definition add_node (g : DiGraph) (n : str) : DiGraph :=
  if has_node g n then g else mkDiGraph (nodes g ++ [n]) (edges g).

(** [add_edge] first adds the endpoints that are missing; an edge that is
    already present keeps its place. *)
Definition add_edge (g : DiGraph) (u v : str) : DiGraph :=
  let g := add_node (add_node g u) v in
  if bool_decide ((u, v) ∈ edges g) then g
  else mkDiGraph (nodes g) (edges g ++ [(u, v)]).

(** [graph.successors(n)] and [graph.predecessors(n)], in the order in
    which the edges were added.  networkx raises [NetworkXError] for a
    label that is not a node of the graph, where these return the empty
    list: they stand for the source at nodes of the graph only, and the
    statements about the renderers and the path walk are made for nodes
    of the graph. *)
Definition successors (g : DiGraph) (n : str) : list str :=
  (List.filter (λ e, bool_decide (e.1 = n)) (edges g)).*2.

Definition predecessors (g : DiGraph) (n : str) : list str :=
  (List.filter (λ e, bool_decide (e.2 = n)) (edges g)).*1.

Definition in_degree (g : DiGraph) (n : str) : nat :=
  length (predecessors g n).

(** [[n for n in graph.nodes if graph.in_degree(n) == 0]] *)
Definition roots (g : DiGraph) : list str :=
  List.filter (λ n, (in_degree g n =? 0)%nat) (nodes g).

(** Every label the graph mentions. *)
Definition labels (g : DiGraph) : gset str :=
  list_to_set (nodes g) ∪ list_to_set (edges g).*1
  ∪ list_to_set (edges g).*2.

(** ** The [ConceptExplorer] object *)

Record ConceptExplorer := mkExplorer {
  graph : DiGraph;
  seen_concepts : gset str;
  last_added : option str;
  current_concept : option str;
  model : str;
  term_width : Z;
  term_height : Z
}.

Definition set_graph (self : ConceptExplorer) (g : DiGraph) :=
  mkExplorer g (seen_concepts self) (last_added self) (current_concept self)
             (model self) (term_width self) (term_height self).

Definition set_seen_concepts (self : ConceptExplorer) (s : gset str) :=
  mkExplorer (graph self) s (last_added self) (current_concept self)
             (model self) (term_width self) (term_height self).

Definition set_last_added (self : ConceptExplorer) (n : option str) :=
  mkExplorer (graph self) (seen_concepts self) n (current_concept self)
             (model self) (term_width self) (term_height self).

Definition set_current_concept (self : ConceptExplorer) (n : option str) :=
  mkExplorer (graph self) (seen_concepts self) (last_added self) n
             (model self) (term_width self) (term_height self).

Definition set_model (self : ConceptExplorer) (m : str) :=
  mkExplorer (graph self) (seen_concepts self) (last_added self)
             (current_concept self) m (term_width self) (term_height self).

Definition set_terminal (self : ConceptExplorer) (wh : Z * Z) :=
  mkExplorer (graph self) (seen_concepts self) (last_added self)
             (current_concept self) (model self) wh.1 wh.2.

(** ** Styling constants of colorama *)

Definition CSI (code : string) : str := 27%N :: py ("[" ++ code ++ "m").

Definition Fore_BLACK := CSI "30".
Definition Fore_RED := CSI "31".
Definition Fore_GREEN := CSI "32".
Definition Fore_YELLOW := CSI "33".
Definition Fore_BLUE := CSI "34".
Definition Fore_MAGENTA := CSI "35".
Definition Fore_CYAN := CSI "36".
Definition Fore_WHITE := CSI "37".
Definition Back_GREEN := CSI "42".
Definition Back_BLUE := CSI "44".
Definition Style_BRIGHT := CSI "1".
Definition Style_RESET_ALL := CSI "0".

(** ** Bounded Tree Renderer *)

(** ["└── " if is_last else "├── "] *)
Definition connector (is_last : bool) : str :=
  (if is_last then BOX_UP_RIGHT else BOX_VERT_RIGHT)
    :: BOX_HORIZ :: BOX_HORIZ :: py " ".

(** ["    " if is_last else "│   "] *)
Definition indent (is_last : bool) : str :=
  if is_last then py "    " else BOX_VERT :: py "   ".

Definition depth_colors : list str :=
  [Fore_YELLOW; Fore_GREEN; Fore_BLUE; Fore_MAGENTA; Fore_RED; Fore_WHITE].

Definition _color_node (self : ConceptExplorer) (node prefix : str)
    (is_last : bool) (current_depth : nat) : str :=
  let connector := connector is_last in
  let available_width := (term_width self - len prefix - len connector - 5)%Z in
  let node :=
    if (available_width <? len node)%Z
    then slice_to node (available_width - 3) ++ py "..."
    else node in
  if bool_decide (current_concept self = Some node) then
    prefix ++ Fore_CYAN ++ connector ++ Back_BLUE ++ Fore_WHITE ++ node
      ++ Style_RESET_ALL
  else if bool_decide (last_added self = Some node) then
    prefix ++ Fore_CYAN ++ connector ++ Back_GREEN ++ Fore_BLACK ++ node
      ++ Style_RESET_ALL
  else if (current_depth =? 0)%nat then
    prefix ++ Fore_CYAN ++ connector ++ Fore_MAGENTA ++ Style_BRIGHT ++ node
      ++ Style_RESET_ALL
  else
    let color :=
      nth (Nat.min current_depth (length depth_colors - 1)) depth_colors [] in
    prefix ++ Fore_CYAN ++ connector ++ color ++ node ++ Style_RESET_ALL.

(** The three marker lines of the renderer. *)
Definition more_line (prefix : str) (is_last : bool) : str :=
  prefix ++ Fore_CYAN ++ connector is_last ++ Fore_RED ++ py "(...more...)"
    ++ Style_RESET_ALL ++ [NEWLINE].

Definition cut_line (self : ConceptExplorer) (node prefix : str)
    (is_last : bool) (current_depth : nat) : str :=
  _color_node self node prefix is_last current_depth ++ py " " ++ Fore_RED
    ++ py "(...)" ++ Style_RESET_ALL ++ [NEWLINE].

Definition more_nodes_line (next_prefix : str) : str :=
  next_prefix ++ Fore_CYAN ++ connector true ++ Fore_RED
    ++ py "(...more nodes...)" ++ Style_RESET_ALL ++ [NEWLINE].

(** [x in focus_paths] *)
Definition in_focus (focus_paths : list str) (x : str) : bool :=
  bool_decide (x ∈ focus_paths).

(** The sample of the non-focus children: some from the start, the middle
    and the end, without repetition, cut to [sample_size]. *)
Definition sample_non_focus (non_focus : list str) (sample_size : Z)
  : list str :=
  if (0 <? sample_size)%Z then
    if (len non_focus <=? sample_size)%Z then non_focus
    else
      let third := Z.max 1 (sample_size / 3) in
      let sampled :=
        slice_to non_focus third
        ++ slice non_focus (len non_focus / 2 - third / 2)
                           (len non_focus / 2 + third / 2)
        ++ slice_from non_focus (- third) in
      let sampled := fromkeys sampled in
      slice_to sampled sample_size
  else [].

(** The children that will be emitted and the [has_more] flag, for the
    (already ordered) [children] and the [remaining_height]. *)
Definition limit_children (focus_paths children : list str)
    (remaining_height : Z) : list str * bool :=
  if (remaining_height <? len children)%Z then
    let focus_children := List.filter (in_focus focus_paths) children in
    let non_focus :=
      List.filter (λ c, negb (in_focus focus_paths c)) children in
    if (len focus_children <? remaining_height)%Z then
      let sample_size := (remaining_height - len focus_children - 1)%Z in
      let sampled := sample_non_focus non_focus sample_size in
      let children := focus_children ++ sampled in
      (children,
       (len children <? len focus_children + len non_focus)%Z)
    else
      let children := slice_to focus_children (remaining_height - 1) in
      (children,
       (len children <? len focus_children)%Z
       || negb (bool_decide (non_focus = [])))
  else (children, false).

(** [children.sort(key=lambda x: x not in focus_paths)], done only for a
    non-empty [focus_paths]. *)
Definition order_children (focus_paths children : list str) : list str :=
  match focus_paths with
  | [] => children
  | _ => sort_key (λ x, if in_focus focus_paths x then 0 else 1)%nat children
  end.

(** The [for i, child in enumerate(children)] loop: [emit] renders one
    child given its [is_last] flag and the lines used so far; the loop
    leaves as soon as the height is reached. *)
Fixpoint emit_children (emit : str → bool → Z → option str)
    (total : nat) (has_more : bool) (available_height : Z)
    (i : nat) (children : list str) (result : str) (lines_used : Z)
  : option (str * Z) :=
  match children with
  | [] => Some (result, lines_used)
  | child :: rest =>
      let is_last_child := (i =? total - 1)%nat && negb has_more in
      child_tree ← emit child is_last_child lines_used;
      let result := result ++ child_tree in
      let lines_used := (lines_used + count_newlines child_tree)%Z in
      if (available_height <=? lines_used)%Z then Some (result, lines_used)
      else emit_children emit total has_more available_height
                         (S i) rest result lines_used
  end.

(** [_generate_ascii_tree].  The recursion of the source ends because the
    visited set grows along every branch; here it is counted down by
    [fuel], and [None] means the fuel ran out. *)
Fixpoint _generate_ascii_tree_fuel (fuel : nat) (self : ConceptExplorer)
    (node prefix : str) (is_last : bool) (visited : gset str)
    (focus_paths : list str) (max_depth : option Z) (current_depth : nat)
    (available_height lines_used : Z) : option str :=
  match fuel with
  | O => None
  | S fuel' =>
      if (available_height <=? lines_used)%Z then
        Some (more_line prefix is_last)
      else if bool_decide (node ∈ visited)
              || match max_depth with
                 | Some m => (m <? Z.of_nat current_depth)%Z
                 | None => false
                 end then
        Some (cut_line self node prefix is_last current_depth)
      else
        let visited := {[node]} ∪ visited in
        let result :=
          _color_node self node prefix is_last current_depth ++ [NEWLINE] in
        let lines_used := (lines_used + 1)%Z in
        let children := successors (graph self) node in
        if bool_decide (children = [])
           || (available_height <=? lines_used)%Z then Some result
        else
          let next_prefix := prefix ++ indent is_last in
          let children := order_children focus_paths children in
          let remaining_height := (available_height - lines_used)%Z in
          let '(children, has_more) :=
            limit_children focus_paths children remaining_height in
          '(result, lines_used) ←
            emit_children
              (λ child is_last_child lines_used,
                 _generate_ascii_tree_fuel fuel' self child next_prefix
                   is_last_child visited focus_paths max_depth
                   (S current_depth) available_height lines_used)
              (length children) has_more available_height 0 children
              result lines_used;
          if has_more && (lines_used <? available_height)%Z
          then Some (result ++ more_nodes_line next_prefix)
          else Some result
  end.

(** Fuel that always suffices: one more than the number of labels. *)
Definition tree_fuel (g : DiGraph) : nat := S (size (labels g)).

(** The call made by [update_live_tree] (all other arguments at their
    defaults). *)
Definition _generate_ascii_tree (self : ConceptExplorer) (node : str)
    (focus_paths : list str) (max_depth : option Z) (available_height : Z)
  : option str :=
  _generate_ascii_tree_fuel (tree_fuel (graph self)) self node [] true ∅
    focus_paths max_depth 0 available_height 0.

(** [update_live_tree]: what it prints as the tree. *)
Inductive rendering :=
  | NoRoot                    (* "No root nodes found yet" *)
  | Diverges                  (* the walk up the predecessors never ends *)
  | Tree (tree_text : str).

(** Truth value of an optional string: [None] and [""] are false. *)
Definition truthy (s : option str) : bool :=
  match s with
  | Some (_ :: _) => true
  | _ => false
  end.

(** The [while current:] walk from the focus node up the first
    predecessors; [None] when it does not end within [fuel] steps. *)
Fixpoint path_to_highlight (fuel : nat) (g : DiGraph) (current : option str)
  : option (list str) :=
  match current with
  | Some ((_ :: _) as c) =>
      match fuel with
      | O => None
      | S fuel' =>
          (c ::.) <$> path_to_highlight fuel' g (head (predecessors g c))
      end
  | _ => Some []
  end.

(** [size] is the answer of [shutil.get_terminal_size] at this call. *)
Definition update_live_tree (self : ConceptExplorer) (size : Z * Z)
    (focus_node : option str) (max_display_depth : option Z)
  : ConceptExplorer * rendering :=
  let self := set_terminal self size in
  (self,
   match roots (graph self) with
   | [] => NoRoot
   | root :: _ =>
       match (if truthy focus_node
              then path_to_highlight (tree_fuel (graph self)) (graph self)
                                     focus_node
              else Some []) with
       | None => Diverges
       | Some path_to_highlight =>
           let available_height := (term_height self - 10)%Z in
           let max_display_depth :=
             if truthy focus_node then
               let path_depth := len path_to_highlight in
               match max_display_depth with
               | Some d => if (d <? path_depth)%Z then (path_depth + 1)%Z
                           else d
               | None => (path_depth + 1)%Z
               end
             else
               match max_display_depth with
               | Some d => d
               | None => Z.max 2 (Z.min 5 (available_height / 3))
               end in
           match _generate_ascii_tree self root path_to_highlight
                   (Some max_display_depth) available_height with
           | Some tree_text => Tree tree_text
           | None => Diverges
           end
       end
   end).

(** ** Plain Exporter *)

Fixpoint plain_children (emit : str → bool → option str) (total i : nat)
    (children : list str) (result : str) : option str :=
  match children with
  | [] => Some result
  | child :: rest =>
      let is_last_child := (i =? total - 1)%nat in
      child_tree ← emit child is_last_child;
      plain_children emit total (S i) rest (result ++ child_tree)
  end.

Fixpoint _plain_ascii_tree_fuel (fuel : nat) (g : DiGraph)
    (node prefix : str) (is_last : bool) (visited : gset str) : option str :=
  match fuel with
  | O => None
  | S fuel' =>
      if bool_decide (node ∈ visited) then
        Some (prefix ++ connector is_last ++ node ++ py " (...)" ++ [NEWLINE])
      else
        let visited := {[node]} ∪ visited in
        let result := prefix ++ connector is_last ++ node ++ [NEWLINE] in
        let children := successors g node in
        if bool_decide (children = []) then Some result
        else
          let next_prefix := prefix ++ indent is_last in
          plain_children
            (λ child is_last_child,
               _plain_ascii_tree_fuel fuel' g child next_prefix is_last_child
                                      visited)
            (length children) 0 children result
  end.

(** [_plain_ascii_tree(node)] with the default arguments. *)
Definition _plain_ascii_tree (g : DiGraph) (node : str) : option str :=
  _plain_ascii_tree_fuel (tree_fuel g) g node [] true ∅.

(** [export_ascii_tree]: the text written to the output file; [None] when
    there is no root and nothing is written. *)
Definition export_ascii_tree (self : ConceptExplorer) : option str :=
  match roots (graph self) with
  | [] => None
  | root :: _ => _plain_ascii_tree (graph self) root
  end.

(** ** The outside world

    The generation backend, the random generator and the terminal are
    outside the program.  A [World] fixes what each of them answers at its
    k-th use and records the uses made so far. *)

(** One exchange with the backend: the model names listed by [/api/tags]
    (empty when that request fails) and the ["response"] text of
    [/api/generate] ([None] when that request fails or times out). *)
Record backend_reply := mkReply {
  available_models : list str;
  generated : option str
}.

(** A generation request: the arguments of the [get_related_concepts] call
    that issued it (the prompt is built from [concept] and [path]). *)
Record request := mkRequest {
  req_concept : str;
  req_depth : Z;
  req_path : list str
}.

Record World := mkWorld {
  backend : nat → backend_reply;
  random_values : nat → Q;
  terminal_sizes : nat → Z * Z;
  requests : list request;
  draws : nat;
  size_queries : nat
}.

Definition new_world (backend : nat → backend_reply) (random_values : nat → Q)
    (terminal_sizes : nat → Z * Z) : World :=
  mkWorld backend random_values terminal_sizes [] 0 0.

(** Send a request: the world answers and remembers it. *)
Definition send (w : World) (r : request) : backend_reply * World :=
  (backend w (length (requests w)),
   mkWorld (backend w) (random_values w) (terminal_sizes w)
           (requests w ++ [r]) (draws w) (size_queries w)).

(** [random.random()] *)
Definition random_random (w : World) : Q * World :=
  (random_values w (draws w),
   mkWorld (backend w) (random_values w) (terminal_sizes w)
           (requests w) (S (draws w)) (size_queries w)).

(** [shutil.get_terminal_size((80, 24))] *)
Definition get_terminal_size (w : World) : Z * Z * World :=
  (terminal_sizes w (size_queries w),
   mkWorld (backend w) (random_values w) (terminal_sizes w)
           (requests w) (draws w) (S (size_queries w))).

(** [ConceptExplorer(model)] *)
Definition new_explorer (model : str) (w : World) : ConceptExplorer * World :=
  let '(size, w) := get_terminal_size w in
  (mkExplorer empty_graph ∅ None None model size.1 size.2, w).

(** ** Generator Gateway *)

(** [name.startswith(p)] *)
Definition startswith (name p : str) : bool :=
  bool_decide (take (length p) name = p).

Definition check_model_availability (self : ConceptExplorer)
    (available_models : list str) : bool * ConceptExplorer :=
  if bool_decide (available_models = []) then (false, self)
  else if bool_decide (model self ∈ available_models) then (true, self)
  else
    match List.find (λ model_name, startswith model_name (model self ++ py ":"))
                    available_models with
    | Some model_name => (true, set_model self model_name)
    | None => (false, self)
    end.

Definition query_ollama (self : ConceptExplorer) (reply : backend_reply)
  : str * ConceptExplorer :=
  let '(available, self) :=
    check_model_availability self (available_models reply) in
  if available then
    match generated reply with
    | Some result => (result, self)
    | None => (py "[]", self)
    end
  else (py "[]", self).

(** Values of the JSON decoder. *)
Inductive json :=
  | JNull
  | JBool (b : bool)
  | JNumber (literal : str)
  | JString (s : str)
  | JArray (items : list json)
  | JObject (members : list (str * json)).

(** The validation loop over the decoded array.  An element that is not a
    string raises ([len], [+] or [strip] is missing on it), which the
    [except] clause turns into the empty result: [None] here. *)
Fixpoint filter_concepts (self : ConceptExplorer) (related_concepts : list json)
    (filtered_concepts : list str) : option (list str) :=
  match related_concepts with
  | [] => Some filtered_concepts
  | JString rc :: rest =>
      let rc :=
        if (term_width self / 3 <? len rc)%Z
        then slice_to rc (term_width self / 3 - 3) ++ py "..."
        else rc in
      if bool_decide (strip rc = [])
         || bool_decide (lower rc ∈ lower <$> elements (seen_concepts self))
      then filter_concepts self rest filtered_concepts
      else filter_concepts self rest (filtered_concepts ++ [rc])
  | _ :: _ => None
  end.

Definition LBRACKET : N := 91%N.
Definition RBRACKET : N := 93%N.

Section Gateway.

(** [json.loads] of the standard library, on a text whose first character
    is ["["]: such a text decodes to an array or is rejected ([None]). *)
Variable json_loads : str → option (list json).

(** The [try] block that reads the response. *)
Definition parse_response (self : ConceptExplorer) (response : str)
  : list str :=
  if contains LBRACKET response && contains RBRACKET response then
    let json_str :=
      slice response (find LBRACKET response)
                     (rfind RBRACKET response + 1) in
    match json_str with
    | [] => []                      (* [json.loads("")] raises *)
    | _ =>
        match json_loads json_str with
        | None => []
        | Some related_concepts =>
            match filter_concepts self related_concepts [] with
            | Some filtered_concepts => filtered_concepts
            | None => []
            end
        end
    end
  else [].

Definition get_related_concepts (self : ConceptExplorer) (w : World)
    (concept : str) (depth : Z) (path : list str)
  : list str * ConceptExplorer * World :=
  if bool_decide (concept ∈ seen_concepts self) || (5 <? depth)%Z then
    ([], self, w)
  else
    let self := set_seen_concepts self ({[concept]} ∪ seen_concepts self) in
    let self := set_current_concept self (Some concept) in
    let full_path := path ++ [concept] in
    let '(reply, w) := send w (mkRequest concept depth full_path) in
    let '(response, self) := query_ollama self reply in
    (parse_response self response, self, w).

(** ** Exploration Engine *)

Definition Qltb (a b : Q) : bool := negb (Qle_bool b a).

(** The diversity-bias step on the candidates of one expansion. *)
Definition apply_diversity_bias (diversity_bias : Q) (self : ConceptExplorer)
    (w : World) (related_concepts : list str) : list str * World :=
  if Qltb 0 diversity_bias && negb (bool_decide (related_concepts = [])) then
    let '(r, w) := random_random w in
    if Qltb r diversity_bias then
      (sort_key (λ x, _diversity_score x (seen_concepts self))
                related_concepts, w)
    else (related_concepts, w)
  else (related_concepts, w).

(** State effect of one [update_live_tree] call inside the loop. *)
Definition refresh (self : ConceptExplorer) (w : World)
    (focus_node : option str) (max_display_depth : option Z)
  : ConceptExplorer * World :=
  let '(size, w) := get_terminal_size w in
  ((update_live_tree self size focus_node max_display_depth).1, w).

(** A point of the run of [build_concept_web]: [pending] holds the
    candidates the [for] loop has still to add for the entry [expanding]
    taken from the queue; [finished] is set after the final display. *)
Record Config := mkConfig {
  explorer : ConceptExplorer;
  world : World;
  queue : list (str * Z * list str);
  expanding : str * Z * list str;
  pending : list str;
  finished : bool
}.

Section Loop.
Variables (max_depth : Z) (diversity_bias : Q).

Definition display_depth : Z := Z.min 3 max_depth.

(** One pass of the body of [for rel_concept in related_concepts]. *)
Definition add_related (c : Config) (rel_concept : str)
    (rest : list str) : Config :=
  let '(concept, depth, path) := expanding c in
  let self := explorer c in
  let self :=
    if has_node (graph self) rel_concept then self
    else set_last_added
           (set_graph self (add_node (graph self) rel_concept))
           (Some rel_concept) in
  let self := set_graph self (add_edge (graph self) concept rel_concept) in
  let new_path := path ++ [concept] in
  let queue := queue c ++ [(rel_concept, (depth + 1)%Z, new_path)] in
  let '(self, w) :=
    refresh self (world c) (Some rel_concept) (Some display_depth) in
  mkConfig self w queue (expanding c) rest false.

(** The head of one [while queue] iteration, up to the [for] loop. *)
Definition expand (c : Config) (concept : str) (depth : Z)
    (path : list str) (rest : list (str * Z * list str)) : Config :=
  if (max_depth <=? depth)%Z then
    mkConfig (explorer c) (world c) rest (concept, depth, path) [] false
  else
    let '(self, w) :=
      refresh (explorer c) (world c) (Some concept) (Some display_depth) in
    let '(related_concepts, self, w) :=
      get_related_concepts self w concept depth path in
    let '(related_concepts, w) :=
      apply_diversity_bias diversity_bias self w related_concepts in
    mkConfig self w rest (concept, depth, path) related_concepts false.

(** What follows the [while] loop. *)
Definition finish (c : Config) : Config :=
  let self := set_current_concept (explorer c) None in
  let self := set_last_added self None in
  let '(self, w) := refresh self (world c) None None in
  mkConfig self w [] (expanding c) [] true.

Definition step (c : Config) : Config :=
  if finished c then c
  else
    match pending c with
    | rel_concept :: rest => add_related c rel_concept rest
    | [] =>
        match queue c with
        | (concept, depth, path) :: rest =>
            expand c concept depth path rest
        | [] => finish c
        end
    end.

(** The configuration when the [while] loop is first reached. *)
Definition build_concept_web (self : ConceptExplorer) (w : World)
    (root_concept : str) : Config :=
  let self := set_graph self (add_node (graph self) root_concept) in
  let '(self, w) := refresh self w None None in
  mkConfig self w [(root_concept, 0%Z, [])] (root_concept, 0%Z, []) []
           false.

(** [run n c]: the configuration after [n] more steps. *)
Fixpoint run (n : nat) (c : Config) : Config :=
  match n with
  | O => c
  | S n' => run n' (step c)
  end.

End Loop.

(** A whole program run: a fresh explorer, then [build_concept_web]. *)
Definition explore (model root_concept : str) (max_depth : Z)
    (diversity_bias : Q) (w : World) (n : nat) : Config :=
  let '(self, w) := new_explorer model w in
  run max_depth diversity_bias n (build_concept_web self w root_concept).

End Gateway.

(** ** Vocabulary of the statements and sample data *)

(** Literals with characters outside ASCII: the bytes of the literal are
    read as UTF-8.  [more] continuation bytes are still expected for the
    code point begun with [acc]. *)
Fixpoint utf8_decode (more : nat) (acc : N) (bytes : list N) : str :=
  match bytes with
  | [] => []
  | b :: rest =>
      if (b <? 128)%N then b :: utf8_decode 0 0 rest
      else if (b <? 192)%N then
        let acc := (acc * 64 + (b - 128))%N in
        match more with
        | 0 => utf8_decode 0 0 rest
        | 1 => acc :: utf8_decode 0 0 rest
        | S more' => utf8_decode more' acc rest
        end
      else if (b <? 224)%N then utf8_decode 1 (b - 192) rest
      else if (b <? 240)%N then utf8_decode 2 (b - 224) rest
      else utf8_decode 3 (b - 240) rest
  end.

Definition utf8 (s : string) : str := utf8_decode 0 0 (py s).

(** The text made of the given lines, each ended by a line break. *)
Definition lines_of (l : list str) : str :=
  concat ((λ line, line ++ [10%N]) <$> l).

(** The two word sets share no token. *)
Definition lexically_disjoint (candidate existing : str) : Prop :=
  word_set candidate ∩ word_set existing = ∅.

#[global] Instance lexically_disjoint_dec c e : Decision (lexically_disjoint c e).
Proof. unfold lexically_disjoint. apply _. Defined.

(** An explorer that has dispatched ["sun"] on an 80x24 terminal, and a
    world whose random generator answers 1/2. *)
Definition sun_explorer : ConceptExplorer :=
  mkExplorer (add_node empty_graph (py "sun")) {[py "sun"]} None
             (Some (py "sun")) (py "llama3") 80 24.

Definition half_world : World :=
  new_world (λ _, mkReply [] None) (λ _, 1 # 2) (λ _, (80, 24)%Z).

(** The text of a JSON array of plain string literals, and a decoder that
    knows the arrays listed in [known] and rejects every other text; it
    stands for [json.loads] in the sample runs. *)
Definition quoted (s : str) : str := 34%N :: s ++ [34%N].

Definition json_array_text (items : list str) : str :=
  py "[" ++ join (py ", ") (quoted <$> items) ++ py "]".

Definition decoder_of (known : list (list str)) (text : str)
  : option (list json) :=
  match List.find (λ items, bool_decide (json_array_text items = text))
                  known with
  | Some items => Some (JString <$> items)
  | None => None
  end.

(** The part of a response between its first ["["] and its last ["]"]. *)
Definition bracketed (response : str) : str :=
  slice response (find LBRACKET response) (rfind RBRACKET response + 1).

(** The response carries an array of strings, for the decoder [loads]. *)
Definition decodes_to_strings (loads : str → option (list json))
    (response : str) : Prop :=
  ∃ items : list str,
    bracketed response ≠ []
    ∧ loads (bracketed response) = Some (JString <$> items).

(** No bracket pair, or the bracketed text is not an array of strings. *)
Definition malformed (loads : str → option (list json)) (response : str)
  : Prop :=
  contains LBRACKET response = false
  ∨ contains RBRACKET response = false
  ∨ ¬ decodes_to_strings loads response.

(** A terminal six columns wide, and a backend that serves model
    ["llama3"] and always answers with the array of [items]. *)
Definition narrow_explorer : ConceptExplorer :=
  mkExplorer empty_graph ∅ None None (py "llama3") 6 24.

Definition wide_explorer : ConceptExplorer :=
  mkExplorer empty_graph ∅ None None (py "llama3") 80 24.

(** An explorer on an 80x24 terminal that has seen ["Moon Light"] and
    the Greek ["ΛΌΓΟΣ"]. *)
Definition moon_explorer : ConceptExplorer :=
  mkExplorer empty_graph {[py "Moon Light"; utf8 "ΛΌΓΟΣ"]} None None
             (py "llama3") 80 24.

Definition answering (items : list str) : World :=
  new_world (λ _, mkReply [py "llama3"] (Some (json_array_text items)))
            (λ _, 1 # 2) (λ _, (80, 24)%Z).

(** A backend that answers in prose, without any bracket. *)
Definition prose_world : World :=
  new_world (λ _, mkReply [py "llama3"] (Some (py "I have no idea.")))
            (λ _, 1 # 2) (λ _, (80, 24)%Z).

(** What the validation loop lets through: [rc] is [entry], cut when it
    is longer than the width budget, and passes both tests. *)
Definition validated (self : ConceptExplorer) (entry rc : str) : Prop :=
  rc = (if (term_width self / 3 <? len entry)%Z
        then slice_to entry (term_width self / 3 - 3) ++ py "..."
        else entry)
  ∧ strip rc ≠ []
  ∧ lower rc ∉ lower <$> elements (seen_concepts self).

(** Past the guard: the explorer at the time of the backend call. *)
Definition dispatched (self : ConceptExplorer) (concept : str)
  : ConceptExplorer :=
  set_current_concept
    (set_seen_concepts self ({[concept]} ∪ seen_concepts self))
    (Some concept).

(** Directed edges, and graphs without a directed cycle. *)
Definition edge (g : DiGraph) (u v : str) : Prop := (u, v) ∈ edges g.

Definition acyclic (g : DiGraph) : Prop := ∀ n, ¬ tc (edge g) n n.

(** The concepts for which a generation request was sent, oldest first. *)
Definition dispatched_concepts (w : World) : list str :=
  req_concept <$> requests w.

(** Invariant of the requests: every request so far is for a different
    concept, each of them is in the seen set, and it was sent at a depth
    of at most 5 and below [max_depth]. *)
Definition requests_inv (max_depth : Z) (c : Config) : Prop :=
  NoDup (dispatched_concepts (world c))
  ∧ ∀ r, r ∈ requests (world c) →
      req_concept r ∈ seen_concepts (explorer c)
      ∧ (req_depth r ≤ 5)%Z ∧ (req_depth r < max_depth)%Z.

(** Invariant of the graph: it has no cycle, every edge leaves a concept
    of the seen set, and while candidates are pending the concept being
    expanded is in the seen set and the candidates are not. *)
Definition graph_inv (c : Config) : Prop :=
  acyclic (graph (explorer c))
  ∧ (∀ u v, edge (graph (explorer c)) u v →
            u ∈ seen_concepts (explorer c))
  ∧ ∀ rc, rc ∈ pending c →
      (expanding c).1.1 ∈ seen_concepts (explorer c)
      ∧ (rc ∉ seen_concepts (explorer c)).

(** A backend whose k-th answer is the one-element array ["concept k"],
    and the decoder for its first ten answers. *)
Definition numbered (k : nat) : str := py "concept " ++ [N.of_nat (48 + k)].

Definition chain_world : World :=
  new_world (λ k, mkReply [py "llama3"] (Some (json_array_text [numbered k])))
            (λ _, 1 # 2) (λ _, (80, 24)%Z).

Definition chain_decoder : str → option (list json) :=
  decoder_of ((λ k, [numbered k]) <$> seq 0 10).

(** The graph made by discovering [b] from [a] and then [c] from [b]. *)
Definition chain (a b c : str) : DiGraph :=
  add_edge (add_edge (add_node empty_graph a) a b) b c.

(** A root ["R"] above the two-cycle ["A"] -> ["B"] -> ["A"]. *)
Definition looped : DiGraph :=
  add_edge (add_edge (add_edge (add_node empty_graph (py "R"))
                               (py "R") (py "A"))
                     (py "A") (py "B"))
           (py "B") (py "A").

(** ["C"] is reached from the root through ["A"] and through ["B"]. *)
Definition diamond : DiGraph :=
  add_edge (add_edge (add_edge (add_edge (add_node empty_graph (py "R"))
                                         (py "R") (py "A"))
                               (py "R") (py "B"))
                     (py "A") (py "C"))
           (py "B") (py "C").

(** The explorer holding graph [g] on a terminal of the given size. *)
Definition showing (g : DiGraph) (width height : Z) : ConceptExplorer :=
  mkExplorer g ∅ None None (py "llama3") width height.

(** A label without a line break. *)
Definition one_line (s : str) : Prop := NEWLINE ∉ s.

(** A line of the plain export: prefix, connector, label, line break. *)
Definition plain_line (prefix : str) (is_last : bool) (label : str) : str :=
  prefix ++ connector is_last ++ label ++ [NEWLINE].

(** Check that no label of the graph has a line break. *)
Definition one_line_graph (g : DiGraph) : bool :=
  forallb (λ n, negb (contains NEWLINE n))
          (nodes g ++ (edges g).*1 ++ (edges g).*2).

(** A single node whose label runs over two lines. *)
Definition two_line_label : str := py "a" ++ [NEWLINE] ++ py "b".

(** The root ["R"] has the children ["A"], ["B"] and ["C"], and ["A"] has
    the child ["D"]. *)
Definition bushy : DiGraph :=
  add_edge (add_edge (add_edge (add_edge (add_node empty_graph (py "R"))
                                         (py "R") (py "A"))
                               (py "R") (py "B"))
                     (py "R") (py "C"))
           (py "A") (py "D").

(** The root ["R"] with the twelve children ["a"] to ["l"]. *)
Definition fan : DiGraph :=
  foldl (λ g child, add_edge g (py "R") child)
        (add_node empty_graph (py "R"))
        (py <$> ["a"; "b"; "c"; "d"; "e"; "f"; "g"; "h"; "i"; "j"; "k"; "l"]
                %string).

(** The start, middle and end pieces of the non-focus children, for a
    sample of [sample_size], written with [take] and [drop]. *)
Definition three_pieces (non_focus : list str) (sample_size : Z) : list str :=
  let third := Z.max 1 (sample_size / 3) in
  take (Z.to_nat third) non_focus
  ++ take (Z.to_nat (2 * (third / 2)))
          (drop (Z.to_nat (len non_focus / 2 - third / 2)) non_focus)
  ++ drop (length non_focus - Z.to_nat third) non_focus.

(** Ascending order of keys. *)
Definition key_le {A} (key : A → nat) (x y : A) : Prop := key x ≤ key y.

(** An entry of the decoded list as the validation loop sees it after the
    cut, and the test the loop applies to it. *)
Definition cut_for_display (self : ConceptExplorer) (rc : str) : str :=
  if (term_width self / 3 <? len rc)%Z
  then slice_to rc (term_width self / 3 - 3) ++ py "..."
  else rc.

Definition accepted (self : ConceptExplorer) (rc : str) : bool :=
  negb (bool_decide (strip rc = [])
        || bool_decide (lower rc ∈ lower <$> elements (seen_concepts self))).

(** Consecutive labels of [l] are joined by edges of [g]. *)
Fixpoint linked (g : DiGraph) (l : list str) : Prop :=
  match l with
  | u :: l' =>
      match l' with
      | v :: _ => edge g u v ∧ linked g l'
      | [] => True
      end
  | [] => True
  end.

(** A queue entry that fits the graph: the concept is a node, the path has
    as many labels as the depth says, the depth is at most 6 and at most
    [max_depth] (or 0), and the path followed by the concept leads from
    [root] along edges of the graph. *)
Definition entry_fits (g : DiGraph) (root : str) (max_depth : Z)
    (e : str * Z * list str) : Prop :=
  e.1.1 ∈ nodes g
  ∧ len e.2 = e.1.2
  ∧ (e.1.2 ≤ 6)%Z ∧ (e.1.2 ≤ Z.max 0 max_depth)%Z
  ∧ linked g (e.2 ++ [e.1.1])
  ∧ head (e.2 ++ [e.1.1]) = Some root.

(** What holds of graph, seen set, queue and requests throughout a run
    started on the seed [root]. *)
Record web_inv (root : str) (max_depth : Z) (c : Config) : Prop := {
  web_nodup : NoDup (nodes (graph (explorer c)));
  web_root : ∃ rest, nodes (graph (explorer c)) = root :: rest;
  web_edges : ∀ u v, edge (graph (explorer c)) u v →
    u ∈ nodes (graph (explorer c)) ∧ v ∈ nodes (graph (explorer c))
    ∧ v ≠ root ∧ u ∈ seen_concepts (explorer c);
  web_found : ∀ n, n ∈ nodes (graph (explorer c)) →
    n = root ∨ ∃ u, edge (graph (explorer c)) u n;
  web_seen : ∀ x, x ∈ seen_concepts (explorer c) →
    x ∈ nodes (graph (explorer c));
  web_queue : ∀ e, e ∈ queue c →
    entry_fits (graph (explorer c)) root max_depth e;
  web_pending : pending c ≠ [] →
    entry_fits (graph (explorer c)) root max_depth (expanding c)
    ∧ (expanding c).1.1 ∈ seen_concepts (explorer c)
    ∧ ((expanding c).1.2 ≤ 5)%Z ∧ ((expanding c).1.2 < max_depth)%Z
    ∧ ∀ rc, rc ∈ pending c → rc ∉ seen_concepts (explorer c);
  web_start : root ∈ seen_concepts (explorer c)
    ∨ (edges (graph (explorer c)) = [] ∧ pending c = []
       ∧ ∀ e, e ∈ queue c → e = (root, 0%Z, []));
  web_dispatched :
    seen_concepts (explorer c) = list_to_set (dispatched_concepts (world c));
  web_requests : ∀ r, r ∈ requests (world c) →
    ∃ path, req_path r = path ++ [req_concept r]
            ∧ len path = req_depth r
            ∧ linked (graph (explorer c)) (req_path r)
            ∧ head (req_path r) = Some root
}.

(** Lists of equal length compared from the left: the order in which
    the measure of the loop goes down. *)
Fixpoint lex_lt (l1 l2 : list nat) : Prop :=
  match l1, l2 with
  | x :: l1', y :: l2' =>
      (x < y ∧ length l1' = length l2') ∨ (x = y ∧ lex_lt l1' l2')
  | _, _ => False
  end.

(** The number of entries waiting at depth [d]: those in the queue, and
    the pending candidates, which will be queued one level below the
    entry being expanded. *)
Definition depth_count (d : Z) (c : Config) : nat :=
  length (List.filter (λ e : str * Z * list str, (e.1.2 =? d)%Z) (queue c))
  + (if ((expanding c).1.2 + 1 =? d)%Z then length (pending c) else 0).

(** The measure of a configuration: the entries waiting at the depths 0
    to 6, then the candidates still to be linked, then 1 until the final
    display is done. *)
Definition weights (c : Config) : list nat :=
  ((λ d, depth_count (Z.of_nat d) c) <$> seq 0 7)
  ++ [length (pending c); if finished c then 0 else 1].

(** The exported text has a line for [label]. *)
Definition has_line (text label : str) : Prop :=
  ∃ prefix is_last before after,
    text = before ++ plain_line prefix is_last label ++ after.

(** Every node can be reached from [root] along edges. *)
Definition reachable_from (root : str) (g : DiGraph) : Prop :=
  ∀ x, x ∈ nodes g →
    ∃ p, linked g p ∧ head p = Some root ∧ last p = Some x.

(** Every concept found has a name: no edge leads to the empty label, and
    no pending candidate is empty. *)
Definition named_inv (c : Config) : Prop :=
  (∀ u v, edge (graph (explorer c)) u v → v ≠ [])
  ∧ ∀ rc, rc ∈ pending c → rc ≠ [].

(** The depths of the entries waiting in the queue, front first, and of
    the requests sent, oldest first. *)
Definition queue_depths (c : Config) : list Z :=
  (λ e : str * Z * list str, e.1.2) <$> queue c.

Definition request_depths (w : World) : list Z := req_depth <$> requests w.

(** The queue is worked off level by level: its depths never decrease
    from front to back and span at most two levels, the candidates being
    linked belong to the deeper of the two, and no request was sent for a
    deeper entry than any that waits. *)
Record bfs_inv (c : Config) : Prop := {
  bfs_queue : StronglySorted Z.le (queue_depths c);
  bfs_span : ∀ a b, a ∈ queue_depths c → b ∈ queue_depths c → (b ≤ a + 1)%Z;
  bfs_pending : pending c ≠ [] →
    ∀ a, a ∈ queue_depths c →
      ((expanding c).1.2 ≤ a ≤ (expanding c).1.2 + 1)%Z;
  bfs_requests : StronglySorted Z.le (request_depths (world c));
  bfs_behind : ∀ r a, r ∈ request_depths (world c) → a ∈ queue_depths c →
    (r ≤ a)%Z;
  bfs_current : pending c ≠ [] →
    ∀ r, r ∈ request_depths (world c) → (r ≤ (expanding c).1.2)%Z;
  bfs_draws : draws (world c) ≤ length (requests (world c))
}.

(** The styles [_color_node] chooses from. *)
Definition style_current : str := Back_BLUE ++ Fore_WHITE.
Definition style_last_added : str := Back_GREEN ++ Fore_BLACK.
Definition style_root : str := Fore_MAGENTA ++ Style_BRIGHT.

(** An entry at this depth is taken from the queue without a request. *)
Definition too_deep (max_depth depth : Z) : Prop :=
  (max_depth ≤ depth)%Z ∨ (5 < depth)%Z.

(** Every edge leaves a requested concept, and its target has been
    requested too, or lies at the depth where the exploration stops, or
    still waits in the queue one level below its source. *)
Definition frontier_inv (max_depth : Z) (c : Config) : Prop :=
  (∀ u v, edge (graph (explorer c)) u v →
     ∃ r, r ∈ requests (world c) ∧ req_concept r = u
          ∧ (v ∈ seen_concepts (explorer c)
             ∨ too_deep max_depth (req_depth r + 1)
             ∨ ∃ path, (v, (req_depth r + 1)%Z, path) ∈ queue c))
  ∧ (pending c ≠ [] →
     ∃ r, r ∈ requests (world c) ∧ req_concept r = (expanding c).1.1
          ∧ req_depth r = (expanding c).1.2).

(** * Properties *)

(** ** The Python primitives on sample inputs *)

Example split_sample :
  split (py "  sun   light ") = [py "sun"; py "light"].
Proof. reflexivity. Qed.

Example strip_lower_sample :
  strip (py "  Sun Light ") = py "Sun Light"
  ∧ lower (py "Sun Light") = py "sun light".
Proof. split; reflexivity. Qed.

Example utf8_sample :
  utf8 "└── é" = [9492; 9472; 9472; 32; 233]%N
  ∧ lines_of [py "a"; py "b"] = [97; 10; 98; 10]%N.
Proof. split; reflexivity. Qed.

(** Lower case beyond ASCII: Greek with the final sigma, Polish,
    Cyrillic, and the dotted capital I that becomes two code points. *)
Example lower_unicode_sample :
  lower (utf8 "ΑΒΓ") = utf8 "αβγ"
  ∧ lower (utf8 "ΟΔΟΣ ΣΟΦΟΣ") = utf8 "οδος σοφος"
  ∧ lower (utf8 "ŁÓDŹ") = utf8 "łódź"
  ∧ lower (utf8 "ДОМ") = utf8 "дом"
  ∧ lower (utf8 "İstanbul") = [105; 775]%N ++ py "stanbul"
  ∧ lower (utf8 "ß × ÿ") = utf8 "ß × ÿ".
Proof. repeat split; vm_compute; reflexivity. Qed.

Example slice_samples :
  slice_to (py "abcdefgh") (-1) = py "abcdefg"
  ∧ slice_to (py "abcdefgh") 3 = py "abc"
  ∧ slice_from (py "abcdefgh") (-2) = py "gh"
  ∧ slice (py "abcdefgh") 2 5 = py "cde"
  ∧ slice (py "] [") (find LBRACKET (py "] [")) (rfind RBRACKET (py "] [") + 1)
    = [].
Proof. repeat split; reflexivity. Qed.

Example sort_key_stable :
  sort_key (λ s, length s) [py "ccc"; py "a"; py "bb"; py "d"; py "ee"]
  = [py "a"; py "d"; py "bb"; py "ee"; py "ccc"].
Proof. reflexivity. Qed.

Example fromkeys_sample :
  fromkeys [py "a"; py "b"; py "a"; py "c"; py "b"] = [py "a"; py "b"; py "c"].
Proof. reflexivity. Qed.

Example diversity_score_sample :
  _diversity_score (py "Sun light")
    {[ py "sun"; py "moon"; py "LIGHT house"; py "tide" ]} = 2.
Proof. vm_compute. reflexivity. Qed.

(** ** Diversity Scorer *)

Lemma diversity_score_size (candidate : str) (existing : gset str) :
  _diversity_score candidate existing
  = size (filter (lexically_disjoint candidate) existing).
Proof.
  unfold _diversity_score.
  apply (set_fold_ind_L
           (λ r X, r = size (filter (lexically_disjoint candidate) X))).
  - rewrite filter_empty_L by apply _. by rewrite size_empty.
  - intros x X r Hx ->. rewrite filter_union_L by apply _. cbn zeta.
    rewrite size_union.
    2:{ set_solver. }
    destruct (decide (word_set candidate ∩ word_set x = ∅)) as [Hd|Hd].
    + rewrite filter_singleton_True_L; [|apply _|done].
      by rewrite size_singleton.
    + rewrite filter_singleton_False_L; [|apply _|done].
      by rewrite size_empty.
Qed.

Lemma diversity_score_mono (candidate : str) (X Y : gset str) :
  X ⊆ Y → _diversity_score candidate X ≤ _diversity_score candidate Y.
Proof.
  intros HXY. rewrite !diversity_score_size. apply subseteq_size.
  set_solver.
Qed.

Lemma diversity_score_fresh (candidate extra : str) (existing : gset str) :
  extra ∉ existing → lexically_disjoint candidate extra →
  _diversity_score candidate ({[extra]} ∪ existing)
  = S (_diversity_score candidate existing).
Proof.
  intros Hfresh Hd. rewrite !diversity_score_size.
  rewrite filter_union_L by apply _. rewrite size_union.
  - rewrite filter_singleton_True_L; [|apply _|done].
    by rewrite size_singleton.
  - set_solver.
Qed.

(** C3: the score of a candidate is the number of existing concepts whose
    lower-case, white-space-split word set has no token in common with the
    candidate's: no token of the lower-cased candidate is a token of the
    lower-cased concept.  Putting one more such concept into the existing
    set never lowers the score, and raises it by one when the concept is
    new. *)
Theorem diversity_score_counts_disjoint (candidate : str)
    (existing : gset str) :
  _diversity_score candidate existing
  = size (filter (λ e, word_set candidate ∩ word_set e = ∅) existing)
  ∧ (∀ e, word_set candidate ∩ word_set e = ∅
          ↔ ∀ token, token ∈ split (lower candidate) →
                     token ∉ split (lower e))
  ∧ ∀ extra : str,
      word_set candidate ∩ word_set extra = ∅ →
      _diversity_score candidate existing
      ≤ _diversity_score candidate ({[extra]} ∪ existing)
      ∧ (extra ∉ existing →
         _diversity_score candidate ({[extra]} ∪ existing)
         = S (_diversity_score candidate existing)).
Proof.
  split; [apply diversity_score_size|]. split.
  - intros e. unfold word_set. split.
    + intros Hd token Hc He.
      assert (Hin : token ∈ (list_to_set (split (lower candidate)) : gset str)
                            ∩ list_to_set (split (lower e))).
      { apply elem_of_intersection. by rewrite !elem_of_list_to_set. }
      rewrite Hd in Hin. by apply elem_of_empty in Hin.
    + intros Hall. apply set_eq. intros token.
      rewrite elem_of_intersection, !elem_of_list_to_set. split.
      * intros [Hc He]. by destruct (Hall token Hc).
      * by intros ?%elem_of_empty.
  - intros extra Hd. split.
    + apply diversity_score_mono. set_solver.
    + intros Hnew. by apply diversity_score_fresh.
Qed.

Lemma diversity_score_counts_disjoint_witness :
  word_set (py "Sun LIGHT") ∩ word_set (py "Tide Pool") = ∅
  ∧ _diversity_score (py "Sun LIGHT") {[py "sun dial"; py "MOON"]} = 1
  ∧ _diversity_score (py "Sun LIGHT")
      ({[py "Tide Pool"]} ∪ {[py "sun dial"; py "MOON"]}) = 2
  ∧ _diversity_score (utf8 "ΑΒΓ") {[utf8 "αβγ"; utf8 "ΔΕΛΤΑ"]} = 1.
Proof.
  assert (H : word_set (py "Sun LIGHT") ∩ word_set (py "Tide Pool") = ∅)
    by (vm_compute; reflexivity).
  assert (Hnew : py "Tide Pool" ∉ ({[py "sun dial"; py "MOON"]} : gset str))
    by (vm_compute; intros Hin; discriminate Hin).
  assert (H1 : _diversity_score (py "Sun LIGHT") {[py "sun dial"; py "MOON"]}
               = 1).
  { rewrite (proj1 (diversity_score_counts_disjoint (py "Sun LIGHT")
                      {[py "sun dial"; py "MOON"]})).
    vm_compute. reflexivity. }
  split; [exact H|]. split; [exact H1|]. split.
  - rewrite (proj2 (proj2 (proj2 (diversity_score_counts_disjoint
                                    (py "Sun LIGHT")
                                    {[py "sun dial"; py "MOON"]}))
                     (py "Tide Pool") H) Hnew).
    by rewrite H1.
  - rewrite (proj1 (diversity_score_counts_disjoint (utf8 "ΑΒΓ")
                      {[utf8 "αβγ"; utf8 "ΔΕΛΤΑ"]})).
    vm_compute. reflexivity.
Defined.

(** ** Stable sort by key *)

Section SortFacts.
Context {A : Type} (key : A → nat).

Lemma insert_by_key_perm x l : insert_by_key key x l ≡ₚ x :: l.
Proof.
  induction l as [|y l IH]; simpl; [done|].
  destruct (key x <=? key y)%nat; [done|].
  rewrite IH. apply Permutation_swap.
Qed.

Lemma sort_key_perm l : sort_key key l ≡ₚ l.
Proof.
  induction l as [|x l IH]; simpl; [done|].
  fold (sort_key key l). by rewrite insert_by_key_perm, IH.
Qed.

Lemma insert_by_key_sorted x l :
StronglySorted (key_le key) l →
StronglySorted (key_le key) (insert_by_key key x l).
Proof.
  induction 1 as [|y l Hl IH Hy]; simpl.
  - repeat constructor.
  - destruct (Nat.leb_spec (key x) (key y)) as [Hxy|Hxy].
    + constructor; [by constructor|].
      constructor; [done|].
      eapply Forall_impl; [exact Hy|]. unfold key_le. intros; lia.
    + constructor; [done|].
      rewrite insert_by_key_perm. constructor; [|done].
      unfold key_le. lia.
Qed.

(** The sorted list is in ascending key order. *)
Lemma sort_key_sorted l : StronglySorted (key_le key) (sort_key key l).
Proof.
  induction l as [|x l IH]; simpl; [constructor|].
  by apply insert_by_key_sorted.
Qed.
End SortFacts.

(** ** Diversity bias *)

Lemma apply_diversity_bias_sorted diversity_bias self w related_concepts :
  Qltb 0 diversity_bias = true → related_concepts ≠ [] →
  Qltb (random_values w (draws w)) diversity_bias = true →
  (apply_diversity_bias diversity_bias self w related_concepts).1
  = sort_key (λ x, _diversity_score x (seen_concepts self)) related_concepts.
Proof.
  intros Hb Hne Hr. unfold apply_diversity_bias. rewrite Hb.
  rewrite bool_decide_eq_false_2 by done. simpl. by rewrite Hr.
Qed.

(** When the draw is not below the bias the order is kept. *)
Lemma apply_diversity_bias_kept diversity_bias self w related_concepts :
  Qltb (random_values w (draws w)) diversity_bias = false →
  (apply_diversity_bias diversity_bias self w related_concepts).1
  = related_concepts.
Proof.
  intros Hr. unfold apply_diversity_bias.
  destruct (Qltb 0 diversity_bias && _); [|done]. simpl. by rewrite Hr.
Qed.

Lemma apply_diversity_bias_perm diversity_bias self w related_concepts :
  (apply_diversity_bias diversity_bias self w related_concepts).1
  ≡ₚ related_concepts.
Proof.
  unfold apply_diversity_bias.
  destruct (Qltb 0 diversity_bias && _); [|done]. simpl.
  destruct (Qltb _ _); simpl; [apply sort_key_perm|done].
Qed.

(** When the draw is below the bias, the candidates come out in ascending
    order of score: the lowest score first. *)
Lemma apply_diversity_bias_ascending diversity_bias self w related_concepts :
  Qltb 0 diversity_bias = true → related_concepts ≠ [] →
  Qltb (random_values w (draws w)) diversity_bias = true →
  StronglySorted
    (λ x y, _diversity_score x (seen_concepts self)
            ≤ _diversity_score y (seen_concepts self))
    (apply_diversity_bias diversity_bias self w related_concepts).1.
Proof.
  intros. rewrite apply_diversity_bias_sorted by done.
  apply (sort_key_sorted (λ x, _diversity_score x (seen_concepts self))).
Qed.

(** C1: with bias 0.8 and a draw of 0.5 the candidates
    ["moon", "sun light"], whose scores against the seen set {"sun"} are 1
    and 0, come out as ["sun light", "moon"]: the lowest score first, not
    the highest. *)
Theorem diversity_bias_puts_lowest_score_first :
  _diversity_score (py "moon") (seen_concepts sun_explorer) = 1
  ∧ _diversity_score (py "sun light") (seen_concepts sun_explorer) = 0
  ∧ (apply_diversity_bias (4 # 5) sun_explorer half_world
       [py "moon"; py "sun light"]).1
    = [py "sun light"; py "moon"].
Proof. vm_compute. auto. Qed.

(** ** Generator Gateway *)

Lemma query_ollama_frame self reply :
  let self' := (query_ollama self reply).2 in
  graph self' = graph self ∧ seen_concepts self' = seen_concepts self
  ∧ last_added self' = last_added self
  ∧ current_concept self' = current_concept self
  ∧ term_width self' = term_width self ∧ term_height self' = term_height self.
Proof.
  unfold query_ollama, check_model_availability.
  destruct (bool_decide (available_models reply = [])); simpl; [done|].
  destruct (bool_decide (model self ∈ available_models reply)); simpl.
  { by destruct (generated reply). }
  destruct (List.find _ _); simpl; [|done].
  by destruct (generated reply).
Qed.

(** An element that is not a string makes the validation loop raise. *)
Lemma filter_concepts_raises self related_concepts filtered_concepts :
  (¬ ∃ items : list str, related_concepts = JString <$> items) →
  filter_concepts self related_concepts filtered_concepts = None.
Proof.
  revert filtered_concepts.
  induction related_concepts as [|v l IH]; intros acc Hno.
  - destruct Hno. by exists [].
  - destruct v; simpl; try done.
    assert (Hl : ¬ ∃ items : list str, l = JString <$> items).
    { intros [items ->]. apply Hno. by exists (s :: items). }
    destruct (_ || _); by apply IH.
Qed.

Lemma filter_concepts_validated self related_concepts filtered_concepts out :
  filter_concepts self related_concepts filtered_concepts = Some out →
  ∀ rc, rc ∈ out →
    rc ∈ filtered_concepts
    ∨ ∃ entry, JString entry ∈ related_concepts ∧ validated self entry rc.
Proof.
  revert filtered_concepts.
  induction related_concepts as [|v l IH]; intros acc Hout rc Hrc.
  - simpl in Hout. injection Hout as <-. by left.
  - destruct v; simpl in Hout; try done.
    destruct (bool_decide _ || bool_decide _) eqn:Hrej.
    + destruct (IH _ Hout rc Hrc) as [?|(entry & ? & ?)]; [by left|].
      right. exists entry. split; [by right|done].
    + destruct (IH _ Hout rc Hrc) as [Hacc|(entry & ? & ?)].
      * apply elem_of_app in Hacc as [?|Hnew]; [by left|].
        apply list_elem_of_singleton in Hnew as ->.
        apply orb_false_iff in Hrej as [Hs Hl].
        apply bool_decide_eq_false in Hs, Hl.
        right. exists s. split; [by left|done].
      * right. exists entry. split; [by right|done].
Qed.

Lemma validated_length self entry rc :
  (3 ≤ term_width self / 3)%Z → validated self entry rc →
  (len rc ≤ term_width self / 3)%Z.
Proof.
  intros Hb (-> & _ & _). unfold len.
  destruct (Z.ltb_spec (term_width self / 3) (Z.of_nat (length entry)));
    [|done].
  unfold slice_to, norm_index.
  rewrite length_app, length_take.
  destruct (Z.ltb_spec (term_width self / 3 - 3) 0); [lia|].
  change (length (py "...")) with 3. lia.
Qed.

(** ** Concept Graph *)

Lemma edges_add_node g n : edges (add_node g n) = edges g.
Proof. unfold add_node. by destruct (has_node g n). Qed.

Lemma edge_add_edge g u v x y :
  edge (add_edge g u v) x y ↔ edge g x y ∨ (x = u ∧ y = v).
Proof.
  unfold edge, add_edge. rewrite !edges_add_node.
  case_bool_decide as Hin; simpl; rewrite ?edges_add_node.
  - split; [by left|]. intros [?|[-> ->]]; done.
  - rewrite elem_of_app, list_elem_of_singleton. split.
    + intros [?|Heq]; [by left|right; by simplify_eq].
    + intros [?|[-> ->]]; [by left|by right].
Qed.

Lemma tc_source {A} (R : relation A) x y : tc R x y → ∃ z, R x z.
Proof. destruct 1; eauto. Qed.

(** A new edge into a node without outgoing edges closes no cycle. *)
Lemma acyclic_extend g g' u v :
  (∀ x y, edge g' x y ↔ edge g x y ∨ (x = u ∧ y = v)) →
  acyclic g → u ≠ v → (∀ y, ¬ edge g v y) → acyclic g'.
Proof.
  intros Hedge Hacyc Hne Hleaf.
  assert (Hpath : ∀ x y, tc (edge g') x y → tc (edge g) x y ∨ y = v).
  { induction 1 as [x y Hxy|x z y Hxz _ IH].
    - apply Hedge in Hxy as [?|[_ ->]]; [left; by apply tc_once|by right].
    - destruct IH as [Hzy| ->]; [|by right].
      apply Hedge in Hxz as [?|[_ ->]]; [left; by eapply tc_l|].
      destruct (tc_source _ _ _ Hzy) as [t Ht]. by destruct (Hleaf t). }
  intros n Hn. destruct (Hpath _ _ Hn) as [?| ->]; [by eapply Hacyc|].
  destruct (tc_source _ _ _ Hn) as [t Ht].
  apply Hedge in Ht as [?|[? _]]; [by eapply Hleaf|done].
Qed.

Lemma add_edge_acyclic g u v :
  acyclic g → u ≠ v → (∀ y, ¬ edge g v y) → acyclic (add_edge g u v).
Proof. apply acyclic_extend, edge_add_edge. Qed.

Section GatewayFacts.
Variable json_loads : str → option (list json).

Lemma parse_response_malformed self response :
  malformed json_loads response → parse_response json_loads self response = [].
Proof.
  unfold parse_response. fold (bracketed response).
  intros [->|[->|Hno]]; [done|by rewrite andb_false_r|].
  destruct (_ && _); [|done].
  destruct (bracketed response) as [|b bs] eqn:Hb; [done|].
  destruct (json_loads (b :: bs)) as [decoded|] eqn:Hdec; [|done].
  rewrite filter_concepts_raises; [done|].
  intros [items ->]. apply Hno. exists items. by rewrite Hb.
Qed.

Lemma parse_response_validated self response rc :
  rc ∈ parse_response json_loads self response →
  ∃ entry, validated self entry rc.
Proof.
  unfold parse_response.
  destruct (_ && _); [|by intros ?%elem_of_nil].
  destruct (slice _ _ _); [by intros ?%elem_of_nil|].
  destruct (json_loads _) as [decoded|]; [|by intros ?%elem_of_nil].
  destruct (filter_concepts self decoded []) as [out|] eqn:Hout;
    [|by intros ?%elem_of_nil].
  intros Hrc.
  destruct (filter_concepts_validated _ _ _ _ Hout rc Hrc)
    as [?%elem_of_nil|(entry & _ & ?)]; [done|by exists entry].
Qed.

(** The guard: a concept already dispatched, or a depth above 5, is
    answered with the empty list and nothing else happens. *)
Lemma get_related_concepts_guard self w concept depth path :
  concept ∈ seen_concepts self ∨ (5 < depth)%Z →
  get_related_concepts json_loads self w concept depth path = ([], self, w).
Proof.
  intros Hg. unfold get_related_concepts.
  destruct Hg as [Hs|Hd].
  - by rewrite bool_decide_eq_true_2.
  - rewrite (proj2 (Z.ltb_lt 5 depth)) by done. by rewrite orb_true_r.
Qed.

Lemma get_related_concepts_dispatch self w concept depth path :
  concept ∉ seen_concepts self → (depth ≤ 5)%Z →
  let reply := backend w (length (requests w)) in
  let answer := query_ollama (dispatched self concept) reply in
  get_related_concepts json_loads self w concept depth path
  = (parse_response json_loads answer.2 answer.1, answer.2,
     (send w (mkRequest concept depth (path ++ [concept]))).2).
Proof.
  intros Hs Hd. unfold get_related_concepts.
  rewrite bool_decide_eq_false_2 by done.
  rewrite (proj2 (Z.ltb_ge 5 depth)) by done. simpl.
  fold (dispatched self concept).
  by destruct (query_ollama _ _).
Qed.

Lemma get_related_concepts_frame self w concept depth path :
  let '(_, self', w') :=
    get_related_concepts json_loads self w concept depth path in
  graph self' = graph self
  ∧ seen_concepts self ⊆ seen_concepts self'
  ∧ seen_concepts self' ⊆ {[concept]} ∪ seen_concepts self
  ∧ term_width self' = term_width self.
Proof.
  destruct (decide (concept ∈ seen_concepts self ∨ (5 < depth)%Z))
    as [Hg|Hg].
  - rewrite get_related_concepts_guard by done. set_solver.
  - rewrite get_related_concepts_dispatch by (try lia; tauto).
    cbv zeta.
    destruct (query_ollama_frame (dispatched self concept)
                (backend w (length (requests w))))
      as (-> & -> & _ & _ & -> & _).
    simpl. set_solver.
Qed.

Lemma query_ollama_text self self' reply :
  model self = model self' →
  (query_ollama self reply).1 = (query_ollama self' reply).1.
Proof.
  intros Hm. unfold query_ollama, check_model_availability. rewrite Hm.
  destruct (bool_decide (available_models reply = [])); simpl; [done|].
  destruct (bool_decide (model self' ∈ available_models reply)); simpl.
  { by destruct (generated reply). }
  destruct (List.find _ _); simpl; [|done].
  by destruct (generated reply).
Qed.

(** The two ways a call can go. *)
Lemma get_related_concepts_cases self w concept depth path
    related self' w' :
  get_related_concepts json_loads self w concept depth path
  = (related, self', w') →
  (related = [] ∧ self' = self ∧ w' = w
   ∧ (concept ∈ seen_concepts self ∨ (5 < depth)%Z))
  ∨ ((concept ∉ seen_concepts self) ∧ (depth ≤ 5)%Z
     ∧ seen_concepts self' = {[concept]} ∪ seen_concepts self
     ∧ graph self' = graph self
     ∧ term_width self' = term_width self
     ∧ current_concept self' = Some concept
     ∧ requests w' = requests w ++ [mkRequest concept depth (path ++ [concept])]
     ∧ backend w' = backend w
     ∧ related
       = parse_response json_loads self'
           (query_ollama self (backend w (length (requests w)))).1).
Proof.
  destruct (decide (concept ∈ seen_concepts self ∨ (5 < depth)%Z))
    as [Hg|Hg].
  - rewrite get_related_concepts_guard by done.
    intros [= <- <- <-]. by left.
  - rewrite get_related_concepts_dispatch by (try lia; tauto).
    cbv zeta. intros [= <- <- <-]. right.
    destruct (query_ollama_frame (dispatched self concept)
                (backend w (length (requests w))))
      as (-> & -> & _ & -> & -> & _).
    rewrite (query_ollama_text self (dispatched self concept)) by done.
    repeat split; try done; [tauto|lia].
Qed.

Lemma get_related_concepts_fresh self w concept depth path rc :
  rc ∈ (get_related_concepts json_loads self w concept depth path).1.1 →
  let self' :=
    (get_related_concepts json_loads self w concept depth path).1.2 in
  concept ∈ seen_concepts self' ∧ (rc ∉ seen_concepts self')
  ∧ ∃ entry, validated self' entry rc.
Proof.
  destruct (get_related_concepts _ _ _ _ _ _) as [[related self'] w']
    eqn:Hcall.
  apply get_related_concepts_cases in Hcall
    as [(-> & _)|(_ & _ & Hseen & _ & _ & _ & _ & _ & ->)]; simpl.
  { by intros ?%elem_of_nil. }
  intros [entry Hv]%parse_response_validated.
  split; [set_solver|]. split; [|by exists entry].
  destruct Hv as (_ & _ & Hlow). intros Hin. apply Hlow.
  apply list_elem_of_fmap. exists rc. split; [done|].
  by apply elem_of_elements.
Qed.

(** A candidate comes from an entry of the decoded array. *)
Lemma parse_response_entry self response rc :
  rc ∈ parse_response json_loads self response →
  ∃ decoded entry,
    json_loads (bracketed response) = Some decoded
    ∧ JString entry ∈ decoded ∧ validated self entry rc.
Proof.
  unfold parse_response. fold (bracketed response).
  destruct (_ && _); [|by intros ?%elem_of_nil].
  destruct (bracketed response) as [|b bs] eqn:Hb;
    [by intros ?%elem_of_nil|].
  destruct (json_loads (b :: bs)) as [decoded|] eqn:Hdec;
    [|by intros ?%elem_of_nil].
  destruct (filter_concepts self decoded []) as [out|] eqn:Hout;
    [|by intros ?%elem_of_nil].
  intros Hrc.
  destruct (filter_concepts_validated _ _ _ _ Hout rc Hrc)
    as [?%elem_of_nil|(entry & ? & ?)]; [done|].
  by exists decoded, entry.
Qed.

(** C6 (amended): when the width budget [term_width // 3] is at least 3,
    every candidate the gateway returns is non-empty after stripping, is
    not equal, ignoring case, to any concept seen at call time nor to the
    concept asked about, and is no longer than the budget.  It comes from
    an entry of the array decoded from the response: it is that entry, or,
    when the entry was longer than the budget, its first budget minus 3
    characters followed by ["..."], which is exactly as long as the
    budget. *)
Theorem candidates_validated self w concept depth path rc :
  let budget := (term_width self / 3)%Z in
  let response := (query_ollama self (backend w (length (requests w)))).1 in
  (3 ≤ budget)%Z →
  rc ∈ (get_related_concepts json_loads self w concept depth path).1.1 →
  strip rc ≠ []
  ∧ (∀ c, c ∈ seen_concepts self → lower rc ≠ lower c)
  ∧ lower rc ≠ lower concept
  ∧ (len rc ≤ budget)%Z
  ∧ ∃ decoded entry,
      json_loads (bracketed response) = Some decoded
      ∧ JString entry ∈ decoded
      ∧ if (budget <? len entry)%Z
        then rc = take (Z.to_nat (budget - 3)) entry ++ py "..."
             ∧ len rc = budget
        else rc = entry.
Proof.
  cbv zeta. intros Hb Hrc.
  destruct (get_related_concepts _ _ _ _ _ _) as [[related self'] w']
    eqn:Hcall.
  cbn [fst snd] in Hrc.
  apply get_related_concepts_cases in Hcall
    as [(-> & _)|(_ & _ & Hseen & _ & Hw & _ & _ & _ & ->)].
  { by apply elem_of_nil in Hrc. }
  apply parse_response_entry in Hrc as (decoded & entry & Hdec & Hin & Hv).
  pose proof (validated_length self' entry rc) as Hlen.
  rewrite Hw in Hlen. specialize (Hlen Hb Hv).
  destruct Hv as (Hcut & Hstrip & Hlow). rewrite Hw in Hcut.
  assert (Hfresh : ∀ c, c ∈ seen_concepts self' → lower rc ≠ lower c).
  { intros c Hc Heq. apply Hlow. apply list_elem_of_fmap. exists c.
    split; [done|]. by apply elem_of_elements. }
  split; [done|]. split.
  { intros c Hc. apply Hfresh. rewrite Hseen. set_solver. }
  split.
  { apply Hfresh. rewrite Hseen. set_solver. }
  split; [done|].
  exists decoded, entry. split; [done|]. split; [done|].
  destruct (Z.ltb_spec (term_width self / 3) (len entry)) as [Hlong|];
    [|done].
  assert (Heq : rc = take (Z.to_nat (term_width self / 3 - 3)) entry
                     ++ py "...").
  { rewrite Hcut. f_equal. unfold slice_to, norm_index, len in *.
    destruct (Z.ltb_spec (term_width self / 3 - 3) 0); [lia|].
    f_equal. lia. }
  split; [done|]. rewrite Heq. unfold len in *.
  rewrite length_app, length_take. change (length (py "...")) with 3. lia.
Qed.

Lemma refresh_eq self w focus_node max_display_depth :
  refresh self w focus_node max_display_depth
  = (set_terminal self (terminal_sizes w (size_queries w)),
     (get_terminal_size w).2).
Proof. done. Qed.

Section LoopFacts.
Variables (max_depth : Z) (diversity_bias : Q).

Lemma step_cases c :
  finished c = false →
  (∃ rel_concept rest,
      pending c = rel_concept :: rest
      ∧ step json_loads max_depth diversity_bias c
        = add_related max_depth c rel_concept rest)
  ∨ (∃ concept depth path rest,
        pending c = [] ∧ queue c = (concept, depth, path) :: rest
        ∧ step json_loads max_depth diversity_bias c
          = expand json_loads max_depth diversity_bias c
                   concept depth path rest)
  ∨ (pending c = [] ∧ queue c = []
     ∧ step json_loads max_depth diversity_bias c = finish c).
Proof.
  intros Hf. unfold step. rewrite Hf.
  destruct (pending c) as [|rel_concept rest]; [|left; eauto].
  right. destruct (queue c) as [|[[concept depth] path] rest].
  - by right.
  - left. by exists concept, depth, path, rest.
Qed.

Lemma add_related_effect c rel_concept rest :
  let c' := add_related max_depth c rel_concept rest in
  let '(concept, depth, path) := expanding c in
  seen_concepts (explorer c') = seen_concepts (explorer c)
  ∧ requests (world c') = requests (world c)
  ∧ backend (world c') = backend (world c)
  ∧ pending c' = rest
  ∧ expanding c' = expanding c
  ∧ finished c' = false
  ∧ queue c' = queue c ++ [(rel_concept, (depth + 1)%Z, path ++ [concept])]
  ∧ graph (explorer c')
    = add_edge (if has_node (graph (explorer c)) rel_concept
                then graph (explorer c)
                else add_node (graph (explorer c)) rel_concept)
               concept rel_concept.
Proof.
  unfold add_related. destruct (expanding c) as [[concept depth] path].
  rewrite refresh_eq. simpl.
  by destruct (has_node (graph (explorer c)) rel_concept).
Qed.

Lemma finish_effect c :
  let c' := finish c in
  seen_concepts (explorer c') = seen_concepts (explorer c)
  ∧ graph (explorer c') = graph (explorer c)
  ∧ requests (world c') = requests (world c)
  ∧ pending c' = [] ∧ queue c' = [].
Proof. unfold finish. by rewrite refresh_eq. Qed.

(** The head of an iteration: either the entry is skipped for its
    depth, or the gateway is called on the refreshed explorer and its
    candidates, possibly reordered, become the pending list. *)
Lemma expand_effect c concept depth path rest :
  let c' := expand json_loads max_depth diversity_bias c
                   concept depth path rest in
  queue c' = rest ∧ expanding c' = (concept, depth, path)
  ∧ finished c' = false
  ∧ (((max_depth ≤ depth)%Z ∧ explorer c' = explorer c
      ∧ world c' = world c ∧ pending c' = [])
     ∨ ((depth < max_depth)%Z
        ∧ ∃ self w related w',
            graph self = graph (explorer c)
            ∧ seen_concepts self = seen_concepts (explorer c)
            ∧ model self = model (explorer c)
            ∧ requests w = requests (world c)
            ∧ backend w = backend (world c)
            ∧ get_related_concepts json_loads self w concept depth path
              = (related, explorer c', w')
            ∧ requests (world c') = requests w'
            ∧ backend (world c') = backend w'
            ∧ pending c' ≡ₚ related)).
Proof.
  unfold expand.
  destruct (Z.leb_spec max_depth depth) as [Hd|Hd].
  { simpl. repeat split; try done. left. done. }
  rewrite refresh_eq.
  destruct (get_related_concepts _ _ _ _ _ _) as [[related self'] w']
    eqn:Hcall.
  pose proof (apply_diversity_bias_perm diversity_bias self' w' related)
    as Hperm.
  assert (Hw : requests (apply_diversity_bias diversity_bias self' w'
                           related).2 = requests w'
               ∧ backend (apply_diversity_bias diversity_bias self' w'
                            related).2 = backend w').
  { unfold apply_diversity_bias.
    destruct (Qltb 0 diversity_bias && _); [|done]. simpl.
    by destruct (Qltb _ _). }
  destruct (apply_diversity_bias _ _ _ _) as [related' w''].
  simpl in *. repeat split; try done. right. split; [done|].
  exists (set_terminal (explorer c)
            (terminal_sizes (world c) (size_queries (world c)))),
         (get_terminal_size (world c)).2, related, w'.
  repeat split; try done; apply Hw.
Qed.

Lemma run_invariant (P : Config → Prop) :
  (∀ c, P c → P (step json_loads max_depth diversity_bias c)) →
  ∀ n c, P c → P (run json_loads max_depth diversity_bias n c).
Proof.
  intros Hstep. induction n as [|n IH]; intros c Hc; [done|].
  simpl. by apply IH, Hstep.
Qed.

Lemma requests_inv_step c :
  requests_inv max_depth c →
  requests_inv max_depth (step json_loads max_depth diversity_bias c).
Proof.
  intros [Hnd Hreq]. unfold requests_inv, dispatched_concepts in *.
  destruct (finished c) eqn:Hfin.
  { unfold step. by rewrite Hfin. }
  destruct (step_cases c Hfin)
    as [(rel & rest & _ & ->)
       |[(concept & depth & path & rest & _ & _ & ->)|(_ & _ & ->)]].
  - pose proof (add_related_effect c rel rest) as He.
    destruct (expanding c) as [[concept depth] path].
    destruct He as (-> & -> & _). done.
  - destruct (expand_effect c concept depth path rest)
      as (_ & _ & _ & [(_ & -> & -> & _)
                      |(Hd & self & w & related & w' & _ & Hs & _ & Hw
                        & _ & Hcall & -> & _)]); [done|].
    apply get_related_concepts_cases in Hcall
      as [(_ & -> & -> & _)
         |(Hnew & Hd5 & -> & _ & _ & _ & -> & _)].
    + by rewrite Hs, Hw.
    + rewrite Hs, Hw in *. split.
      * rewrite fmap_app. apply NoDup_app. split; [done|]. split.
        { intros x Hx ?%list_elem_of_singleton. simplify_eq/=.
          apply list_elem_of_fmap in Hx as (r & -> & Hr).
          by destruct (Hreq r Hr). }
        apply NoDup_singleton.
      * intros r [Hr| ->%list_elem_of_singleton]%elem_of_app.
        { destruct (Hreq r Hr) as (? & ? & ?). set_solver. }
        simpl. split; [set_solver|done].
  - destruct (finish_effect c) as (-> & _ & -> & _). done.
Qed.

Lemma graph_inv_step c :
  graph_inv c → graph_inv (step json_loads max_depth diversity_bias c).
Proof.
  intros (Hacyc & Hsrc & Hpend). unfold graph_inv in *.
  destruct (finished c) eqn:Hfin.
  { unfold step. by rewrite Hfin. }
  destruct (step_cases c Hfin)
    as [(rel & rest & Hp & ->)
       |[(concept & depth & path & rest & Hp & _ & ->)|(_ & _ & ->)]].
  - pose proof (add_related_effect c rel rest) as He.
    destruct (expanding c) as [[concept depth] path] eqn:Hexp.
    destruct He as (Hs & _ & _ & Hp' & Hexp' & _ & _ & Hg).
    rewrite Hs, Hp', Hexp', Hg. simpl in *.
    destruct (Hpend rel) as [Hc Hrel]; [rewrite Hp; by left|].
    assert (Hedges : ∀ x y,
      edge (add_edge (if has_node (graph (explorer c)) rel
                      then graph (explorer c)
                      else add_node (graph (explorer c)) rel)
                     concept rel) x y
      ↔ edge (graph (explorer c)) x y ∨ (x = concept ∧ y = rel)).
    { intros x y. rewrite edge_add_edge. unfold edge.
      destruct (has_node _ _); by rewrite ?edges_add_node. }
    split; [|split].
    + eapply acyclic_extend; [exact Hedges|done| |].
      * by intros ->.
      * intros y Hy. by apply Hrel, (Hsrc rel y).
    + intros u v [?|[-> _]]%Hedges; [by eapply Hsrc|done].
    + intros rc Hrc. apply Hpend. rewrite Hp. by right.
  - destruct (expand_effect c concept depth path rest)
      as (_ & -> & _ & [(_ & -> & _ & ->)
                       |(_ & self & w & related & w' & Hg & Hs & _ & _
                         & _ & Hcall & _ & _ & Hperm)]).
    { split; [done|]. split; [done|]. by intros rc ?%elem_of_nil. }
    pose proof (get_related_concepts_frame self w concept depth path)
      as Hframe.
    pose proof (λ rc, get_related_concepts_fresh self w concept depth
                        path rc) as Hfresh.
    rewrite Hcall in Hframe, Hfresh. simpl in *.
    destruct Hframe as (-> & Hsub & _). rewrite Hg.
    split; [done|]. split.
    + intros u v Huv. apply Hsub. rewrite Hs. by eapply Hsrc.
    + intros rc Hrc. rewrite Hperm in Hrc.
      destruct (Hfresh rc Hrc) as (? & ? & _). done.
  - destruct (finish_effect c) as (-> & -> & _ & -> & _).
    split; [done|]. split; [done|]. by intros rc ?%elem_of_nil.
Qed.

(** How a program run starts. *)
Lemma explore_start model root_concept w :
  ∃ c, (∀ n, explore json_loads model root_concept max_depth
               diversity_bias w n
             = run json_loads max_depth diversity_bias n c)
       ∧ edges (graph (explorer c)) = []
       ∧ seen_concepts (explorer c) = ∅
       ∧ requests (world c) = requests w
       ∧ pending c = [] ∧ finished c = false.
Proof.
  unfold explore, new_explorer, build_concept_web.
  eexists. split; [intros n; reflexivity|]. simpl. done.
Qed.

Lemma seen_concepts_step c :
  seen_concepts (explorer c)
  ⊆ seen_concepts (explorer (step json_loads max_depth diversity_bias c)).
Proof.
  destruct (finished c) eqn:Hfin.
  { unfold step. by rewrite Hfin. }
  destruct (step_cases c Hfin)
    as [(rel & rest & _ & ->)
       |[(concept & depth & path & rest & _ & _ & ->)|(_ & _ & ->)]].
  - pose proof (add_related_effect c rel rest) as He.
    destruct (expanding c) as [[concept depth] path].
    destruct He as (-> & _). done.
  - destruct (expand_effect c concept depth path rest)
      as (_ & _ & _ & [(_ & -> & _)
                      |(_ & self & w & related & w' & _ & Hs & _ & _ & _
                        & Hcall & _)]); [done|].
    pose proof (get_related_concepts_frame self w concept depth path)
      as Hframe.
    rewrite Hcall in Hframe. rewrite <- Hs. apply Hframe.
  - destruct (finish_effect c) as (-> & _). done.
Qed.

Lemma seen_concepts_run n c :
  seen_concepts (explorer c)
  ⊆ seen_concepts (explorer (run json_loads max_depth diversity_bias n c)).
Proof.
  revert c. induction n as [|n IH]; intros c; [done|]. simpl.
  etrans; [apply seen_concepts_step|apply IH].
Qed.

(** C4: in a program run, whatever the backend, the random generator and
    the terminal do and whatever [max_depth] is, after any number of steps
    no concept has been sent to the backend twice, and every request was
    sent at a depth of at most 5 (and below [max_depth]). *)
Theorem expansions_unique_and_shallow (model root_concept : str)
    (backend : nat → backend_reply) (random_values : nat → Q)
    (terminal_sizes : nat → Z * Z) (n : nat) :
  let c := explore json_loads model root_concept max_depth diversity_bias
                   (new_world backend random_values terminal_sizes) n in
  NoDup (dispatched_concepts (world c))
  ∧ ∀ r, r ∈ requests (world c) →
      (req_depth r ≤ 5)%Z ∧ (req_depth r < max_depth)%Z.
Proof.
  destruct (explore_start model root_concept
              (new_world backend random_values terminal_sizes))
    as (c0 & Hrun & _ & _ & Hreq & _).
  cbv zeta. rewrite Hrun.
  assert (Hinv : requests_inv max_depth
                   (run json_loads max_depth diversity_bias n c0)).
  { apply run_invariant; [apply requests_inv_step|].
    unfold requests_inv, dispatched_concepts. rewrite Hreq. simpl.
    split; [constructor|]. by intros r ?%elem_of_nil. }
  destruct Hinv as [Hnd Hall]. split; [done|].
  intros r Hr. by destruct (Hall r Hr) as (_ & ? & ?).
Qed.

(** C9: in a program run the concept graph has no directed cycle after
    any number of steps; every edge leaves a concept of the seen set, and
    the candidates still to be linked to the concept being expanded are
    outside the seen set, so the edge added next closes no cycle. *)
Theorem explored_graph_acyclic (model root_concept : str) (w : World)
    (n : nat) :
  let c := explore json_loads model root_concept max_depth diversity_bias
                   w n in
  acyclic (graph (explorer c))
  ∧ (∀ u v, edge (graph (explorer c)) u v → u ∈ seen_concepts (explorer c))
  ∧ (∀ rc, rc ∈ pending c →
       (rc ∉ seen_concepts (explorer c))
       ∧ acyclic (add_edge (graph (explorer c)) (expanding c).1.1 rc)).
Proof.
  destruct (explore_start model root_concept w)
    as (c0 & Hrun & Hedges & _ & _ & Hpend & _).
  cbv zeta. rewrite Hrun.
  assert (Hinv : graph_inv (run json_loads max_depth diversity_bias n c0)).
  { apply run_invariant; [apply graph_inv_step|].
    split; [|split].
    - intros x Hx. destruct (tc_source _ _ _ Hx) as [y Hy].
      unfold edge in Hy. rewrite Hedges in Hy. by apply elem_of_nil in Hy.
    - intros u v Huv. unfold edge in Huv. rewrite Hedges in Huv.
      by apply elem_of_nil in Huv.
    - rewrite Hpend. by intros rc ?%elem_of_nil. }
  destruct Hinv as (Hacyc & Hsrc & Hp). split; [done|]. split; [done|].
  intros rc Hrc. destruct (Hp rc Hrc) as [Hc Hrc']. split; [done|].
  apply add_edge_acyclic; [done| |].
  - intros Heq. apply Hrc'. by rewrite <- Heq.
  - intros y Hy. by apply Hrc', (Hsrc rc y).
Qed.

(** C5: a response without a bracket pair, or whose bracketed text does
    not decode to an array of strings, makes the gateway return the empty
    list; the loop iteration that receives it leaves the graph as it was
    and puts nothing into the queue. *)
Theorem malformed_response_adds_nothing :
  (∀ self w concept depth path,
     malformed json_loads
       (query_ollama self (backend w (length (requests w)))).1 →
     (get_related_concepts json_loads self w concept depth path).1.1 = [])
  ∧ (∀ c concept depth path rest,
       finished c = false → pending c = [] →
       queue c = (concept, depth, path) :: rest →
       malformed json_loads
         (query_ollama (explorer c)
            (backend (world c) (length (requests (world c))))).1 →
       let c' := step json_loads max_depth diversity_bias c in
       graph (explorer c') = graph (explorer c)
       ∧ queue c' = rest ∧ pending c' = []).
Proof.
  split.
  - intros self w concept depth path Hmal.
    destruct (get_related_concepts _ _ _ _ _ _) as [[related self'] w']
      eqn:Hcall.
    apply get_related_concepts_cases in Hcall
      as [(-> & _)|(_ & _ & _ & _ & _ & _ & _ & _ & ->)]; [done|].
    simpl. by apply parse_response_malformed.
  - intros c concept depth path rest Hfin Hp Hq Hmal. cbv zeta.
    unfold step. rewrite Hfin, Hp, Hq.
    destruct (expand_effect c concept depth path rest)
      as (-> & _ & _ & [(_ & -> & _ & ->)
                       |(_ & self & w & related & w' & Hg & _ & Hm & Hr & Hb
                         & Hcall & _ & _ & Hperm)]); [done|].
    apply get_related_concepts_cases in Hcall
      as [(-> & -> & _)|(_ & _ & _ & -> & _ & _ & _ & _ & ->)].
    + by apply Permutation_nil_r in Hperm as ->.
    + rewrite Hb, Hr, (query_ollama_text self (explorer c)) in Hperm
        by done.
      rewrite parse_response_malformed in Hperm by done.
      by apply Permutation_nil_r in Hperm as ->.
Qed.

(** A backend that is unavailable, or whose generation request fails,
    is read as the text ["[]"]. *)
Lemma query_ollama_failure self reply :
  available_models reply = [] ∨ generated reply = None →
  (query_ollama self reply).1 = py "[]".
Proof.
  unfold query_ollama, check_model_availability.
  intros [-> | ->]; [done|].
  destruct (bool_decide (available_models reply = [])); [done|].
  destruct (bool_decide (model self ∈ available_models reply)); [done|].
  by destruct (List.find _ _).
Qed.

(** C10: a concept that passes the guard is in the seen set, and is the
    current concept, in the state in which the backend is called and when
    the call returns, whatever the backend answers; one request is sent.
    From then on a call for that concept returns the empty list and
    leaves explorer and world untouched, in any later state of a run. *)
Theorem dispatched_concept_not_retried self w concept depth path :
  concept ∉ seen_concepts self → (depth ≤ 5)%Z →
  let reply := backend w (length (requests w)) in
  let call := get_related_concepts json_loads self w concept depth path in
  concept ∈ seen_concepts (dispatched self concept)
  ∧ current_concept (dispatched self concept) = Some concept
  ∧ call.1 = (parse_response json_loads
                (query_ollama (dispatched self concept) reply).2
                (query_ollama (dispatched self concept) reply).1,
              (query_ollama (dispatched self concept) reply).2)
  ∧ concept ∈ seen_concepts call.1.2
  ∧ current_concept call.1.2 = Some concept
  ∧ requests call.2
    = requests w ++ [mkRequest concept depth (path ++ [concept])]
  ∧ (∀ self2 w2 depth2 path2,
       concept ∈ seen_concepts self2 →
       get_related_concepts json_loads self2 w2 concept depth2 path2
       = ([], self2, w2))
  ∧ (∀ c n,
       seen_concepts call.1.2 ⊆ seen_concepts (explorer c) →
       let c' := run json_loads max_depth diversity_bias n c in
       ∀ depth2 path2,
         get_related_concepts json_loads (explorer c') (world c') concept
                              depth2 path2
         = ([], explorer c', world c')).
Proof.
  intros Hnew Hd. cbv zeta.
  rewrite get_related_concepts_dispatch by done. cbv zeta. simpl.
  destruct (query_ollama_frame (dispatched self concept)
              (backend w (length (requests w))))
    as (_ & Hs & _ & Hc & _).
  cbv zeta in Hs, Hc. rewrite Hs, Hc. simpl.
  split; [set_solver|]. split; [done|]. split; [done|].
  split; [set_solver|]. split; [done|]. split; [done|]. split.
  - intros self2 w2 depth2 path2 Hin.
    apply get_related_concepts_guard. by left.
  - intros c n Hsub depth2 path2. apply get_related_concepts_guard. left.
    apply seen_concepts_run, Hsub. set_solver.
Qed.

End LoopFacts.

End GatewayFacts.

(** ** Sample runs of the gateway and of the loop *)

Lemma malformed_response_adds_nothing_witness :
  let c := build_concept_web wide_explorer prose_world (py "sun") in
  (get_related_concepts (decoder_of []) wide_explorer prose_world
                        (py "sun") 0 []).1.1 = []
  ∧ graph (explorer (step (decoder_of []) 3 (4 # 5) c)) = graph (explorer c)
  ∧ queue (step (decoder_of []) 3 (4 # 5) c) = []
  ∧ pending (step (decoder_of []) 3 (4 # 5) c) = [].
Proof.
  destruct (malformed_response_adds_nothing (decoder_of []) 3 (4 # 5))
    as [Hgateway Hloop].
  split.
  - apply Hgateway. left. vm_compute. reflexivity.
  - apply (Hloop _ (py "sun") 0%Z [] []); try reflexivity.
    left. vm_compute. reflexivity.
Defined.

Lemma candidates_validated_witness :
  let items := [py "moon light"; py "a very long name for one single concept";
                py "  "; py "SUN"; utf8 "λόγος"; py "Tide"] in
  let self := moon_explorer in
  let w := answering items in
  let rc := py "a very long name for on..." in
  (get_related_concepts (decoder_of [items]) self w (py "sun") 0 []).1.1
  = [rc; py "Tide"]
  ∧ strip rc ≠ []
  ∧ (∀ c, c ∈ seen_concepts self → lower rc ≠ lower c)
  ∧ lower rc ≠ lower (py "sun")
  ∧ (len rc ≤ 26)%Z
  ∧ ∃ decoded entry,
      decoder_of [items]
        (bracketed (query_ollama self (backend w (length (requests w)))).1)
      = Some decoded
      ∧ JString entry ∈ decoded
      ∧ if (26 <? len entry)%Z
        then rc = take (Z.to_nat (26 - 3)) entry ++ py "..." ∧ len rc = 26%Z
        else rc = entry.
Proof.
  cbv zeta.
  assert (Hrun :
    (get_related_concepts
       (decoder_of [[py "moon light";
                     py "a very long name for one single concept";
                     py "  "; py "SUN"; utf8 "λόγος"; py "Tide"]])
       moon_explorer
       (answering [py "moon light";
                   py "a very long name for one single concept";
                   py "  "; py "SUN"; utf8 "λόγος"; py "Tide"])
       (py "sun") 0 []).1.1
    = [py "a very long name for on..."; py "Tide"])
    by (vm_compute; reflexivity).
  split; [exact Hrun|].
  apply (candidates_validated
           (decoder_of [[py "moon light";
                         py "a very long name for one single concept";
                         py "  "; py "SUN"; utf8 "λόγος"; py "Tide"]])
           moon_explorer
           (answering [py "moon light";
                       py "a very long name for one single concept";
                       py "  "; py "SUN"; utf8 "λόγος"; py "Tide"])
           (py "sun") 0%Z []).
  - vm_compute. discriminate.
  - rewrite Hrun. left.
Defined.

(** C6, as stated, fails on a terminal six columns wide: the budget is 2,
    the entry ["abcdefgh"] is cut at index -1 and comes back as
    ["abcdefg..."], ten characters long. *)
Lemma narrow_terminal_candidate_too_long :
  (get_related_concepts (decoder_of [[py "abcdefgh"]]) narrow_explorer
                        (answering [py "abcdefgh"]) (py "sun") 0 []).1.1
  = [py "abcdefg..."]
  ∧ ¬ ∀ rc,
        rc ∈ (get_related_concepts (decoder_of [[py "abcdefgh"]])
                narrow_explorer (answering [py "abcdefgh"])
                (py "sun") 0 []).1.1 →
        (len rc ≤ term_width narrow_explorer / 3)%Z.
Proof.
  split; [vm_compute; reflexivity|].
  intros Hall.
  assert (Hle : (len (py "abcdefg...") ≤ term_width narrow_explorer / 3)%Z).
  { apply Hall. vm_compute. left. }
  vm_compute in Hle. by apply Hle.
Qed.

Lemma dispatched_concept_not_retried_witness :
  (py "sun" ∉ seen_concepts wide_explorer) ∧ (0 ≤ 5)%Z
  ∧ py "sun" ∈ seen_concepts
                 (get_related_concepts (decoder_of [[]]) wide_explorer
                    half_world (py "sun") 0 []).1.2
  ∧ ∀ self2 w2 depth2 path2,
      py "sun" ∈ seen_concepts self2 →
      get_related_concepts (decoder_of [[]]) self2 w2 (py "sun") depth2 path2
      = ([], self2, w2).
Proof.
  assert (Hnew : py "sun" ∉ seen_concepts wide_explorer) by set_solver.
  assert (Hd : (0 ≤ 5)%Z) by lia.
  split; [done|]. split; [done|].
  destruct (dispatched_concept_not_retried (decoder_of [[]]) 3 (4 # 5)
              wide_explorer half_world (py "sun") 0%Z [] Hnew Hd)
    as (_ & _ & _ & Hseen & _ & _ & Hagain & _).
  split; [exact Hseen|exact Hagain].
Defined.

(** A run against [chain_world] with [max_depth] 300: the concepts form a
    chain, requests are sent at the depths 0 to 5 and none at depth 6. *)
Example chain_run_depths :
  let c := explore chain_decoder (py "llama3") (py "root") 300 (4 # 5)
                   chain_world 20 in
  req_depth <$> requests (world c) = [0; 1; 2; 3; 4; 5]%Z
  ∧ dispatched_concepts (world c)
    = py "root" :: (numbered <$> seq 0 5)
  ∧ length (nodes (graph (explorer c))) = 7
  ∧ finished c = true.
Proof. vm_compute. auto. Qed.

(** ** Recursion on the graph ends *)

(** Along a branch the labels not yet visited get fewer. *)
Lemma unvisited_decreases (g : DiGraph) (node : str) (visited : gset str) :
  successors g node ≠ [] → node ∉ visited →
  size (labels g ∖ ({[node]} ∪ visited)) < size (labels g ∖ visited).
Proof.
  intros Hsucc Hnew. apply subset_size.
  assert (Hin : node ∈ labels g).
  { unfold successors in Hsucc.
    destruct (List.filter _ (edges g)) as [|e l] eqn:Hf; [done|].
    assert (He : e ∈ List.filter (λ e, bool_decide (e.1 = node)) (edges g))
      by (rewrite Hf; left).
    apply list_elem_of_In, filter_In in He as [He Hn].
    apply bool_decide_eq_true in Hn. apply list_elem_of_In in He.
    unfold labels. apply elem_of_union_l, elem_of_union_r.
    apply elem_of_list_to_set, list_elem_of_fmap. by exists e. }
  split; [set_solver|].
  intros Hsub. assert (Hn : node ∈ labels g ∖ ({[node]} ∪ visited)).
  { apply Hsub. by apply elem_of_difference. }
  set_solver.
Qed.

(** ** Plain Exporter *)

Lemma plain_children_total emit total i children result :
  (∀ child is_last, is_Some (emit child is_last)) →
  is_Some (plain_children emit total i children result).
Proof.
  intros Hemit. revert i result.
  induction children as [|child rest IH]; intros i result; simpl; [done|].
  destruct (Hemit child (i =? total - 1)%nat) as [t ->]. simpl. apply IH.
Qed.

Lemma plain_children_mono emit1 emit2 total i children result r :
  (∀ child is_last t, emit1 child is_last = Some t →
                      emit2 child is_last = Some t) →
  plain_children emit1 total i children result = Some r →
  plain_children emit2 total i children result = Some r.
Proof.
  intros Hemit. revert i result.
  induction children as [|child rest IH]; intros i result; simpl; [done|].
  destruct (emit1 child _) as [t|] eqn:Ht; [|done].
  rewrite (Hemit _ _ _ Ht). simpl. apply IH.
Qed.

Lemma plain_fuel_total g fuel node prefix is_last visited :
  size (labels g ∖ visited) < fuel →
  is_Some (_plain_ascii_tree_fuel fuel g node prefix is_last visited).
Proof.
  revert node prefix is_last visited.
  induction fuel as [|fuel IH]; intros node prefix is_last visited Hfuel;
    [lia|].
  simpl. case_bool_decide as Hvis; [done|].
  case_bool_decide as Hsucc; [done|].
  apply plain_children_total. intros child is_last_child. apply IH.
  pose proof (unvisited_decreases g node visited Hsucc Hvis). lia.
Qed.

Lemma plain_fuel_mono g fuel fuel' node prefix is_last visited t :
  fuel ≤ fuel' →
  _plain_ascii_tree_fuel fuel g node prefix is_last visited = Some t →
  _plain_ascii_tree_fuel fuel' g node prefix is_last visited = Some t.
Proof.
  revert fuel' node prefix is_last visited t.
  induction fuel as [|fuel IH];
    intros fuel' node prefix is_last visited t Hle; [done|].
  destruct fuel' as [|fuel']; [lia|]. simpl.
  case_bool_decide; [done|]. case_bool_decide; [done|].
  apply plain_children_mono. intros child is_last_child t'.
  apply IH. lia.
Qed.

(** The export of a node is defined, and any fuel that yields a text
    yields the same one. *)
Lemma plain_ascii_tree_total g node : is_Some (_plain_ascii_tree g node).
Proof.
  apply plain_fuel_total. unfold tree_fuel.
  assert (size (labels g ∖ ∅) ≤ size (labels g))
    by (apply subseteq_size; set_solver).
  lia.
Qed.

Lemma plain_ascii_tree_fuel g fuel node t :
  _plain_ascii_tree_fuel fuel g node [] true ∅ = Some t →
  _plain_ascii_tree g node = Some t.
Proof.
  intros Hfuel. destruct (plain_ascii_tree_total g node) as [t' Ht'].
  rewrite Ht'. unfold _plain_ascii_tree in Ht'.
  destruct (Nat.le_ge_cases fuel (tree_fuel g)) as [Hle|Hle].
  - rewrite (plain_fuel_mono _ _ _ _ _ _ _ _ Hle Hfuel) in Ht'. done.
  - rewrite (plain_fuel_mono _ _ _ _ _ _ _ _ Hle Ht') in Hfuel. done.
Qed.

Lemma chain_graph a b c :
  a ≠ b → b ≠ c → a ≠ c →
  chain a b c = mkDiGraph [a; b; c] [(a, b); (b, c)].
Proof.
  intros Hab Hbc Hac.
  unfold chain, add_edge, add_node, has_node, empty_graph.
  cbn [nodes edges].
  rewrite (bool_decide_eq_false_2 (a ∈ [])) by set_solver.
  cbn [nodes edges app].
  rewrite (bool_decide_eq_true_2 (a ∈ [a])) by set_solver.
  cbn [nodes edges app].
  rewrite (bool_decide_eq_false_2 (b ∈ [a])) by set_solver.
  cbn [nodes edges app].
  rewrite (bool_decide_eq_false_2 ((a, b) ∈ [])) by set_solver.
  cbn [nodes edges app].
  rewrite (bool_decide_eq_true_2 (b ∈ [a; b])) by set_solver.
  cbn [nodes edges app].
  rewrite (bool_decide_eq_false_2 (c ∈ [a; b])) by set_solver.
  cbn [nodes edges app].
  rewrite (bool_decide_eq_false_2 ((b, c) ∈ [(a, b)])) by set_solver.
  done.
Qed.

Lemma chain_successors a b c :
  a ≠ b → b ≠ c → a ≠ c →
  successors (chain a b c) a = [b] ∧ successors (chain a b c) b = [c]
  ∧ successors (chain a b c) c = [] ∧ roots (chain a b c) = [a].
Proof.
  intros Hab Hbc Hac. rewrite chain_graph by done.
  unfold roots, in_degree, predecessors, successors.
  cbn [nodes edges List.filter fst snd].
  rewrite (bool_decide_eq_true_2 (a = a)) by done.
  rewrite (bool_decide_eq_true_2 (b = b)) by done.
  rewrite (bool_decide_eq_true_2 (c = c)) by done.
  rewrite (bool_decide_eq_false_2 (b = a)) by congruence.
  rewrite (bool_decide_eq_false_2 (a = b)) by congruence.
  rewrite (bool_decide_eq_false_2 (a = c)) by congruence.
  rewrite (bool_decide_eq_false_2 (b = c)) by congruence.
  rewrite (bool_decide_eq_false_2 (c = a)) by congruence.
  rewrite (bool_decide_eq_false_2 (c = b)) by congruence.
  done.
Qed.

(** ** Counting lines *)

Lemma count_newlines_app s t :
  count_newlines (s ++ t) = (count_newlines s + count_newlines t)%Z.
Proof.
  unfold count_newlines. rewrite List.filter_app, length_app. lia.
Qed.

Lemma count_newlines_cons c s :
  count_newlines (c :: s)
  = ((if (NEWLINE =? c)%N then 1 else 0) + count_newlines s)%Z.
Proof.
  unfold count_newlines. cbn [List.filter].
  destruct (NEWLINE =? c)%N; cbn [length]; lia.
Qed.

Lemma count_newlines_nonneg s : (0 ≤ count_newlines s)%Z.
Proof. unfold count_newlines. lia. Qed.

Lemma count_newlines_one_line s : one_line s → count_newlines s = 0%Z.
Proof.
  unfold one_line. induction s as [|c s IH]; intros Hs; [done|].
  rewrite count_newlines_cons.
  destruct (N.eqb_spec NEWLINE c) as [<-|_]; [set_solver|].
  rewrite IH; [done|set_solver].
Qed.

Lemma one_line_app s t : one_line s → one_line t → one_line (s ++ t).
Proof. unfold one_line. set_solver. Qed.

Lemma one_line_nil : one_line [].
Proof. unfold one_line. set_solver. Qed.

Lemma one_line_indent is_last : one_line (indent is_last).
Proof. unfold one_line. destruct is_last; compute_done. Qed.

Lemma one_line_connector is_last : one_line (connector is_last).
Proof. unfold one_line. destruct is_last; compute_done. Qed.

Lemma count_newlines_plain_line prefix is_last label :
  one_line prefix → one_line label →
  count_newlines (plain_line prefix is_last label) = 1%Z.
Proof.
  intros Hp Hl. unfold plain_line. rewrite !count_newlines_app.
  rewrite (count_newlines_one_line prefix), (count_newlines_one_line label)
    by done.
  by destruct is_last.
Qed.

(** C7: the plain export of the chain [a] -> [b] -> [c] is the three
    lines ["└── a"], ["    └── b"] and ["        └── c"]: one per label in
    this order, each behind its branch prefix, the last one the most
    indented, and none with the cycle marker; this does not depend on the
    size of the terminal.  A node met again on the path from the root is
    written once more, followed by [" (...)"], and not descended into,
    while a node reached along two branches is written in full on
    both. *)
Theorem plain_export_chain (a b c : str) (width height : Z) :
  a ≠ b → b ≠ c → a ≠ c →
  export_ascii_tree (showing (chain a b c) width height)
  = Some (lines_of [utf8 "└── " ++ a;
                    utf8 "    └── " ++ b;
                    utf8 "        └── " ++ c])
  ∧ (one_line a → one_line b → one_line c →
     count_newlines <$> export_ascii_tree (showing (chain a b c) width height)
     = Some 3%Z)
  ∧ (∀ g fuel node prefix is_last visited,
       node ∈ visited →
       _plain_ascii_tree_fuel (S fuel) g node prefix is_last visited
       = Some (lines_of [prefix ++ utf8 (if is_last then "└── " else "├── ")
                         ++ node ++ utf8 " (...)"]))
  ∧ export_ascii_tree (showing looped width height)
    = Some (lines_of [utf8 "└── R";
                      utf8 "    └── A";
                      utf8 "        └── B";
                      utf8 "            └── A (...)"])
  ∧ export_ascii_tree (showing diamond width height)
    = Some (lines_of [utf8 "└── R";
                      utf8 "    ├── A";
                      utf8 "    │   └── C";
                      utf8 "    └── B";
                      utf8 "        └── C"]).
Proof.
  intros Hab Hbc Hac.
  assert (Hchain :
    export_ascii_tree (showing (chain a b c) width height)
    = Some (plain_line [] true a
            ++ plain_line (indent true) true b
            ++ plain_line (indent true ++ indent true) true c)).
  { destruct (chain_successors a b c Hab Hbc Hac) as (Sa & Sb & Sc & Hroots).
    unfold export_ascii_tree. cbn [graph showing]. rewrite Hroots.
    apply (plain_ascii_tree_fuel _ 3).
    cbn [_plain_ascii_tree_fuel].
    rewrite (bool_decide_eq_false_2 (a ∈ (∅ : gset str))) by set_solver.
    rewrite Sa.
    rewrite (bool_decide_eq_false_2 ([b] = [])) by done.
    cbn [plain_children length Nat.eqb Nat.sub mbind option_bind].
    rewrite (bool_decide_eq_false_2 (b ∈ _)) by set_solver.
    rewrite Sb.
    rewrite (bool_decide_eq_false_2 ([c] = [])) by done.
    cbn [plain_children length Nat.eqb Nat.sub mbind option_bind].
    rewrite (bool_decide_eq_false_2 (c ∈ _)) by set_solver.
    rewrite Sc.
    rewrite (bool_decide_eq_true_2 ([] = [])) by done.
    cbn [mbind option_bind]. unfold plain_line.
    by rewrite <- ?app_assoc. }
  split.
  { rewrite Hchain. f_equal. unfold lines_of, plain_line.
    cbn [fmap list_fmap concat]. rewrite app_nil_r, <- !app_assoc.
    reflexivity. }
  split.
  { intros Ha Hb Hc. rewrite Hchain. cbn [fmap option_fmap option_map].
    f_equal. rewrite !count_newlines_app.
    rewrite !count_newlines_plain_line;
      auto using one_line_nil, one_line_indent, one_line_app. }
  split.
  { intros g fuel node prefix is_last visited Hvis.
    cbn [_plain_ascii_tree_fuel]. rewrite bool_decide_eq_true_2 by done.
    f_equal. unfold lines_of. cbn [fmap list_fmap concat].
    rewrite app_nil_r, <- !app_assoc. by destruct is_last. }
  split; vm_compute; reflexivity.
Qed.

Lemma plain_export_chain_witness :
  export_ascii_tree (showing (chain (py "A") (py "B") (py "C")) 80 24)
  = Some (lines_of [utf8 "└── A"; utf8 "    └── B"; utf8 "        └── C"])
  ∧ count_newlines
      <$> export_ascii_tree (showing (chain (py "A") (py "B") (py "C")) 80 24)
    = Some 3%Z.
Proof.
  assert (Hab : py "A" ≠ py "B") by (vm_compute; discriminate).
  assert (Hbc : py "B" ≠ py "C") by (vm_compute; discriminate).
  assert (Hac : py "A" ≠ py "C") by (vm_compute; discriminate).
  destruct (plain_export_chain (py "A") (py "B") (py "C") 80 24
                               Hab Hbc Hac) as (Htext & Hcount & _).
  split.
  - rewrite Htext. vm_compute. reflexivity.
  - apply Hcount; unfold one_line; compute_done.
Defined.

(** ** Selecting the children to show *)

Lemma slice_to_subseteq {A} (l : list A) k : slice_to l k ⊆ l.
Proof. apply subseteq_take. Qed.

Lemma slice_from_subseteq {A} (l : list A) k : slice_from l k ⊆ l.
Proof. apply subseteq_drop. Qed.

Lemma slice_subseteq {A} (l : list A) i j : slice l i j ⊆ l.
Proof.
  unfold slice. etrans; [apply subseteq_take|apply subseteq_drop].
Qed.

Lemma filter_elem {A} (f : A → bool) (l : list A) x :
  x ∈ List.filter f l ↔ x ∈ l ∧ f x = true.
Proof. rewrite !list_elem_of_In. apply filter_In. Qed.

Lemma dedup_first_spec seen l :
  dedup_first seen l ⊆ l
  ∧ NoDup (dedup_first seen l)
  ∧ ∀ x, x ∈ dedup_first seen l → x ∉ seen.
Proof.
  revert seen. induction l as [|x l IH]; intros seen; simpl.
  { split; [done|]. split; [constructor|]. by intros x ?%elem_of_nil. }
  case_bool_decide as Hx.
  - destruct (IH seen) as (Hsub & Hnd & Hseen).
    split; [|done]. intros y Hy. right. by apply Hsub.
  - destruct (IH (x :: seen)) as (Hsub & Hnd & Hseen). split; [|split].
    + intros y [->|Hy]%elem_of_cons; [left|right; by apply Hsub].
    + constructor; [|done]. intros Hin. apply (Hseen x Hin). left.
    + intros y [->|Hy]%elem_of_cons; [done|].
      intros Hin. apply (Hseen y Hy). by right.
Qed.

(** The ordering step only permutes the children. *)
Lemma order_children_perm focus_paths children :
  order_children focus_paths children ≡ₚ children.
Proof.
  unfold order_children. destruct focus_paths; [done|apply sort_key_perm].
Qed.

Lemma limit_children_subseteq focus_paths children remaining_height :
  (limit_children focus_paths children remaining_height).1 ⊆ children.
Proof.
  unfold limit_children.
  destruct (remaining_height <? len children)%Z; [|done].
  destruct (len (List.filter _ children) <? remaining_height)%Z; simpl.
  - intros x [Hx|Hx]%elem_of_app.
    + by apply filter_elem in Hx as [? _].
    + unfold sample_non_focus in Hx.
      destruct (0 <? _)%Z; [|by apply elem_of_nil in Hx].
      destruct (_ <=? _)%Z.
      { by apply filter_elem in Hx as [? _]. }
      apply slice_to_subseteq in Hx.
      apply (proj1 (dedup_first_spec [] _)) in Hx.
      assert (Hnf : x ∈ List.filter (λ c, negb (in_focus focus_paths c))
                               children).
      { apply elem_of_app in Hx as [Hx|[Hx|Hx]%elem_of_app].
        - by eapply slice_to_subseteq.
        - by eapply slice_subseteq.
        - by eapply slice_from_subseteq. }
      by apply filter_elem in Hnf as [? _].
  - intros x Hx%slice_to_subseteq. by apply filter_elem in Hx as [? _].
Qed.

(** Every child that is emitted is a successor of the node. *)
Lemma shown_children_successors focus_paths children remaining_height x :
  x ∈ (limit_children focus_paths (order_children focus_paths children)
                      remaining_height).1 →
  x ∈ children.
Proof.
  intros Hx%limit_children_subseteq.
  by rewrite order_children_perm in Hx.
Qed.

(** ** Bounded Tree Renderer *)

Create HintDb one_line.

Lemma one_line_styles :
  Forall one_line
    ([Fore_BLACK; Fore_RED; Fore_GREEN; Fore_YELLOW; Fore_BLUE; Fore_MAGENTA;
      Fore_CYAN; Fore_WHITE; Back_GREEN; Back_BLUE; Style_BRIGHT;
      Style_RESET_ALL; py "..."; py " "; py "(...)"; py "(...more...)";
      py "(...more nodes...)"] : list str).
Proof. unfold one_line. repeat constructor; compute_done. Qed.

Lemma one_line_style s :
  s ∈ ([Fore_BLACK; Fore_RED; Fore_GREEN; Fore_YELLOW; Fore_BLUE;
        Fore_MAGENTA; Fore_CYAN; Fore_WHITE; Back_GREEN; Back_BLUE;
        Style_BRIGHT; Style_RESET_ALL; py "..."; py " "; py "(...)";
        py "(...more...)"; py "(...more nodes...)"] : list str) →
  one_line s.
Proof. intros Hs. by eapply Forall_forall in Hs; [|apply one_line_styles]. Qed.

Lemma one_line_depth_color k : one_line (nth k depth_colors []).
Proof.
  do 6 (destruct k as [|k]; [apply one_line_style; set_solver|]).
  destruct k; apply one_line_nil.
Qed.

Lemma one_line_slice_to s k : one_line s → one_line (slice_to s k).
Proof. unfold one_line. intros Hs Hin. by apply Hs, (slice_to_subseteq s k). Qed.

#[global] Hint Resolve one_line_nil one_line_indent one_line_connector
  one_line_app one_line_depth_color one_line_slice_to : one_line.
Lemma one_line_Fore_BLACK : one_line Fore_BLACK.
Proof. unfold one_line. compute_done. Qed.

Lemma one_line_Fore_RED : one_line Fore_RED.
Proof. unfold one_line. compute_done. Qed.

Lemma one_line_Fore_GREEN : one_line Fore_GREEN.
Proof. unfold one_line. compute_done. Qed.

Lemma one_line_Fore_YELLOW : one_line Fore_YELLOW.
Proof. unfold one_line. compute_done. Qed.

Lemma one_line_Fore_BLUE : one_line Fore_BLUE.
Proof. unfold one_line. compute_done. Qed.

Lemma one_line_Fore_MAGENTA : one_line Fore_MAGENTA.
Proof. unfold one_line. compute_done. Qed.

Lemma one_line_Fore_CYAN : one_line Fore_CYAN.
Proof. unfold one_line. compute_done. Qed.

Lemma one_line_Fore_WHITE : one_line Fore_WHITE.
Proof. unfold one_line. compute_done. Qed.

Lemma one_line_Back_GREEN : one_line Back_GREEN.
Proof. unfold one_line. compute_done. Qed.

Lemma one_line_Back_BLUE : one_line Back_BLUE.
Proof. unfold one_line. compute_done. Qed.

Lemma one_line_Style_BRIGHT : one_line Style_BRIGHT.
Proof. unfold one_line. compute_done. Qed.

Lemma one_line_Style_RESET_ALL : one_line Style_RESET_ALL.
Proof. unfold one_line. compute_done. Qed.

Lemma one_line_ellipsis : one_line (py "...").
Proof. unfold one_line. compute_done. Qed.

Lemma one_line_space : one_line (py " ").
Proof. unfold one_line. compute_done. Qed.

Lemma one_line_cut_mark : one_line (py "(...)").
Proof. unfold one_line. compute_done. Qed.

Lemma one_line_more_mark : one_line (py "(...more...)").
Proof. unfold one_line. compute_done. Qed.

Lemma one_line_more_nodes_mark : one_line (py "(...more nodes...)").
Proof. unfold one_line. compute_done. Qed.

#[global] Hint Resolve one_line_Fore_BLACK one_line_Fore_RED
  one_line_Fore_GREEN one_line_Fore_YELLOW one_line_Fore_BLUE
  one_line_Fore_MAGENTA one_line_Fore_CYAN one_line_Fore_WHITE
  one_line_Back_GREEN one_line_Back_BLUE one_line_Style_BRIGHT
  one_line_Style_RESET_ALL one_line_ellipsis one_line_space
  one_line_cut_mark one_line_more_mark one_line_more_nodes_mark : one_line.

Lemma color_node_one_line self node prefix is_last current_depth :
  one_line node → one_line prefix →
  one_line (_color_node self node prefix is_last current_depth).
Proof.
  intros Hn Hp. unfold _color_node.
  set (shown := if (_ <? len node)%Z then _ else node).
  assert (Hshown : one_line shown).
  { unfold shown. destruct (_ <? _)%Z; auto with one_line. }
  repeat case_bool_decide; try destruct (current_depth =? 0)%nat;
    auto 20 with one_line.
Qed.

Lemma count_newlines_line s : one_line s → count_newlines (s ++ [NEWLINE]) = 1%Z.
Proof.
  intros Hs. by rewrite count_newlines_app, count_newlines_one_line.
Qed.

Lemma count_newlines_more_line prefix is_last :
  one_line prefix → count_newlines (more_line prefix is_last) = 1%Z.
Proof.
  intros Hp. unfold more_line. rewrite !app_assoc.
  apply count_newlines_line. auto 20 with one_line.
Qed.

Lemma count_newlines_cut_line self node prefix is_last current_depth :
  one_line node → one_line prefix →
  count_newlines (cut_line self node prefix is_last current_depth) = 1%Z.
Proof.
  intros Hn Hp. unfold cut_line. rewrite !app_assoc.
  apply count_newlines_line.
  auto 20 using color_node_one_line with one_line.
Qed.

Lemma count_newlines_more_nodes_line next_prefix :
  one_line next_prefix → count_newlines (more_nodes_line next_prefix) = 1%Z.
Proof.
  intros Hp. unfold more_nodes_line. rewrite !app_assoc.
  apply count_newlines_line. auto 20 with one_line.
Qed.

(** The loop over the children keeps the count of lines used exact and
    within the height, when every child does. *)
Lemma emit_children_bounded emit total has_more available_height children :
  (∀ child is_last lines_used t,
     child ∈ children → (lines_used < available_height)%Z →
     emit child is_last lines_used = Some t →
     (count_newlines t ≤ available_height - lines_used)%Z) →
  ∀ i result lines_used r lines_used',
    (lines_used < available_height)%Z →
    emit_children emit total has_more available_height i children result
                  lines_used = Some (r, lines_used') →
    (count_newlines r = count_newlines result + (lines_used' - lines_used))%Z
    ∧ (lines_used ≤ lines_used' ≤ available_height)%Z.
Proof.
  induction children as [|child rest IH]; intros Hemit i result u r u' Hu.
  { simpl. intros [= <- <-]. lia. }
  simpl. destruct (emit child _ u) as [t|] eqn:Ht; [|done]. simpl.
  assert (Hcount : (count_newlines t ≤ available_height - u)%Z).
  { eapply Hemit; [left|done|exact Ht]. }
  pose proof (count_newlines_nonneg t).
  destruct (Z.leb_spec available_height (u + count_newlines t)) as [Hfull|Hroom].
  - intros [= <- <-]. rewrite count_newlines_app. lia.
  - intros Hrest. apply IH in Hrest; [|intros; eapply Hemit; eauto; by right|done].
    rewrite count_newlines_app in Hrest. lia.
Qed.

Lemma emit_children_total emit total has_more available_height i children
    result lines_used :
  (∀ child is_last lu, is_Some (emit child is_last lu)) →
  is_Some (emit_children emit total has_more available_height i children
                         result lines_used).
Proof.
  intros Hemit. revert i result lines_used.
  induction children as [|child rest IH]; intros i result u; simpl; [done|].
  destruct (Hemit child ((i =? total - 1)%nat && negb has_more) u) as [t ->].
  simpl. destruct (_ <=? _)%Z; [done|apply IH].
Qed.

Section Bounded.
Variable self : ConceptExplorer.
Hypothesis labels_one_line : ∀ n, n ∈ labels (graph self) → one_line n.

Lemma successors_one_line node child :
  child ∈ successors (graph self) node → one_line child.
Proof using labels_one_line.
  intros Hc. apply labels_one_line. unfold successors in Hc.
  apply list_elem_of_fmap in Hc as (e & -> & He).
  apply filter_elem in He as [He _].
  unfold labels. apply elem_of_union_r, elem_of_list_to_set.
  apply list_elem_of_fmap. by exists e.
Qed.

(** Below the height, a call never emits more lines than are left. *)
Lemma generate_fuel_bounded fuel :
  ∀ node prefix is_last visited focus_paths max_depth current_depth
    available_height lines_used t,
    one_line node → one_line prefix →
    (lines_used < available_height)%Z →
    _generate_ascii_tree_fuel fuel self node prefix is_last visited
      focus_paths max_depth current_depth available_height lines_used
    = Some t →
    (count_newlines t ≤ available_height - lines_used)%Z.
Proof using labels_one_line.
  induction fuel as [|fuel IH];
    intros node prefix is_last visited focus_paths max_depth current_depth
           H u t Hnode Hprefix Hu; [done|].
  cbn [_generate_ascii_tree_fuel].
  rewrite (proj2 (Z.leb_gt H u)) by done.
  destruct (bool_decide (node ∈ visited) || _).
  { intros [= <-]. rewrite count_newlines_cut_line by done. lia. }
  assert (Hline : count_newlines
                    (_color_node self node prefix is_last current_depth
                     ++ [NEWLINE]) = 1%Z).
  { apply count_newlines_line. by apply color_node_one_line. }
  destruct (bool_decide (successors (graph self) node = [])
            || (H <=? u + 1)%Z) eqn:Hstop.
  { intros [= <-]. lia. }
  apply orb_false_iff in Hstop as [_ Hroom%Z.leb_gt].
  destruct (limit_children _ _ _) as [children has_more] eqn:Hlimit.
  destruct (emit_children _ _ _ _ _ _ _ _) as [[r u']|] eqn:Hloop; [|done].
  apply emit_children_bounded in Hloop as [Hr Hu']; [|clear Hloop|done].
  2:{ intros child il lu t' Hchild Hlu Ht'. eapply IH; [| |done|exact Ht'].
      - eapply successors_one_line, shown_children_successors.
        by erewrite Hlimit.
      - auto with one_line. }
  simpl. destruct (has_more && (u' <? H)%Z) eqn:Hmark; intros [= <-].
  - apply andb_true_iff in Hmark as [_ Hlt%Z.ltb_lt].
    rewrite count_newlines_app, count_newlines_more_nodes_line
      by auto with one_line.
    lia.
  - lia.
Qed.

End Bounded.

Lemma generate_fuel_total self fuel node prefix is_last visited focus_paths
    max_depth current_depth available_height lines_used :
  size (labels (graph self) ∖ visited) < fuel →
  is_Some (_generate_ascii_tree_fuel fuel self node prefix is_last visited
             focus_paths max_depth current_depth available_height
             lines_used).
Proof.
  revert node prefix is_last visited current_depth lines_used.
  induction fuel as [|fuel IH];
    intros node prefix is_last visited current_depth u Hfuel; [lia|].
  cbn [_generate_ascii_tree_fuel].
  destruct (_ <=? _)%Z; [done|].
  destruct (bool_decide (node ∈ visited)) eqn:Hvis; [done|].
  apply bool_decide_eq_false in Hvis. cbn [orb].
  destruct (match max_depth with Some _ => _ | None => _ end); [done|].
  destruct (bool_decide (successors (graph self) node = [])) eqn:Hsucc;
    [done|].
  apply bool_decide_eq_false in Hsucc. cbn [orb].
  destruct (_ <=? _)%Z; [done|].
  destruct (limit_children _ _ _) as [children has_more].
  destruct (emit_children_total
    (λ child is_last_child lines_used0,
       _generate_ascii_tree_fuel fuel self child (prefix ++ indent is_last)
         is_last_child ({[node]} ∪ visited) focus_paths max_depth
         (S current_depth) available_height lines_used0)
    (length children) has_more available_height 0 children
    (_color_node self node prefix is_last current_depth ++ [NEWLINE])
    (u + 1)%Z) as [[r u'] ->].
  { intros child il lu. apply IH.
    pose proof (unvisited_decreases (graph self) node visited Hsucc Hvis).
    lia. }
  simpl. by destruct (has_more && _).
Qed.

Lemma one_line_graph_spec g :
  one_line_graph g = true → ∀ n, n ∈ labels g → one_line n.
Proof.
  unfold one_line_graph. rewrite forallb_forall. intros Hall n Hn.
  assert (Hin : In n (nodes g ++ (edges g).*1 ++ (edges g).*2)).
  { apply list_elem_of_In. unfold labels in Hn.
    rewrite !elem_of_union, !elem_of_list_to_set in Hn.
    rewrite !elem_of_app. tauto. }
  apply Hall, negb_true_iff in Hin. unfold one_line. intros Hnl.
  apply list_elem_of_In in Hnl.
  assert (contains NEWLINE n = true); [|congruence].
  apply existsb_exists. exists NEWLINE. split; [done|apply N.eqb_refl].
Qed.

Lemma roots_labels g root : root ∈ roots g → root ∈ labels g.
Proof.
  intros [Hr _]%filter_elem. unfold labels.
  by apply elem_of_union_l, elem_of_union_l, elem_of_list_to_set.
Qed.

(** C2 (amended): when no label of the graph has a line break, the
    bounded renderer returns a text for every node of the graph, focus
    path, depth limit and height, and the text has at most
    [max 1 available_height] lines: never more than a height of at least
    1, and for a height below 1 the single ["(...more...)"] line.  The
    same holds for the tree printed by [update_live_tree] for a focus
    node of the graph, whose height is the terminal height minus 10. *)
Theorem rendered_lines_bounded (self : ConceptExplorer) (node : str)
    (focus_paths : list str) (max_depth : option Z) (available_height : Z) :
  node ∈ nodes (graph self) →
  (∀ n, n ∈ labels (graph self) → one_line n) →
  (∃ tree_text,
     _generate_ascii_tree self node focus_paths max_depth available_height
     = Some tree_text
     ∧ (count_newlines tree_text ≤ Z.max 1 available_height)%Z
     ∧ ((available_height ≤ 0)%Z → tree_text = more_line [] true))
  ∧ ∀ terminal focus_node max_display_depth tree_text,
      (∀ focus, focus_node = Some focus → focus ∈ nodes (graph self)) →
      (update_live_tree self terminal focus_node max_display_depth).2
      = Tree tree_text →
      (count_newlines tree_text ≤ Z.max 1 (terminal.2 - 10))%Z.
Proof.
  intros Hin Hlabels.
  assert (Hnode : one_line node).
  { apply Hlabels. unfold labels.
    by apply elem_of_union_l, elem_of_union_l, elem_of_list_to_set. }
  assert (Hgen : ∀ self' node' focus_paths' max_depth' H,
    graph self' = graph self → one_line node' →
    ∃ tree_text,
      _generate_ascii_tree self' node' focus_paths' max_depth' H
      = Some tree_text
      ∧ (count_newlines tree_text ≤ Z.max 1 H)%Z
      ∧ ((H ≤ 0)%Z → tree_text = more_line [] true)).
  { intros self' node' focus_paths' max_depth' H Hg Hnode'.
    unfold _generate_ascii_tree.
    destruct (generate_fuel_total self' (tree_fuel (graph self')) node' []
                true ∅ focus_paths' max_depth' 0 H 0) as [t Ht].
    { unfold tree_fuel.
      assert (size (labels (graph self') ∖ ∅) ≤ size (labels (graph self')))
        by (apply subseteq_size; set_solver).
      lia. }
    exists t. split; [done|].
    destruct (Z.le_gt_cases H 0) as [Hlow|Hhigh].
    - unfold tree_fuel in Ht. cbn [_generate_ascii_tree_fuel] in Ht.
      rewrite (proj2 (Z.leb_le H 0)) in Ht by done.
      injection Ht as <-. split; [|done].
      rewrite count_newlines_more_line by apply one_line_nil. lia.
    - split; [|lia].
      apply generate_fuel_bounded in Ht;
        [lia|by rewrite Hg|done|apply one_line_nil|lia]. }
  split; [by apply Hgen|].
  intros terminal focus_node max_display_depth tree_text _.
  unfold update_live_tree. cbn [snd].
  destruct (roots (graph (set_terminal self terminal))) as [|root rest]
    eqn:Hroots; [done|].
  destruct (if truthy focus_node then _ else _) as [path|]; [|done].
  match goal with
  | |- context [_generate_ascii_tree ?s ?n ?f ?d ?h] =>
      destruct (Hgen s n f d h) as (t & -> & Ht & _)
  end.
  - done.
  - apply Hlabels, roots_labels.
    change (graph (set_terminal self terminal)) with (graph self) in Hroots.
    rewrite Hroots. left.
  - intros [= <-]. exact Ht.
Qed.

Lemma rendered_lines_bounded_witness :
  (∃ tree_text,
     _generate_ascii_tree (showing (chain (py "A") (py "B") (py "C")) 80 24)
                          (py "A") [py "B"; py "A"] (Some 3%Z) 2
     = Some tree_text
     ∧ (count_newlines tree_text ≤ Z.max 1 2)%Z
     ∧ ((2 ≤ 0)%Z → tree_text = more_line [] true))
  ∧ count_newlines
      <$> _generate_ascii_tree
            (showing (chain (py "A") (py "B") (py "C")) 80 24)
            (py "A") [py "B"; py "A"] (Some 3%Z) 2
    = Some 2%Z
  ∧ ∀ tree_text,
      (update_live_tree (showing (chain (py "A") (py "B") (py "C")) 80 24)
                        (80, 12)%Z (Some (py "B")) (Some 3%Z)).2
      = Tree tree_text →
      (count_newlines tree_text ≤ Z.max 1 (12 - 10))%Z.
Proof.
  destruct (rendered_lines_bounded
              (showing (chain (py "A") (py "B") (py "C")) 80 24)
              (py "A") [py "B"; py "A"] (Some 3%Z) 2) as [Hgen Hlive].
  - apply (bool_decide_unpack _). vm_compute. exact I.
  - apply one_line_graph_spec. vm_compute. reflexivity.
  - split; [exact Hgen|]. split; [vm_compute; reflexivity|].
    intros tree_text. apply (Hlive (80, 12)%Z (Some (py "B")) (Some 3%Z)).
    intros focus [= <-]. apply (bool_decide_unpack _). vm_compute. exact I.
Defined.

(** C2, as stated, fails for a height of zero: on a terminal ten rows
    high the renderer is given the height 0 and still emits one line.  It
    also fails when a label has a line break in it. *)
Lemma short_terminal_overflows :
  (update_live_tree (showing (chain (py "A") (py "B") (py "C")) 80 24)
                    (80, 10)%Z None None).2
  = Tree (more_line [] true)
  ∧ (¬ ∀ tree_text,
         _generate_ascii_tree
           (showing (chain (py "A") (py "B") (py "C")) 80 10)
           (py "A") [] (Some 2%Z) (10 - 10) = Some tree_text →
         (count_newlines tree_text ≤ 10 - 10)%Z)
  ∧ (¬ ∀ tree_text,
         _generate_ascii_tree
           (showing (add_node empty_graph two_line_label) 80 24)
           two_line_label [] None 1 = Some tree_text →
         (count_newlines tree_text ≤ 1)%Z).
Proof.
  split; [vm_compute; reflexivity|]. split.
  - intros Hall.
    assert (Hle : (count_newlines (more_line [] true) ≤ 10 - 10)%Z)
      by (apply Hall; vm_compute; reflexivity).
    vm_compute in Hle. by apply Hle.
  - intros Hall.
    assert (Hle : (count_newlines
                     (_color_node
                        (showing (add_node empty_graph two_line_label) 80 24)
                        two_line_label [] true 0 ++ [NEWLINE]) ≤ 1)%Z)
      by (apply Hall; vm_compute; reflexivity).
    vm_compute in Hle. by apply Hle.
Qed.

(** ** The sample shown when the children do not fit *)

Lemma filter_partition_length {A} (f : A → bool) (l : list A) :
  length (List.filter f l) + length (List.filter (λ x, negb (f x)) l)
  = length l.
Proof.
  induction l as [|x l IH]; simpl; [done|].
  destruct (f x); simpl; lia.
Qed.

(** With more non-focus children than the sample holds, the three slices
    stay inside the list. *)
Lemma sample_non_focus_pieces non_focus sample_size :
  (0 < sample_size < len non_focus)%Z →
  sample_non_focus non_focus sample_size
  = take (Z.to_nat sample_size) (fromkeys (three_pieces non_focus sample_size))
  ∧ NoDup (sample_non_focus non_focus sample_size)
  ∧ sample_non_focus non_focus sample_size ⊆ non_focus
  ∧ (len (sample_non_focus non_focus sample_size) ≤ sample_size)%Z.
Proof.
  intros [Hpos Hmany]. unfold sample_non_focus, three_pieces.
  rewrite (proj2 (Z.ltb_lt 0 sample_size)) by done.
  rewrite (proj2 (Z.leb_gt (len non_focus) sample_size)) by done.
  set (third := Z.max 1 (sample_size / 3)).
  assert (Hthird : (1 ≤ third ≤ sample_size)%Z).
  { unfold third. pose proof (Z.div_le_upper_bound sample_size 3 sample_size).
    lia. }
  assert (Hhalf : (0 ≤ third / 2 ≤ len non_focus / 2)%Z).
  { split; [apply Z.div_pos; lia|apply Z.div_le_mono; lia]. }
  assert (Hmid : (len non_focus / 2 + third / 2 ≤ len non_focus)%Z).
  { pose proof (Z.mul_div_le (len non_focus) 2). lia. }
  unfold len in *.
  assert (Hstart : slice_to non_focus third = take (Z.to_nat third) non_focus).
  { unfold slice_to, norm_index. destruct (Z.ltb_spec third 0); [lia|].
    f_equal. lia. }
  assert (Hmiddle :
    slice non_focus (Z.of_nat (length non_focus) / 2 - third / 2)
                    (Z.of_nat (length non_focus) / 2 + third / 2)
    = take (Z.to_nat (2 * (third / 2)))
           (drop (Z.to_nat (Z.of_nat (length non_focus) / 2 - third / 2))
                 non_focus)).
  { unfold slice, norm_index.
    destruct (Z.ltb_spec (Z.of_nat (length non_focus) / 2 + third / 2) 0);
      [lia|].
    destruct (Z.ltb_spec (Z.of_nat (length non_focus) / 2 - third / 2) 0);
      [lia|].
    f_equal; [lia|f_equal; lia]. }
  assert (Hend : slice_from non_focus (- third)
                 = drop (length non_focus - Z.to_nat third) non_focus).
  { unfold slice_from, norm_index. destruct (Z.ltb_spec (- third) 0); [|lia].
    f_equal. lia. }
  rewrite Hstart, Hmiddle, Hend.
  set (pieces := take _ non_focus ++ _ ++ _).
  assert (Hcut : slice_to (fromkeys pieces) sample_size
                 = take (Z.to_nat sample_size) (fromkeys pieces)).
  { unfold slice_to, norm_index. destruct (Z.ltb_spec sample_size 0); [lia|].
    destruct (Nat.le_gt_cases (length (fromkeys pieces))
                              (Z.to_nat sample_size)).
    - rewrite !firstn_all2 by lia. done.
    - f_equal. lia. }
  rewrite Hcut.
  destruct (dedup_first_spec [] pieces) as (Hsub & Hnd & _).
  split; [done|]. split; [|split].
  - eapply sublist_NoDup; [exact Hnd|apply sublist_take].
  - etrans; [apply subseteq_take|]. etrans; [exact Hsub|].
    unfold pieces. intros x [Hx|[Hx|Hx]%elem_of_app]%elem_of_app.
    + by eapply subseteq_take.
    + by eapply subseteq_drop, subseteq_take.
    + by eapply subseteq_drop.
  - rewrite length_take. lia.
Qed.

(** What [limit_children] keeps when the children outnumber the lines
    that remain. *)
Lemma limit_children_selection focus_paths children remaining_height :
  (1 ≤ remaining_height < len children)%Z →
  let focus_children := List.filter (in_focus focus_paths) children in
  let non_focus :=
    List.filter (λ c, negb (in_focus focus_paths c)) children in
  let sample_size := (remaining_height - len focus_children - 1)%Z in
  let shown := (limit_children focus_paths children remaining_height).1 in
  (limit_children focus_paths children remaining_height).2 = true
  ∧ shown ⊆ children
  ∧ (len shown ≤ remaining_height - 1)%Z
  ∧ ((len focus_children < remaining_height)%Z →
     (∀ c, c ∈ children → in_focus focus_paths c = true → c ∈ shown)
     ∧ ∃ sampled,
         shown = focus_children ++ sampled
         ∧ sampled ⊆ non_focus ∧ NoDup sampled
         ∧ (len sampled ≤ Z.max 0 sample_size)%Z
         ∧ ((0 < sample_size)%Z →
            sampled = take (Z.to_nat sample_size)
                           (fromkeys (three_pieces non_focus sample_size))))
  ∧ ((remaining_height ≤ len focus_children)%Z →
     shown = take (Z.to_nat (remaining_height - 1)) focus_children).
Proof.
  intros [Hone Hmany]. cbv zeta.
  pose proof (limit_children_subseteq focus_paths children remaining_height)
    as Hsub.
  pose proof (filter_partition_length (in_focus focus_paths) children)
    as Hpart.
  unfold limit_children in *.
  rewrite (proj2 (Z.ltb_lt remaining_height (len children))) in * by done.
  set (focus_children := List.filter (in_focus focus_paths) children) in *.
  set (non_focus :=
         List.filter (λ c, negb (in_focus focus_paths c)) children) in *.
  unfold len in *.
  destruct (Z.ltb_spec (Z.of_nat (length focus_children)) remaining_height)
    as [Hfew|Hfull]; cbn [fst snd] in *.
  - set (sample_size :=
           (remaining_height - Z.of_nat (length focus_children) - 1)%Z) in *.
    assert (Hsample :
      sample_non_focus non_focus sample_size ⊆ non_focus
      ∧ NoDup (sample_non_focus non_focus sample_size)
      ∧ (len (sample_non_focus non_focus sample_size)
         ≤ Z.max 0 sample_size)%Z
      ∧ ((0 < sample_size)%Z →
         sample_non_focus non_focus sample_size
         = take (Z.to_nat sample_size)
                (fromkeys (three_pieces non_focus sample_size)))).
    { destruct (Z.lt_ge_cases 0 sample_size) as [Hpos|Hnone].
      - destruct (sample_non_focus_pieces non_focus sample_size)
          as (Heq & Hnd & Hin & Hlen); [unfold len; lia|].
        repeat split; try done. lia.
      - unfold sample_non_focus.
        rewrite (proj2 (Z.ltb_ge 0 sample_size)) by done.
        repeat split; [set_solver|constructor|unfold len; simpl; lia|lia]. }
    destruct Hsample as (Hin & Hnd & Hlen & Heq). unfold len in Hlen.
    assert (Hshort :
      (Z.of_nat (length (focus_children
                         ++ sample_non_focus non_focus sample_size))
       ≤ remaining_height - 1)%Z).
    { rewrite length_app. lia. }
    split; [apply Z.ltb_lt; lia|]. split; [done|]. split; [done|]. split.
    + intros _. split.
      * intros c Hc Hfocus. apply elem_of_app. left.
        by apply filter_elem.
      * exists (sample_non_focus non_focus sample_size).
        repeat split; done.
    + intros Hcontra. lia.
  - assert (Hcut : slice_to focus_children (remaining_height - 1)
                   = take (Z.to_nat (remaining_height - 1)) focus_children).
    { unfold slice_to, norm_index.
      destruct (Z.ltb_spec (remaining_height - 1) 0); [lia|]. f_equal. lia. }
    rewrite Hcut in *. split.
    { apply orb_true_iff. left. apply Z.ltb_lt. rewrite length_take. lia. }
    split; [done|]. split; [rewrite length_take; lia|]. split; [lia|done].
Qed.

(** C8 (amended): at a node of the graph whose children outnumber the
    lines that remain below it, and whose focus-path children number
    fewer than those lines, the renderer shows all focus-path children,
    followed by a sample of the others: with [t] the larger of 1 and a
    third of the sample size, the first [t], the [2 * (t / 2)] around the
    middle and the last [t] of the non-focus children, without repetition
    and cut to the sample size, which leaves a line for the marker.  The
    ["(...more nodes...)"] line is added exactly when lines are left
    after the selected children have been emitted. *)
Theorem children_sample_and_marker (self : ConceptExplorer) (fuel : nat)
    (node prefix : str) (is_last : bool) (visited : gset str)
    (focus_paths : list str) (max_depth : option Z) (current_depth : nat)
    (available_height lines_used : Z) (t : str) :
  let children := order_children focus_paths (successors (graph self) node) in
  let remaining_height := (available_height - (lines_used + 1))%Z in
  let focus_children := List.filter (in_focus focus_paths) children in
  let non_focus := List.filter (λ c, negb (in_focus focus_paths c)) children in
  let sample_size := (remaining_height - len focus_children - 1)%Z in
  let shown :=
    focus_children
    ++ take (Z.to_nat sample_size)
            (fromkeys (three_pieces non_focus sample_size)) in
  node ∈ nodes (graph self) → node ∉ visited →
  (∀ m, max_depth = Some m → (Z.of_nat current_depth ≤ m)%Z) →
  (remaining_height < len children)%Z →
  (len focus_children < remaining_height)%Z →
  _generate_ascii_tree_fuel (S fuel) self node prefix is_last visited
    focus_paths max_depth current_depth available_height lines_used = Some t →
  (limit_children focus_paths children remaining_height = (shown, true))
  ∧ (∀ c, c ∈ children → in_focus focus_paths c = true → c ∈ shown)
  ∧ shown ⊆ successors (graph self) node
  ∧ (len shown ≤ remaining_height - 1)%Z
  ∧ ∃ body lines_used',
      emit_children
        (λ child is_last_child lines_used,
           _generate_ascii_tree_fuel fuel self child (prefix ++ indent is_last)
             is_last_child ({[node]} ∪ visited) focus_paths max_depth
             (S current_depth) available_height lines_used)
        (length shown) true available_height 0 shown
        (_color_node self node prefix is_last current_depth ++ [NEWLINE])
        (lines_used + 1)
      = Some (body, lines_used')
      ∧ t = (if (lines_used' <? available_height)%Z
             then body ++ more_nodes_line (prefix ++ indent is_last)
             else body).
Proof.
  intros children remaining_height focus_children non_focus sample_size shown
         _ Hvis Hdepth Hmany Hfew Hrun.
  assert (Hone : (1 ≤ remaining_height < len children)%Z).
  { unfold len in *. lia. }
  destruct (limit_children_selection focus_paths children remaining_height
              Hone) as (Hmore & Hsub & Hlen & Hfocus & _).
  destruct (Hfocus Hfew)
    as (Hall & sampled & Hshown & _ & _ & Hsampled & Hpieces).
  fold focus_children non_focus sample_size in Hshown, Hsampled, Hpieces.
  assert (Hsample : sampled
                    = take (Z.to_nat sample_size)
                           (fromkeys (three_pieces non_focus sample_size))).
  { destruct (Z.lt_ge_cases 0 sample_size) as [Hpos|Hnone];
      [by apply Hpieces|].
    replace (Z.to_nat sample_size) with 0 by lia. simpl.
    destruct sampled; [done|]. unfold len in Hsampled. simpl in Hsampled.
    lia. }
  assert (Hlimit : limit_children focus_paths children remaining_height
                   = (shown, true)).
  { destruct (limit_children focus_paths children remaining_height)
      as [shown' has_more]. cbn [fst snd] in *. subst has_more shown'.
    unfold shown. by rewrite Hsample. }
  rewrite Hlimit in Hsub, Hlen, Hall. cbn [fst snd] in Hsub, Hlen, Hall.
  cbn [_generate_ascii_tree_fuel] in Hrun.
  assert (Hchildren : successors (graph self) node ≠ []).
  { intros Hnil. unfold children, len in Hmany, Hone.
    rewrite order_children_perm, Hnil in Hone. simpl in Hone. lia. }
  unfold remaining_height in *.
  rewrite (proj2 (Z.leb_gt available_height lines_used)) in Hrun by lia.
  rewrite (bool_decide_eq_false_2 (node ∈ visited)) in Hrun by done.
  assert (Hwithin : match max_depth with
                    | Some m => (m <? Z.of_nat current_depth)%Z
                    | None => false
                    end = false).
  { destruct max_depth as [m|]; [|done].
    apply Z.ltb_ge. by apply Hdepth. }
  rewrite Hwithin in Hrun. cbn [orb] in Hrun.
  rewrite (bool_decide_eq_false_2 (successors (graph self) node = []))
    in Hrun by done.
  rewrite (proj2 (Z.leb_gt available_height (lines_used + 1))) in Hrun
    by lia.
  cbn [orb] in Hrun. fold children in Hrun. rewrite Hlimit in Hrun.
  destruct (emit_children _ _ _ _ _ _ _ _) as [[body lines_used']|]
    eqn:Hloop; [|done].
  cbn [mbind option_bind andb] in Hrun.
  split; [done|]. split; [done|]. split.
  { intros c Hc. apply Hsub in Hc. unfold children in Hc.
    by rewrite order_children_perm in Hc. }
  split; [done|].
  exists body, lines_used'. split; [done|].
  destruct (lines_used' <? available_height)%Z; by injection Hrun as <-.
Qed.

Lemma children_sample_and_marker_witness :
  let self := showing fan 80 24 in
  let focus_paths := [py "c"; py "R"] in
  let children :=
    order_children focus_paths (successors (graph self) (py "R")) in
  let remaining_height := (9 - (0 + 1))%Z in
  let focus_children := List.filter (in_focus focus_paths) children in
  let non_focus := List.filter (λ c, negb (in_focus focus_paths c)) children in
  let sample_size := (remaining_height - len focus_children - 1)%Z in
  let shown :=
    focus_children
    ++ take (Z.to_nat sample_size)
            (fromkeys (three_pieces non_focus sample_size)) in
  let t :=
    _color_node self (py "R") [] true 0 ++ [NEWLINE]
    ++ concat ((λ child, _color_node self child (indent true) false 1
                         ++ [NEWLINE])
               <$> (py <$> ["c"; "a"; "b"; "f"; "g"; "k"; "l"]%string))
    ++ more_nodes_line (indent true) in
  (focus_children = [py "c"] ∧ sample_size = 6%Z
   ∧ three_pieces non_focus sample_size
     = py <$> ["a"; "b"; "f"; "g"; "k"; "l"]%string
   ∧ shown = py <$> ["c"; "a"; "b"; "f"; "g"; "k"; "l"]%string)
  ∧ _generate_ascii_tree_fuel 2 self (py "R") [] true ∅ focus_paths None 0 9 0
    = Some t
  ∧ limit_children focus_paths children remaining_height = (shown, true)
  ∧ (∀ c, c ∈ children → in_focus focus_paths c = true → c ∈ shown)
  ∧ ∃ body lines_used',
      emit_children
        (λ child is_last_child lines_used,
           _generate_ascii_tree_fuel 1 self child ([] ++ indent true)
             is_last_child ({[py "R"]} ∪ ∅) focus_paths None 1 9 lines_used)
        (length shown) true 9 0 shown
        (_color_node self (py "R") [] true 0 ++ [NEWLINE]) (0 + 1)
      = Some (body, lines_used')
      ∧ t = (if (lines_used' <? 9)%Z
             then body ++ more_nodes_line ([] ++ indent true)
             else body).
Proof.
  intros self focus_paths children remaining_height focus_children non_focus
         sample_size shown t.
  assert (Hrun :
    _generate_ascii_tree_fuel 2 self (py "R") [] true ∅ focus_paths None 0 9 0
    = Some t) by (vm_compute; reflexivity).
  split; [repeat split; vm_compute; reflexivity|].
  split; [exact Hrun|].
  destruct (children_sample_and_marker self 1 (py "R") [] true ∅ focus_paths
              None 0 9 0 t) as (H1 & H2 & _ & _ & H5).
  - apply (bool_decide_unpack _). vm_compute. exact I.
  - apply not_elem_of_empty.
  - intros m Hm. discriminate Hm.
  - vm_compute. reflexivity.
  - vm_compute. reflexivity.
  - exact Hrun.
  - split; [exact H1|]. split; [exact H2|]. exact H5.
Defined.

(** C8, as stated, fails.  With one line left below the root of
    [diamond] and the focus path through ["A"], the focus-path child ["A"]
    is not shown: only the marker is.  With two lines left below the root
    of [bushy], the child ["A"] and its own child fill them, so ["B"] and
    ["C"] are left out and no marker says so.  And a sample of three out
    of the twelve children of [fan] takes the first and the last child
    and none from the middle. *)
Lemma focus_child_dropped_and_marker_missing :
  sample_non_focus (successors fan (py "R")) 3 = [py "a"; py "l"]
  ∧ limit_children [py "A"; py "R"] [py "A"; py "B"] 1 = ([], true)
  ∧ (¬ ∀ c, c ∈ [py "A"; py "B"] →
            in_focus [py "A"; py "R"] c = true →
            c ∈ (limit_children [py "A"; py "R"] [py "A"; py "B"] 1).1)
  ∧ _generate_ascii_tree (showing diamond 80 24) (py "R")
                         [py "A"; py "R"] None 2
    = Some (_color_node (showing diamond 80 24) (py "R") [] true 0
            ++ [NEWLINE] ++ more_nodes_line (indent true))
  ∧ successors bushy (py "R") = [py "A"; py "B"; py "C"]
  ∧ _generate_ascii_tree (showing bushy 80 24) (py "R") [] None 3
    = Some (_color_node (showing bushy 80 24) (py "R") [] true 0
            ++ [NEWLINE]
            ++ _color_node (showing bushy 80 24) (py "A") (indent true)
                           false 1
            ++ [NEWLINE]
            ++ _color_node (showing bushy 80 24) (py "D")
                           (indent true ++ indent false) true 2
            ++ [NEWLINE]).
Proof.
  split; [vm_compute; reflexivity|].
  split; [vm_compute; reflexivity|]. split.
  { intros Hall.
    assert (Hin : py "A" ∈ (limit_children [py "A"; py "R"]
                                            [py "A"; py "B"] 1).1).
    { apply Hall; [left|vm_compute; reflexivity]. }
    vm_compute in Hin. by apply elem_of_nil in Hin. }
  repeat split; vm_compute; reflexivity.
Qed.

(** * Further properties of the code *)

(** ** Diversity Scorer: the range of the score *)

(** The score is at most the number of existing concepts, and it reaches
    that number exactly when the candidate shares no token with any of
    them. *)
Theorem diversity_score_range (candidate : str) (existing : gset str) :
  _diversity_score candidate existing ≤ size existing
  ∧ (_diversity_score candidate existing = size existing
     ↔ ∀ e, e ∈ existing → lexically_disjoint candidate e).
Proof.
  rewrite diversity_score_size.
  assert (Hsub : filter (lexically_disjoint candidate) existing ⊆ existing)
    by set_solver.
  split; [by apply subseteq_size|]. split.
  - intros Hsize e He.
    assert (Heq : filter (lexically_disjoint candidate) existing = existing).
    { apply set_subseteq_size_eq; [done|lia]. }
    rewrite <- Heq in He. by apply elem_of_filter in He as [? _].
  - intros Hall. f_equal. apply set_eq. intros e.
    rewrite elem_of_filter. naive_solver.
Qed.

(** ** Diversity bias: what the step does to the list and to the world *)

(** The step returns a permutation of the candidates, sends no request,
    and takes one random value exactly when the bias is positive and the
    list is not empty; with a bias of zero or less the list is returned
    as it is. *)
Theorem apply_diversity_bias_effect (diversity_bias : Q)
    (self : ConceptExplorer) (w : World) (related_concepts : list str) :
  let out := apply_diversity_bias diversity_bias self w related_concepts in
  out.1 ≡ₚ related_concepts
  ∧ requests out.2 = requests w
  ∧ draws out.2
    = (if Qltb 0 diversity_bias && negb (bool_decide (related_concepts = []))
       then S (draws w) else draws w)
  ∧ (Qltb 0 diversity_bias = false → out = (related_concepts, w))
  ∧ (related_concepts = [] → out = ([], w)).
Proof.
  cbv zeta. split; [apply apply_diversity_bias_perm|].
  unfold apply_diversity_bias.
  destruct (Qltb 0 diversity_bias) eqn:Hb; simpl.
  - case_bool_decide as Hnil; simpl.
    + subst. repeat split; done.
    + destruct (Qltb (random_values w (draws w)) diversity_bias); simpl;
        repeat split; try done; by intros ->.
  - repeat split; try done. by intros ->.
Qed.

(** ** Availability check *)

(** The check succeeds exactly when the configured name is listed or some
    listed name starts with the name followed by [":"].  After a success
    the configured name is a listed one, and checking again changes
    nothing; a failure, or an exact match, leaves the explorer as it was. *)
Theorem check_model_availability_listed (self : ConceptExplorer)
    (available : list str) :
  let out := check_model_availability self available in
  (out.1 = true
   ↔ model self ∈ available
     ∨ ∃ name, name ∈ available
               ∧ startswith name (model self ++ py ":") = true)
  ∧ (out.1 = true →
     model out.2 ∈ available
     ∧ check_model_availability out.2 available = (true, out.2))
  ∧ (out.1 = false → out.2 = self)
  ∧ (model self ∈ available → out.2 = self).
Proof.
  cbv zeta. unfold check_model_availability.
  case_bool_decide as Hnil.
  { subst. cbn [fst snd]. split; [|done]. split; [done|].
    intros [Hin|(name & Hin & _)]; by apply elem_of_nil in Hin. }
  case_bool_decide as Hexact.
  { cbn [fst snd]. split; [split; [intros _; by left|done]|].
    split; [|done]. intros _. split; [done|].
    by rewrite bool_decide_eq_true_2. }
  destruct (List.find _ available) as [name|] eqn:Hfind; cbn [fst snd].
  - apply find_some in Hfind as [Hin Hstart].
    apply list_elem_of_In in Hin.
    split; [split; [|done]; intros _; right; by exists name|].
    split; [|done]. intros _. cbn [model set_model]. split; [done|].
    by rewrite bool_decide_eq_true_2.
  - split; [|done]. split; [done|].
    intros [Hin|(name & Hin & Hstart)]; [done|].
    apply list_elem_of_In in Hin.
    rewrite (find_none _ _ Hfind name Hin) in Hstart. done.
Qed.

(** ** Generator Gateway: failures, extraction and validation *)

Lemma query_ollama_unavailable self reply :
  (check_model_availability self (available_models reply)).1 = false
  ∨ generated reply = None →
  (query_ollama self reply).1 = py "[]".
Proof.
  unfold query_ollama.
  destruct (check_model_availability self (available_models reply))
    as [available self'].
  simpl. intros [-> | ->]; [done|]. by destruct available.
Qed.

Lemma check_model_availability_model self self' available :
  model self = model self' →
  (check_model_availability self available).1
  = (check_model_availability self' available).1.
Proof.
  intros Hm. unfold check_model_availability. rewrite Hm.
  repeat case_bool_decide; try done. by destruct (List.find _ _).
Qed.

Lemma find_app_first c pre rest :
  c ∉ pre → find c (pre ++ c :: rest) = len pre.
Proof.
  unfold len. induction pre as [|d pre IH]; intros Hpre; simpl.
  { by rewrite N.eqb_refl. }
  destruct (N.eqb_spec c d) as [->|_]; [set_solver|].
  rewrite IH by set_solver.
  destruct (Z.ltb_spec (Z.of_nat (length pre)) 0); lia.
Qed.

Lemma rfind_absent c s : c ∉ s → rfind c s = (-1)%Z.
Proof.
  induction s as [|d s IH]; intros Hs; simpl; [done|].
  rewrite IH by set_solver. simpl.
  destruct (N.eqb_spec c d) as [->|_]; [set_solver|done].
Qed.

Lemma rfind_app_last c pre post :
  c ∉ post → rfind c (pre ++ c :: post) = len pre.
Proof.
  unfold len. intros Hpost. induction pre as [|d pre IH]; simpl.
  { rewrite rfind_absent by done. simpl. by rewrite N.eqb_refl. }
  rewrite IH.
  destruct (Z.leb_spec 0 (Z.of_nat (length pre))); lia.
Qed.

Lemma contains_elem c s : contains c s = true ↔ c ∈ s.
Proof.
  unfold contains. rewrite existsb_exists. split.
  - intros (d & Hin & ->%N.eqb_eq). by apply list_elem_of_In.
  - intros Hin. exists c. split; [by apply list_elem_of_In|apply N.eqb_refl].
Qed.

(** The extraction keeps what lies between the first ["["] and the last
    ["]"]. *)
Lemma bracketed_between pre mid post :
  LBRACKET ∉ pre → RBRACKET ∉ post →
  bracketed (pre ++ LBRACKET :: mid ++ RBRACKET :: post)
  = LBRACKET :: mid ++ [RBRACKET].
Proof.
  intros Hpre Hpost.
  assert (Hf : find LBRACKET (pre ++ LBRACKET :: mid ++ RBRACKET :: post)
               = len pre) by (by apply find_app_first).
  assert (Hr : rfind RBRACKET (pre ++ LBRACKET :: mid ++ RBRACKET :: post)
               = len (pre ++ LBRACKET :: mid)).
  { replace (pre ++ LBRACKET :: mid ++ RBRACKET :: post)
      with ((pre ++ LBRACKET :: mid) ++ RBRACKET :: post)
      by (by rewrite <- app_assoc).
    by apply rfind_app_last. }
  unfold bracketed. rewrite Hf, Hr. clear Hf Hr.
  unfold slice, norm_index, len.
  rewrite !length_app. cbn [length]. rewrite !length_app. cbn [length].
  destruct (Z.ltb_spec (Z.of_nat (length pre)) 0); [lia|].
  destruct (Z.ltb_spec (Z.of_nat (length pre + S (length mid)) + 1) 0);
    [lia|].
  replace (Z.to_nat (Z.min (Z.of_nat (length pre)) _)) with (length pre)
    by lia.
  replace (Z.to_nat (Z.min (Z.of_nat (length pre + S (length mid)) + 1) _)
           - length pre)
    with (length (LBRACKET :: mid ++ [RBRACKET]))
    by (cbn [length]; rewrite length_app; cbn [length]; lia).
  rewrite drop_app_length.
  replace (LBRACKET :: mid ++ RBRACKET :: post)
    with ((LBRACKET :: mid ++ [RBRACKET]) ++ post)
    by (cbn [app]; by rewrite <- app_assoc).
  by rewrite take_app_length.
Qed.

Lemma filter_concepts_strings self items filtered_concepts :
  filter_concepts self (JString <$> items) filtered_concepts
  = Some (filtered_concepts
          ++ List.filter (accepted self) (cut_for_display self <$> items)).
Proof.
  revert filtered_concepts.
  induction items as [|rc items IH]; intros acc; cbn [fmap list_fmap].
  { cbn. by rewrite app_nil_r. }
  cbn [filter_concepts List.filter]. fold (cut_for_display self rc).
  unfold accepted at 1.
  destruct (bool_decide (strip (cut_for_display self rc) = [])
            || bool_decide (lower (cut_for_display self rc)
                            ∈ lower <$> elements (seen_concepts self)));
    cbn [negb].
  - apply IH.
  - rewrite IH. by rewrite <- app_assoc.
Qed.

Lemma filter_accepted_all self items :
  Forall (λ rc, (len rc ≤ term_width self / 3)%Z ∧ accepted self rc = true)
         items →
  List.filter (accepted self) (cut_for_display self <$> items) = items.
Proof.
  induction 1 as [|rc items [Hshort Hok] _ IH]; [done|].
  cbn [fmap list_fmap List.filter].
  assert (Hcut : cut_for_display self rc = rc).
  { unfold cut_for_display.
    by rewrite (proj2 (Z.ltb_ge (term_width self / 3) (len rc))). }
  rewrite Hcut, Hok. f_equal. apply IH.
Qed.

Section GatewayMore.
Variable json_loads : str → option (list json).

Lemma parse_response_bracketed self response :
  parse_response json_loads self response
  = if contains LBRACKET response && contains RBRACKET response then
      match bracketed response with
      | [] => []
      | _ =>
          match json_loads (bracketed response) with
          | None => []
          | Some related_concepts =>
              match filter_concepts self related_concepts [] with
              | Some filtered_concepts => filtered_concepts
              | None => []
              end
          end
      end
    else [].
Proof. reflexivity. Qed.

(** Text before the first ["["] and after the last ["]"] of a response
    does not matter: the candidates are those of the bracketed part
    alone. *)
Theorem parse_response_ignores_prose (self : ConceptExplorer)
    (pre mid post : str) :
  LBRACKET ∉ pre → RBRACKET ∉ post →
  parse_response json_loads self
    (pre ++ LBRACKET :: mid ++ RBRACKET :: post)
  = parse_response json_loads self (LBRACKET :: mid ++ [RBRACKET]).
Proof.
  intros Hpre Hpost. rewrite !parse_response_bracketed.
  rewrite bracketed_between by done.
  pose proof (bracketed_between [] mid []) as Hself.
  cbn [app] in Hself. rewrite Hself by set_solver.
  assert (H1 : contains LBRACKET (pre ++ LBRACKET :: mid ++ RBRACKET :: post)
               = true) by (apply contains_elem; set_solver).
  assert (H2 : contains RBRACKET (pre ++ LBRACKET :: mid ++ RBRACKET :: post)
               = true) by (apply contains_elem; set_solver).
  assert (H3 : contains LBRACKET (LBRACKET :: mid ++ [RBRACKET]) = true)
    by (apply contains_elem; set_solver).
  assert (H4 : contains RBRACKET (LBRACKET :: mid ++ [RBRACKET]) = true)
    by (apply contains_elem; set_solver).
  by rewrite H1, H2, H3, H4.
Qed.

(** When the bracketed part decodes to an array of strings, the gateway
    returns those entries, each cut to the width budget, without the ones
    that are blank or equal to a seen concept up to case: in the order of
    the response, repeated entries included.  Entries that need no cut
    and pass both tests come back unchanged. *)
Theorem parse_response_strings (self : ConceptExplorer) (response : str)
    (items : list str) :
  contains LBRACKET response = true → contains RBRACKET response = true →
  bracketed response ≠ [] →
  json_loads (bracketed response) = Some (JString <$> items) →
  parse_response json_loads self response
  = List.filter (accepted self) (cut_for_display self <$> items)
  ∧ length (parse_response json_loads self response) ≤ length items
  ∧ (Forall (λ rc, (len rc ≤ term_width self / 3)%Z
                   ∧ accepted self rc = true) items →
     parse_response json_loads self response = items).
Proof.
  intros Hl Hr Hne Hdec.
  assert (Heq : parse_response json_loads self response
                = List.filter (accepted self)
                              (cut_for_display self <$> items)).
  { rewrite parse_response_bracketed, Hl, Hr. cbn [andb].
    destruct (bracketed response) as [|b bs] eqn:Hb; [done|].
    by rewrite Hdec, filter_concepts_strings. }
  rewrite Heq. split; [done|]. split.
  - etrans; [apply List.filter_length_le|]. by rewrite length_fmap.
  - apply filter_accepted_all.
Qed.

(** When the model is not available or the generation request fails, the
    response is read as ["[]"]: the call returns no candidate, yet the
    concept has been marked and one request has been sent. *)
Theorem backend_failure_no_candidates (self : ConceptExplorer) (w : World)
    (concept : str) (depth : Z) (path : list str) :
  json_loads (py "[]") = Some [] →
  concept ∉ seen_concepts self → (depth ≤ 5)%Z →
  (check_model_availability self
     (available_models (backend w (length (requests w))))).1 = false
  ∨ generated (backend w (length (requests w))) = None →
  let call := get_related_concepts json_loads self w concept depth path in
  call.1.1 = []
  ∧ seen_concepts call.1.2 = {[concept]} ∪ seen_concepts self
  ∧ current_concept call.1.2 = Some concept
  ∧ requests call.2
    = requests w ++ [mkRequest concept depth (path ++ [concept])].
Proof.
  intros Hempty Hnew Hd Hfail. cbv zeta.
  destruct (get_related_concepts _ _ _ _ _ _) as [[related self'] w']
    eqn:Hcall.
  apply get_related_concepts_cases in Hcall
    as [(_ & _ & _ & [?|?])|(_ & _ & Hs & _ & _ & Hc & Hr & _ & ->)];
    [done|lia|].
  cbn [fst snd]. rewrite query_ollama_unavailable by done.
  split; [|done].
  rewrite parse_response_bracketed.
  change (contains LBRACKET (py "[]") && contains RBRACKET (py "[]"))
    with true.
  change (bracketed (py "[]")) with (py "[]").
  by rewrite Hempty.
Qed.

End GatewayMore.

Lemma parse_response_ignores_prose_witness :
  parse_response (decoder_of [[py "moon"]]) wide_explorer
    (py "Sure, here it is: " ++ LBRACKET :: quoted (py "moon")
     ++ RBRACKET :: py " Enjoy!")
  = parse_response (decoder_of [[py "moon"]]) wide_explorer
      (LBRACKET :: quoted (py "moon") ++ [RBRACKET]).
Proof.
  apply parse_response_ignores_prose; unfold LBRACKET, RBRACKET;
    compute_done.
Defined.

Lemma parse_response_strings_witness :
  parse_response (decoder_of [[py "moon"; py "tide"]]) wide_explorer
    (json_array_text [py "moon"; py "tide"])
  = [py "moon"; py "tide"]
  ∧ parse_response
      (decoder_of [[py "moon"; py "MOON light"; utf8 "λόγος"; py "tide";
                    py "moon"]])
      moon_explorer
      (json_array_text [py "moon"; py "MOON light"; utf8 "λόγος"; py "tide";
                        py "moon"])
    = [py "moon"; py "tide"; py "moon"].
Proof.
  split.
  - refine (proj2 (proj2 (parse_response_strings
              (decoder_of [[py "moon"; py "tide"]]) wide_explorer
              (json_array_text [py "moon"; py "tide"]) [py "moon"; py "tide"]
              _ _ _ _)) _).
    + vm_compute. reflexivity.
    + vm_compute. reflexivity.
    + vm_compute. discriminate.
    + vm_compute. reflexivity.
    + repeat constructor; vm_compute; discriminate.
  - etrans.
    + refine (proj1 (parse_response_strings
                (decoder_of [[py "moon"; py "MOON light"; utf8 "λόγος";
                              py "tide"; py "moon"]])
                moon_explorer
                (json_array_text [py "moon"; py "MOON light"; utf8 "λόγος";
                                  py "tide"; py "moon"])
                [py "moon"; py "MOON light"; utf8 "λόγος"; py "tide";
                 py "moon"] _ _ _ _)).
      * vm_compute. reflexivity.
      * vm_compute. reflexivity.
      * vm_compute. discriminate.
      * vm_compute. reflexivity.
    + vm_compute. reflexivity.
Defined.

Lemma backend_failure_no_candidates_witness :
  (get_related_concepts (decoder_of [[]]) wide_explorer half_world
                        (py "sun") 0 []).1.1 = [].
Proof.
  refine (proj1 (backend_failure_no_candidates (decoder_of [[]])
                   wide_explorer half_world (py "sun") 0%Z [] _ _ _ _)).
  - vm_compute. reflexivity.
  - set_solver.
  - lia.
  - left. vm_compute. reflexivity.
Defined.

(** ** The shape of the graph during a run *)

Lemma nodes_add_node g n :
  nodes (add_node g n)
  = if bool_decide (n ∈ nodes g) then nodes g else nodes g ++ [n].
Proof. unfold add_node, has_node. by case_bool_decide. Qed.

Lemma nodes_add_edge g u v :
  nodes (add_edge g u v) = nodes (add_node (add_node g u) v).
Proof. unfold add_edge. by case_bool_decide. Qed.

Lemma add_node_present g n : n ∈ nodes g → add_node g n = g.
Proof. intros Hn. unfold add_node, has_node. by rewrite bool_decide_eq_true_2. Qed.

(** The graph after one pass of the [for] loop. *)
Lemma add_related_graph g concept rel_concept :
  concept ∈ nodes g →
  let g' := add_edge (if has_node g rel_concept then g
                      else add_node g rel_concept) concept rel_concept in
  nodes g' = (if bool_decide (rel_concept ∈ nodes g) then nodes g
              else nodes g ++ [rel_concept])
  ∧ ∀ x y, edge g' x y ↔ edge g x y ∨ (x = concept ∧ y = rel_concept).
Proof.
  intros Hc. cbv zeta. split.
  - rewrite nodes_add_edge. unfold has_node.
    case_bool_decide as Hrel.
    + rewrite (add_node_present g concept) by done.
      by rewrite add_node_present.
    + assert (Hnodes : nodes (add_node g rel_concept)
                       = nodes g ++ [rel_concept]).
      { by rewrite nodes_add_node, bool_decide_eq_false_2. }
      rewrite (add_node_present (add_node g rel_concept) concept)
        by (rewrite Hnodes; set_solver).
      rewrite add_node_present by (rewrite Hnodes; set_solver).
      done.
  - intros x y. rewrite edge_add_edge. unfold edge.
    destruct (has_node g rel_concept); by rewrite ?edges_add_node.
Qed.

Lemma linked_mono g g' l :
  (∀ u v, edge g u v → edge g' u v) → linked g l → linked g' l.
Proof.
  intros Hsub. induction l as [|u l IH]; [done|].
  destruct l as [|v l]; [done|].
  intros [Huv Hl]. split; [by apply Hsub|by apply IH].
Qed.

Lemma linked_snoc g l u v :
  linked g (l ++ [u]) → edge g u v → linked g ((l ++ [u]) ++ [v]).
Proof.
  intros Hl Huv. induction l as [|x l IH].
  { simpl. done. }
  destruct l as [|y l].
  { simpl in *. destruct Hl as [Hxu _]. done. }
  destruct Hl as [Hxy Hl]. split; [done|]. by apply IH.
Qed.

Lemma entry_fits_mono g g' root max_depth e :
  nodes g ⊆ nodes g' → (∀ u v, edge g u v → edge g' u v) →
  entry_fits g root max_depth e → entry_fits g' root max_depth e.
Proof.
  intros Hn He (H1 & H2 & H3 & H4 & H5 & H6).
  repeat split; try done; [by apply Hn|by eapply linked_mono].
Qed.

Section WebFacts.
Variable json_loads : str → option (list json).
Variables (max_depth : Z) (diversity_bias : Q) (root : str).

Lemma web_inv_add_related c rel_concept rest :
  pending c = rel_concept :: rest →
  web_inv root max_depth c →
  web_inv root max_depth (add_related max_depth c rel_concept rest).
Proof using All.
  intros Hp [W1 W2 W3 W4 W5 W6 W7 W8 W9 W10].
  pose proof (add_related_effect max_depth c rel_concept rest) as He.
  destruct (expanding c) as [[concept depth] path] eqn:Hexp.
  destruct He as (Hs & Hr & _ & Hp' & Hexp' & _ & Hq & Hg).
  destruct W7 as (Hfit & Hcs & Hd5 & Hdm & Hfresh); [by rewrite Hp|].
  cbn [fst snd] in Hcs, Hd5, Hdm.
  assert (Hrel : rel_concept ∉ seen_concepts (explorer c))
    by (apply Hfresh; rewrite Hp; left).
  assert (Hroot : root ∈ seen_concepts (explorer c)).
  { destruct W8 as [?|(_ & Hnil & _)]; [done|]. by rewrite Hp in Hnil. }
  pose proof Hfit as (Hcn & Hlen & _ & _ & Hlink & Hhead).
  cbn [fst snd] in Hcn, Hlen, Hlink, Hhead.
  destruct (add_related_graph (graph (explorer c)) concept rel_concept Hcn)
    as [Hnodes Hedges].
  rewrite <- Hg in Hnodes, Hedges.
  set (c' := add_related max_depth c rel_concept rest) in *.
  assert (Hsubn : nodes (graph (explorer c)) ⊆ nodes (graph (explorer c'))).
  { rewrite Hnodes. case_bool_decide; set_solver. }
  assert (Hsube : ∀ u v, edge (graph (explorer c)) u v →
                         edge (graph (explorer c')) u v).
  { intros u v Huv. apply Hedges. by left. }
  assert (Hreln : rel_concept ∈ nodes (graph (explorer c'))).
  { rewrite Hnodes. case_bool_decide; set_solver. }
  constructor.
  - rewrite Hnodes. case_bool_decide as Hin; [done|].
    apply NoDup_app. split; [done|]. split; [|apply NoDup_singleton].
    intros x Hx ->%list_elem_of_singleton. done.
  - destruct W2 as [rest0 Hn]. rewrite Hnodes.
    case_bool_decide; rewrite Hn;
      [by exists rest0|by exists (rest0 ++ [rel_concept])].
  - intros u v [Huv|[-> ->]]%Hedges.
    + destruct (W3 u v Huv) as (? & ? & ? & ?). rewrite Hs.
      repeat split; try done; by apply Hsubn.
    + rewrite Hs. repeat split; try done; [by apply Hsubn|].
      intros ->. done.
  - intros n. rewrite Hnodes.
    case_bool_decide as Hin.
    + intros Hn. destruct (W4 n Hn) as [?|[u Hu]]; [by left|].
      right. exists u. by apply Hsube.
    + intros [Hn| ->%list_elem_of_singleton]%elem_of_app.
      * destruct (W4 n Hn) as [?|[u Hu]]; [by left|].
        right. exists u. by apply Hsube.
      * right. exists concept. apply Hedges. by right.
  - rewrite Hs. intros x Hx. by apply Hsubn, W5.
  - rewrite Hq. intros e [He| ->%list_elem_of_singleton]%elem_of_app.
    + eapply entry_fits_mono; [exact Hsubn|exact Hsube|by apply W6].
    + unfold entry_fits. cbn [fst snd].
      split; [done|]. split; [unfold len in *; rewrite length_app; simpl; lia|].
      split; [lia|]. split; [lia|]. split.
      * apply linked_snoc; [by eapply linked_mono|]. apply Hedges. by right.
      * rewrite <- app_assoc. destruct path; simpl in *; done.
  - rewrite Hp', Hexp', Hs. intros Hrest. cbn [fst snd].
    split; [by eapply entry_fits_mono|]. split; [done|].
    split; [done|]. split; [done|].
    intros rc Hrc. apply Hfresh. rewrite Hp. by right.
  - left. by rewrite Hs.
  - rewrite Hs, W9. unfold dispatched_concepts. by rewrite Hr.
  - rewrite Hr. intros r Hin.
    destruct (W10 r Hin) as (p & ? & ? & ? & ?).
    exists p. repeat split; try done. by eapply linked_mono.
Qed.

Lemma web_inv_expand c concept depth path rest :
  pending c = [] → queue c = (concept, depth, path) :: rest →
  web_inv root max_depth c →
  web_inv root max_depth
    (expand json_loads max_depth diversity_bias c concept depth path rest).
Proof using All.
  intros Hp Hq [W1 W2 W3 W4 W5 W6 W7 W8 W9 W10].
  assert (Hfit : entry_fits (graph (explorer c)) root max_depth
                            (concept, depth, path))
    by (apply W6; rewrite Hq; left).
  assert (Hrestq : ∀ e, e ∈ rest → e ∈ queue c)
    by (intros e He; rewrite Hq; by right).
  destruct (expand_effect json_loads max_depth diversity_bias c concept
              depth path rest)
    as (Hq' & Hexp' & _ & [(_ & He & Hw & Hp')
                          |(Hdm & self & w & related & w' & Hg & Hs & _ & Hr
                            & _ & Hcall & Hr' & _ & Hperm)]).
  { constructor; rewrite ?He, ?Hw, ?Hq', ?Hp'; try done.
    - intros e He'. by apply W6, Hrestq.
    - destruct W8 as [?|(? & ? & Hall)]; [by left|right].
      split; [done|]. split; [done|]. intros e He'. by apply Hall, Hrestq. }
  set (c' := expand json_loads max_depth diversity_bias c concept depth path
                    rest) in *.
  pose proof (λ rc, get_related_concepts_fresh json_loads self w concept depth
                      path rc) as Hfresh.
  rewrite Hcall in Hfresh. cbn [fst snd] in Hfresh.
  apply get_related_concepts_cases in Hcall
    as [(-> & Hself & -> & _)
       |(Hnew & Hd5 & Hs' & Hg' & _ & _ & Hreq & _ & Hrel)].
  - apply Permutation_nil_r in Hperm.
    assert (Eg : graph (explorer c') = graph (explorer c))
      by (by rewrite Hself).
    assert (Es : seen_concepts (explorer c') = seen_concepts (explorer c))
      by (by rewrite Hself).
    assert (Er : requests (world c') = requests (world c))
      by (by rewrite Hr').
    constructor; rewrite ?Hq', ?Hperm, ?Eg, ?Es, ?Er; try done.
    + intros e He'. by apply W6, Hrestq.
    + destruct W8 as [?|(? & ? & Hall)]; [by left|right].
      split; [done|]. split; [done|]. intros e He'. by apply Hall, Hrestq.
    + rewrite W9. unfold dispatched_concepts. by rewrite Er.
  - rewrite Hs in Hnew, Hs'. rewrite Hg in Hg'.
    pose proof Hfit as (Hcn & Hlen & _ & _ & Hlink & Hhead).
    cbn [fst snd] in Hcn, Hlen, Hlink, Hhead.
    constructor; rewrite ?Hq', ?Hg', ?Hs', ?Hr', ?Hreq, ?Hr, ?Hexp'; try done.
    + intros u v Huv. destruct (W3 u v Huv) as (? & ? & ? & ?).
      repeat split; try done. set_solver.
    + intros x [->%elem_of_singleton|Hx]%elem_of_union; [done|by apply W5].
    + intros e He'. by apply W6, Hrestq.
    + intros _. cbn [fst snd]. split; [done|]. split; [set_solver|].
      split; [done|]. split; [done|].
      intros rc Hrc. rewrite Hperm in Hrc.
      destruct (Hfresh rc Hrc) as (_ & Hrc' & _). by rewrite Hs' in Hrc'.
    + left. destruct W8 as [?|(_ & _ & Hall)]; [set_solver|].
      assert (Heq : (concept, depth, path) = (root, 0%Z, []))
        by (apply Hall; rewrite Hq; left).
      injection Heq as -> _ _. set_solver.
    + unfold dispatched_concepts. rewrite Hr', Hreq, Hr, fmap_app.
      rewrite list_to_set_app_L, W9. unfold dispatched_concepts. cbn.
      set_solver.
    + intros r [Hin| ->%list_elem_of_singleton]%elem_of_app.
      * by apply W10.
      * exists path. cbn. done.
Qed.

Lemma web_inv_step c :
  web_inv root max_depth c →
  web_inv root max_depth (step json_loads max_depth diversity_bias c).
Proof using All.
  intros Hinv. destruct (finished c) eqn:Hfin.
  { unfold step. by rewrite Hfin. }
  destruct (step_cases json_loads max_depth diversity_bias c Hfin)
    as [(rel & rest & Hp & ->)
       |[(concept & depth & path & rest & Hp & Hq & ->)|(Hp & Hq & ->)]].
  - by apply web_inv_add_related.
  - by apply web_inv_expand.
  - destruct Hinv as [W1 W2 W3 W4 W5 W6 W7 W8 W9 W10].
    destruct (finish_effect c) as (Hs & Hg & Hr & Hp' & Hq').
    constructor; rewrite ?Hs, ?Hg, ?Hr, ?Hp', ?Hq'; try done.
    + by intros e ?%elem_of_nil.
    + destruct W8 as [?|(? & ? & _)]; [by left|right].
      split; [done|]. split; [done|]. by intros e ?%elem_of_nil.
Qed.

End WebFacts.

Lemma filter_none {A} (f : A → bool) (l : list A) :
  (∀ x, x ∈ l → f x = false) → List.filter f l = [].
Proof.
  induction l as [|x l IH]; intros Hall; [done|]. simpl.
  rewrite (Hall x) by left. apply IH. intros y Hy. apply Hall. by right.
Qed.

(** A graph whose first node has no incoming edge, and whose other nodes
    all have one, has that node as its only root. *)
Lemma roots_single g root rest :
  NoDup (nodes g) → nodes g = root :: rest →
  (∀ u v, edge g u v → v ≠ root) →
  (∀ n, n ∈ nodes g → n = root ∨ ∃ u, edge g u n) →
  roots g = [root].
Proof.
  intros Hnd Hn Hroot Hfound. unfold roots. rewrite Hn in *.
  apply NoDup_cons in Hnd as [Hfresh _].
  cbn [List.filter].
  assert (Hin : ∀ n, in_degree g n = 0 ↔ ∀ u, ¬ edge g u n).
  { intros n. unfold in_degree, predecessors. rewrite length_fmap.
    split.
    - intros Hlen u Hu.
      assert (Hmem : (u, n) ∈ List.filter (λ e, bool_decide (e.2 = n))
                                          (edges g)).
      { apply filter_elem. split; [done|]. by apply bool_decide_eq_true_2. }
      destruct (List.filter _ (edges g)); [by apply elem_of_nil in Hmem|done].
    - intros Hno. rewrite filter_none; [done|].
      intros [u v] Huv. apply bool_decide_eq_false_2. intros Heq.
      simpl in Heq. subst v. by apply (Hno u). }
  assert (H0 : (in_degree g root =? 0)%nat = true).
  { apply Nat.eqb_eq, Hin. intros u Hu. by apply (Hroot u root). }
  rewrite H0. f_equal. apply filter_none. intros n Hn'.
  apply Nat.eqb_neq. rewrite Hin. intros Hno.
  destruct (Hfound n) as [->|[u Hu]]; [by right|done|by apply (Hno u)].
Qed.

Section RunFacts.
Variable json_loads : str → option (list json).
Variables (max_depth : Z) (diversity_bias : Q).
Variables (model root : str).
Variables (backend : nat → backend_reply) (random_values : nat → Q)
          (terminal_sizes : nat → Z * Z).

(** The configuration after [n] steps of a program run. *)
Let state (n : nat) : Config :=
  explore json_loads model root max_depth diversity_bias
          (new_world backend random_values terminal_sizes) n.

Lemma explore_web_inv n : web_inv root max_depth (state n).
Proof using All.
  unfold state, explore, new_explorer, build_concept_web.
  cbn [get_terminal_size new_world fst snd]. rewrite refresh_eq.
  apply run_invariant; [apply web_inv_step|].
  constructor; cbn.
  - apply NoDup_singleton.
  - by exists [].
  - intros u v Huv. by apply elem_of_nil in Huv.
  - intros n0 ->%list_elem_of_singleton. by left.
  - intros x Hx. set_solver.
  - intros e ->%list_elem_of_singleton. unfold entry_fits. cbn.
    repeat split; first [done|set_solver|lia].
  - done.
  - right. split; [done|]. split; [done|].
    by intros e ->%list_elem_of_singleton.
  - done.
  - intros r Hr. by apply elem_of_nil in Hr.
Qed.

Lemma explore_requests_inv n : requests_inv max_depth (state n).
Proof using All.
  unfold state.
  destruct (explore_start json_loads max_depth diversity_bias model root
              (new_world backend random_values terminal_sizes))
    as (c0 & Hrun & _ & _ & Hreq & _).
  rewrite Hrun. apply run_invariant; [apply requests_inv_step|].
  unfold requests_inv, dispatched_concepts. rewrite Hreq. simpl.
  split; [constructor|]. by intros r ?%elem_of_nil.
Qed.

(** Throughout a program run the seed concept is the one and only root
    of the graph: the nodes are distinct, every edge joins two nodes and
    none enters the seed, and every other node has an incoming edge. *)
Theorem explored_graph_rooted (n : nat) :
  let g := graph (explorer (state n)) in
  roots g = [root]
  ∧ NoDup (nodes g)
  ∧ (∀ u v, edge g u v → u ∈ nodes g ∧ v ∈ nodes g ∧ v ≠ root)
  ∧ (∀ x, x ∈ nodes g → x ≠ root → ∃ u, edge g u x).
Proof using All.
  destruct (explore_web_inv n) as [W1 W2 W3 W4 _ _ _ _ _ _]. cbv zeta.
  destruct W2 as [rest Hn].
  split; [|split; [done|split]].
  - eapply roots_single; [done|exact Hn| |done].
    intros u v Huv. by destruct (W3 u v Huv) as (_ & _ & ? & _).
  - intros u v Huv. by destruct (W3 u v Huv) as (? & ? & ? & _).
  - intros x Hx Hne. by destruct (W4 x Hx).
Qed.

(** The seen set is exactly the set of concepts sent to the backend; each
    of them is a node of the graph, so there are never more requests than
    nodes. *)
Theorem seen_is_dispatched (n : nat) :
  let c := state n in
  seen_concepts (explorer c) = list_to_set (dispatched_concepts (world c))
  ∧ (∀ x, x ∈ seen_concepts (explorer c) → x ∈ nodes (graph (explorer c)))
  ∧ length (requests (world c)) ≤ length (nodes (graph (explorer c))).
Proof using All.
  destruct (explore_web_inv n) as [_ _ _ _ W5 _ _ _ W9 _].
  destruct (explore_requests_inv n) as [Hnd _]. cbv zeta.
  split; [done|]. split; [done|].
  replace (length (requests (world (state n))))
    with (length (dispatched_concepts (world (state n))))
    by (unfold dispatched_concepts; by rewrite length_fmap).
  apply submseteq_length, NoDup_submseteq; [done|].
  intros x Hx. apply W5. rewrite W9. by apply elem_of_list_to_set.
Qed.

(** Every entry of the queue, and every request sent, carries the way
    from the seed to its concept: the path has as many labels as the
    depth, and the path followed by the concept starts at the seed and
    runs along edges of the graph.  No entry is deeper than 6, whatever
    [max_depth] is. *)
Theorem queue_paths_lead_from_root (n : nat) :
  let c := state n in
  (∀ concept depth path,
     (concept, depth, path) ∈ queue c →
     concept ∈ nodes (graph (explorer c))
     ∧ len path = depth ∧ (0 ≤ depth ≤ 6)%Z ∧ (depth ≤ Z.max 0 max_depth)%Z
     ∧ linked (graph (explorer c)) (path ++ [concept])
     ∧ head (path ++ [concept]) = Some root)
  ∧ (∀ r, r ∈ requests (world c) →
       ∃ path, req_path r = path ++ [req_concept r]
               ∧ len path = req_depth r
               ∧ linked (graph (explorer c)) (req_path r)
               ∧ head (req_path r) = Some root).
Proof using All.
  destruct (explore_web_inv n) as [_ _ _ _ _ W6 _ _ _ W10]. cbv zeta.
  split; [|done].
  intros concept depth path He.
  destruct (W6 _ He) as (H1 & H2 & H3 & H4 & H5 & H6).
  cbn [fst snd] in *. repeat split; try done. unfold len in H2. lia.
Qed.

End RunFacts.

(** ** The exploration ends *)

Lemma lex_lt_length l1 l2 : lex_lt l1 l2 → length l1 = length l2.
Proof.
  revert l2. induction l1 as [|x l1 IH]; intros [|y l2]; simpl; try done.
  intros [[_ ->]|[_ H]]; [done|]. by rewrite (IH _ H).
Qed.

Lemma lex_lt_wf : well_founded lex_lt.
Proof.
  assert (Hacc : ∀ n l, length l = n → Acc lex_lt l).
  { induction n as [|n IHn]; intros l Hl.
    - destruct l; [|done]. constructor. by intros [|??] ?.
    - destruct l as [|x t]; [done|]. injection Hl as Hl.
      revert t Hl. induction (lt_wf x) as [x _ IHx]. intros t Hl.
      induction (IHn t Hl) as [t _ IHt].
      constructor. intros [|y t'] Hlt; [done|].
      destruct Hlt as [[Hyx Hlen]|[-> Hlt]].
      + apply IHx; [done|]. by rewrite Hlen.
      + apply IHt; [done|]. by rewrite (lex_lt_length _ _ Hlt). }
  intros l. by eapply Hacc.
Qed.

Lemma lex_lt_levels (f f' : nat → nat) a n t t' :
  (∀ i, a ≤ i < a + n → f' i = f i) → lex_lt t' t →
  lex_lt ((f' <$> seq a n) ++ t') ((f <$> seq a n) ++ t).
Proof.
  revert a. induction n as [|n IH]; intros a Heq Ht; [done|].
  simpl. right. split; [apply Heq; lia|]. apply IH; [|done].
  intros i Hi. apply Heq. lia.
Qed.

Lemma lex_lt_level (f f' : nat → nat) a n t t' d :
  a ≤ d < a + n → (∀ i, a ≤ i < d → f' i = f i) → f' d < f d →
  length t' = length t →
  lex_lt ((f' <$> seq a n) ++ t') ((f <$> seq a n) ++ t).
Proof.
  revert a. induction n as [|n IH]; intros a Hd Heq Hlt Hlen; [lia|].
  simpl. destruct (decide (a = d)) as [->|Hne].
  - left. split; [done|]. by rewrite !length_app, !length_fmap, Hlen.
  - right. split; [apply Heq; lia|]. apply IH; try done; [lia|].
    intros i Hi. apply Heq. lia.
Qed.

Section Ends.
Variable json_loads : str → option (list json).
Variables (max_depth : Z) (diversity_bias : Q) (root : str).

Lemma weights_step c :
  web_inv root max_depth c → finished c = false →
  lex_lt (weights (step json_loads max_depth diversity_bias c)) (weights c).
Proof using All.
  intros Hinv Hfin.
  destruct (step_cases json_loads max_depth diversity_bias c Hfin)
    as [(rel & rest & Hp & ->)
       |[(concept & depth & path & rest & Hp & Hq & ->)|(Hp & Hq & ->)]].
  - pose proof (add_related_effect max_depth c rel rest) as He.
    destruct (expanding c) as [[concept depth] path] eqn:Hexp.
    destruct He as (_ & _ & _ & Hp' & Hexp' & Hfin' & Hq' & _).
    unfold weights. apply lex_lt_levels.
    + intros i _. unfold depth_count.
      rewrite Hq', Hexp', Hp', Hp, Hexp, List.filter_app, length_app.
      cbn [fst snd List.filter length].
      destruct (depth + 1 =? Z.of_nat i)%Z; simpl; lia.
    + rewrite Hp', Hp, Hfin', Hfin. simpl. left. split; [lia|done].
  - destruct (expand_effect json_loads max_depth diversity_bias c concept
                depth path rest) as (Hq' & Hexp' & Hfin' & _).
    destruct (web_queue _ _ _ Hinv (concept, depth, path))
      as (_ & Hlen & Hd6 & _); [rewrite Hq; left|].
    cbn [fst snd] in Hlen, Hd6. unfold len in Hlen.
    unfold weights.
    apply (lex_lt_level _ _ 0 7 _ _ (Z.to_nat depth)); [lia| | |done].
    + intros i Hi. unfold depth_count.
      rewrite Hq', Hexp', Hq, Hp. cbn [fst snd List.filter length].
      rewrite (proj2 (Z.eqb_neq depth (Z.of_nat i))) by lia.
      rewrite (proj2 (Z.eqb_neq (depth + 1) (Z.of_nat i))) by lia.
      destruct (_ =? _)%Z; lia.
    + unfold depth_count.
      rewrite Hq', Hexp', Hq, Hp. cbn [fst snd List.filter length].
      rewrite (proj2 (Z.eqb_eq depth (Z.of_nat (Z.to_nat depth)))) by lia.
      rewrite (proj2 (Z.eqb_neq (depth + 1) (Z.of_nat (Z.to_nat depth))))
        by lia.
      destruct (_ =? _)%Z; simpl; lia.
  - destruct (finish_effect c) as (_ & _ & _ & Hp' & Hq').
    assert (Hfin' : finished (finish c) = true).
    { unfold finish. by rewrite refresh_eq. }
    assert (Hexp' : expanding (finish c) = expanding c).
    { unfold finish. by rewrite refresh_eq. }
    unfold weights. apply lex_lt_levels.
    + intros i _. unfold depth_count. by rewrite Hq', Hp', Hq, Hp, Hexp'.
    + rewrite Hp', Hp, Hfin', Hfin. simpl. right. split; [done|].
      left. split; [lia|done].
Qed.

Lemma run_finishes c :
  web_inv root max_depth c →
  ∃ n, finished (run json_loads max_depth diversity_bias n c) = true.
Proof using All.
  remember (weights c) as m eqn:Hm. revert c Hm.
  induction (lex_lt_wf m) as [m _ IH]. intros c -> Hinv.
  destruct (finished c) eqn:Hfin; [by exists 0|].
  destruct (IH (weights (step json_loads max_depth diversity_bias c))
              (weights_step c Hinv Hfin) _ eq_refl
              (web_inv_step json_loads max_depth diversity_bias root c Hinv))
    as [n Hn].
  by exists (S n).
Qed.

Lemma finished_stable c m :
  finished c = true → run json_loads max_depth diversity_bias m c = c.
Proof.
  intros Hfin. induction m as [|m IH]; [done|]. simpl.
  unfold step. by rewrite Hfin.
Qed.

Lemma run_add n m c :
  run json_loads max_depth diversity_bias (n + m) c
  = run json_loads max_depth diversity_bias m
      (run json_loads max_depth diversity_bias n c).
Proof. revert c. induction n as [|n IH]; intros c; [done|]. apply IH. Qed.

(** Once the final display is done, nothing is left to do. *)
Lemma finished_idle c :
  (finished c = true → queue c = [] ∧ pending c = []
     ∧ current_concept (explorer c) = None
     ∧ last_added (explorer c) = None) →
  let c' := step json_loads max_depth diversity_bias c in
  finished c' = true → queue c' = [] ∧ pending c' = []
    ∧ current_concept (explorer c') = None
    ∧ last_added (explorer c') = None.
Proof.
  intros Hc. cbv zeta. destruct (finished c) eqn:Hfin.
  { unfold step. rewrite Hfin. intros _. by apply Hc. }
  destruct (step_cases json_loads max_depth diversity_bias c Hfin)
    as [(rel & rest & Hp & ->)
       |[(concept & depth & path & rest & Hp & Hq & ->)|(Hp & Hq & ->)]].
  - pose proof (add_related_effect max_depth c rel rest) as He.
    destruct (expanding c) as [[concept depth] path].
    destruct He as (_ & _ & _ & _ & _ & -> & _). done.
  - destruct (expand_effect json_loads max_depth diversity_bias c concept
                depth path rest) as (_ & _ & -> & _). done.
  - intros _. unfold finish. by rewrite refresh_eq.
Qed.

End Ends.

Section RunEnds.
Variable json_loads : str → option (list json).
Variables (max_depth : Z) (diversity_bias : Q).
Variables (model root : str).
Variables (backend : nat → backend_reply) (random_values : nat → Q)
          (terminal_sizes : nat → Z * Z).

Let state (n : nat) : Config :=
  explore json_loads model root max_depth diversity_bias
          (new_world backend random_values terminal_sizes) n.

(** Every program run ends, whatever the backend answers: after some
    number of steps the queue is empty, no candidate is pending, the final
    display is done with no concept marked as current or last added, and
    no further step changes anything.  The number of steps depends on the
    answers: no bound holds for all backends. *)
Theorem exploration_terminates :
  ∃ n, finished (state n) = true
       ∧ queue (state n) = [] ∧ pending (state n) = []
       ∧ current_concept (explorer (state n)) = None
       ∧ last_added (explorer (state n)) = None
       ∧ ∀ m, n ≤ m → state m = state n.
Proof using All.
  destruct (explore_start json_loads max_depth diversity_bias model root
              (new_world backend random_values terminal_sizes))
    as (c0 & Hrun & _ & _ & _ & _ & Hfin0).
  assert (Hinv0 : web_inv root max_depth c0).
  { specialize (Hrun 0). simpl in Hrun. rewrite <- Hrun.
    apply (explore_web_inv json_loads max_depth diversity_bias model root
             backend random_values terminal_sizes 0). }
  destruct (run_finishes json_loads max_depth diversity_bias root c0 Hinv0)
    as [n Hn].
  exists n. unfold state. rewrite Hrun. split; [done|].
  assert (Hidle : finished (run json_loads max_depth diversity_bias n c0)
                  = true →
    queue (run json_loads max_depth diversity_bias n c0) = []
    ∧ pending (run json_loads max_depth diversity_bias n c0) = []
    ∧ current_concept
        (explorer (run json_loads max_depth diversity_bias n c0)) = None
    ∧ last_added
        (explorer (run json_loads max_depth diversity_bias n c0)) = None).
  { apply (run_invariant json_loads max_depth diversity_bias
             (λ c, finished c = true → queue c = [] ∧ pending c = []
                ∧ current_concept (explorer c) = None
                ∧ last_added (explorer c) = None)).
    - intros c Hc. by apply finished_idle.
    - by rewrite Hfin0. }
  destruct (Hidle Hn) as (? & ? & ? & ?).
  repeat split; try done.
  intros m Hm. rewrite Hrun.
  replace m with (n + (m - n)) by lia.
  rewrite run_add. by apply finished_stable.
Qed.

End RunEnds.

(** ** The walk from the focus node up to the seed *)

Lemma predecessors_edge g c p : p ∈ predecessors g c ↔ edge g p c.
Proof.
  unfold predecessors, edge. rewrite list_elem_of_fmap. split.
  - intros ([u v] & -> & He). apply filter_elem in He as [He Hv].
    apply bool_decide_eq_true in Hv. simpl in *. by subst.
  - intros He. exists (p, c). split; [done|]. apply filter_elem.
    split; [done|]. by apply bool_decide_eq_true_2.
Qed.

Lemma successors_edge g u v : v ∈ successors g u ↔ edge g u v.
Proof.
  unfold successors, edge. rewrite list_elem_of_fmap. split.
  - intros ([a b] & -> & He). apply filter_elem in He as [He Hv].
    apply bool_decide_eq_true in Hv. simpl in *. by subst.
  - intros He. exists (u, v). split; [done|]. apply filter_elem.
    split; [done|]. by apply bool_decide_eq_true_2.
Qed.

Lemma edge_labels g u v : edge g u v → u ∈ labels g ∧ v ∈ labels g.
Proof.
  intros He. unfold labels. split.
  - apply elem_of_union_l, elem_of_union_r, elem_of_list_to_set.
    apply list_elem_of_fmap. by exists (u, v).
  - apply elem_of_union_r, elem_of_list_to_set.
    apply list_elem_of_fmap. by exists (u, v).
Qed.

Lemma linked_reach g u l x :
  linked g (u :: l) → x ∈ l → tc (edge g) u x.
Proof.
  revert u. induction l as [|v l IH]; intros u Hl Hx.
  { by apply elem_of_nil in Hx. }
  destruct Hl as [Huv Hl].
  apply elem_of_cons in Hx as [->|Hx]; [by apply tc_once|].
  eapply tc_l; [exact Huv|]. by apply IH.
Qed.

Lemma linked_tail g u l : linked g (u :: l) → linked g l.
Proof. destruct l as [|v l]; [done|]. by intros [_ ?]. Qed.

(** In a graph without cycles, a list that runs along edges repeats no
    label. *)
Lemma linked_NoDup g l : acyclic g → linked g l → NoDup l.
Proof.
  intros Hacyc. induction l as [|u l IH]; intros Hl; [constructor|].
  constructor; [|by eapply IH, linked_tail].
  intros Hu. by eapply Hacyc, linked_reach.
Qed.

Lemma linked_reverse_cons g c p rest :
  linked g (reverse (p :: rest)) → edge g p c →
  linked g (reverse (c :: p :: rest)).
Proof.
  rewrite !reverse_cons. intros Hl He. by apply linked_snoc.
Qed.

(** The [while current:] walk ends in a graph without cycles: enough fuel
    is the number of labels not yet passed.  The path starts at the focus
    node, climbs along edges, and stops at a label whose first
    predecessor is missing or empty. *)
Lemma walk_up g :
  acyclic g →
  ∀ fuel current visited,
    (∀ c v, current = Some c → v ∈ visited → tc (edge g) c v) →
    size (labels g ∖ visited) < fuel →
    ∃ path,
      path_to_highlight fuel g current = Some path
      ∧ head path = match current with
                    | Some ((_ :: _) as c) => Some c
                    | _ => None
                    end
      ∧ linked g (reverse path)
      ∧ (∀ x, x ∈ path → x ≠ [] ∧ (Some x = current ∨ ∃ y, edge g x y))
      ∧ (∀ l p, last path = Some l → head (predecessors g l) = Some p →
                p = []).
Proof.
  intros Hacyc. induction fuel as [|fuel IH]; intros current visited Hvis Hsize;
    [lia|].
  destruct current as [[|ch c']|]; cbn [path_to_highlight].
  2:{ set (c := ch :: c') in *.
      destruct (head (predecessors g c)) as [p|] eqn:Hp.
      2:{ exists [c]. split; [by destruct fuel|]. split; [reflexivity|].
          split; [done|]. split.
          - intros x ->%list_elem_of_singleton. split; [done|by left].
          - intros l p [= <-]. by rewrite Hp. }
      assert (Hpc : edge g p c).
      { apply predecessors_edge. destruct (predecessors g c); [done|].
        injection Hp as ->. left. }
      assert (Hnew : c ∉ visited).
      { intros Hc. by eapply Hacyc, Hvis. }
      destruct (IH (Some p) ({[c]} ∪ visited)) as (path & -> & Hh & Hl & He & Hlast).
      { intros ? v [= <-] [->%elem_of_singleton|Hv]%elem_of_union.
        - by apply tc_once.
        - eapply tc_l; [exact Hpc|]. by eapply Hvis. }
      { assert (size (labels g ∖ ({[c]} ∪ visited)) < size (labels g ∖ visited));
          [|lia].
        apply subset_size. split; [set_solver|].
        intros Hsub. assert (Hc : c ∈ labels g ∖ ({[c]} ∪ visited)).
        { apply Hsub, elem_of_difference. split; [|done].
          by destruct (edge_labels g p c Hpc). }
        set_solver. }
      exists (c :: path). cbn [fmap option_fmap option_map head].
      split; [done|]. split; [reflexivity|]. split; [|split].
      - destruct path as [|q rest]; [done|].
        destruct p as [|ph p']; [done|]. injection Hh as ->.
        by apply linked_reverse_cons.
      - intros x [->|Hx]%elem_of_cons; [split; [done|by left]|].
        destruct (He x Hx) as [Hne [[= ->]|Hy]]; (split; [done|right]);
          [by exists c|done].
      - intros l q. destruct path as [|q0 rest].
        + intros [= <-]. rewrite Hp. intros [= <-].
          by destruct p.
        + intros Hlast'. apply Hlast. by rewrite <- Hlast'. }
  all: exists []; split; [done|]; split; [done|]; split; [done|];
    split; [by intros x ?%elem_of_nil|done].
Qed.

(** ** The plain export has a line for every label on a way down *)

Lemma plain_children_extends emit total i children result r :
  plain_children emit total i children result = Some r →
  ∃ after, r = result ++ after.
Proof.
  revert i result. induction children as [|child rest IH];
    intros i result; simpl.
  { intros [= <-]. exists []. by rewrite app_nil_r. }
  destruct (emit child _) as [t|]; [|done]. simpl.
  intros [after ->]%IH. exists (t ++ after). by rewrite app_assoc.
Qed.

Lemma plain_children_member emit total i children result r y :
  plain_children emit total i children result = Some r → y ∈ children →
  ∃ is_last t before after,
    emit y is_last = Some t ∧ r = before ++ t ++ after.
Proof.
  revert i result. induction children as [|child rest IH];
    intros i result; simpl.
  { by intros _ ?%elem_of_nil. }
  destruct (emit child _) as [t|] eqn:Ht; [|done]. simpl.
  intros Hr [->|Hy]%elem_of_cons; [|by eapply IH].
  apply plain_children_extends in Hr as [after ->].
  exists (i =? total - 1)%nat, t, result, after.
  split; [done|]. by rewrite app_assoc.
Qed.

Lemma plain_tree_line g p :
  ∀ x fuel node prefix is_last visited text,
    linked g p → head p = Some node → last p = Some x → NoDup p →
    (∀ y, y ∈ p → y ∉ visited) →
    _plain_ascii_tree_fuel fuel g node prefix is_last visited = Some text →
    has_line text x.
Proof.
  induction p as [|a p IH];
    intros x fuel node prefix is_last visited text Hl Hh Hlast Hnd Hvis;
    [done|].
  injection Hh as ->. destruct fuel as [|fuel]; [done|].
  cbn [_plain_ascii_tree_fuel].
  rewrite bool_decide_eq_false_2 by (apply Hvis; left).
  destruct p as [|b p].
  - injection Hlast as ->. fold (plain_line prefix is_last x).
    case_bool_decide.
    + intros [= <-]. exists prefix, is_last, [], []. by rewrite app_nil_r.
    + intros [after ->]%plain_children_extends.
      by exists prefix, is_last, [], after.
  - destruct Hl as [Hab Hl]. apply NoDup_cons in Hnd as [Ha Hnd].
    rewrite bool_decide_eq_false_2.
    2:{ intros Hnil. apply successors_edge in Hab. rewrite Hnil in Hab.
        by apply elem_of_nil in Hab. }
    intros Hr.
    eapply (plain_children_member _ _ _ _ _ _ b) in Hr
      as (il & t & before & after & Ht & ->); [|by apply successors_edge].
    destruct (IH x fuel b (prefix ++ indent is_last) il ({[node]} ∪ visited) t)
      as (pf & il' & before' & after' & ->); try done.
    + intros y Hy [->%elem_of_singleton|Hv]%elem_of_union; [done|].
      apply (Hvis y); [by right|done].
    + exists pf, il', (before ++ before'), (after' ++ after).
      by rewrite <- !app_assoc.
Qed.

Section StepFacts.
Variable json_loads : str → option (list json).
Variables (max_depth : Z) (diversity_bias : Q).

(** Only the [for] loop changes the graph. *)
Lemma step_graph c :
  pending c = [] →
  graph (explorer (step json_loads max_depth diversity_bias c))
  = graph (explorer c).
Proof using All.
  intros Hp. destruct (finished c) eqn:Hfin.
  { unfold step. by rewrite Hfin. }
  destruct (step_cases json_loads max_depth diversity_bias c Hfin)
    as [(rel & rest & Hp' & _)
       |[(concept & depth & path & rest & _ & _ & ->)|(_ & _ & ->)]].
  - by rewrite Hp in Hp'.
  - destruct (expand_effect json_loads max_depth diversity_bias c concept
                depth path rest)
      as (_ & _ & _ & [(_ & -> & _)
                      |(_ & self & w & related & w' & Hg & _ & _ & _
                        & _ & Hcall & _)]); [done|].
    pose proof (get_related_concepts_frame json_loads self w concept depth
                  path) as Hframe.
    rewrite Hcall in Hframe. destruct Hframe as (-> & _). done.
  - by destruct (finish_effect c) as (_ & -> & _).
Qed.

Lemma named_inv_step c :
  named_inv c → named_inv (step json_loads max_depth diversity_bias c).
Proof using All.
  intros [He Hp]. destruct (finished c) eqn:Hfin.
  { unfold step. by rewrite Hfin. }
  destruct (step_cases json_loads max_depth diversity_bias c Hfin)
    as [(rel & rest & Hpc & Hstep)
       |[(concept & depth & path & rest & Hpc & Hq & Hstep)
        |(Hpc & Hq & Hstep)]].
  - rewrite Hstep.
    pose proof (add_related_effect max_depth c rel rest) as Heff.
    destruct (expanding c) as [[concept depth] path].
    destruct Heff as (_ & _ & _ & Hp' & _ & _ & _ & Hg).
    split.
    + rewrite Hg. intros u v [Huv|[_ ->]]%edge_add_edge.
      * apply (He u v). unfold edge in *.
        destruct (has_node _ _); by rewrite ?edges_add_node in Huv.
      * apply Hp. rewrite Hpc. left.
    + rewrite Hp'. intros rc Hrc. apply Hp. rewrite Hpc. by right.
  - split; [by rewrite step_graph|]. rewrite Hstep.
    destruct (expand_effect json_loads max_depth diversity_bias c concept
                depth path rest)
      as (_ & _ & _ & [(_ & _ & _ & ->)
                      |(_ & self & w & related & w' & _ & _ & _ & _
                        & _ & Hcall & _ & _ & Hperm)]).
    { by intros rc ?%elem_of_nil. }
    intros rc Hrc. rewrite Hperm in Hrc.
    pose proof (get_related_concepts_fresh json_loads self w concept depth
                  path rc) as Hfresh.
    rewrite Hcall in Hfresh.
    destruct (Hfresh Hrc) as (_ & _ & entry & _ & Hstrip & _).
    intros ->. by apply Hstrip.
  - split; [by rewrite step_graph|]. rewrite Hstep.
    destruct (finish_effect c) as (_ & _ & _ & -> & _).
    by intros rc ?%elem_of_nil.
Qed.

Lemma reachable_step root c :
  web_inv root max_depth c →
  reachable_from root (graph (explorer c)) →
  reachable_from root
    (graph (explorer (step json_loads max_depth diversity_bias c))).
Proof using All.
  intros Hinv Hreach.
  destruct (pending c) as [|rel rest] eqn:Hp; [by rewrite step_graph|].
  destruct (finished c) eqn:Hfin.
  { unfold step. by rewrite Hfin. }
  unfold step. rewrite Hfin, Hp.
  destruct (web_pending _ _ _ Hinv) as (Hfit & _); [by rewrite Hp|].
  pose proof (add_related_effect max_depth c rel rest) as Heff.
  destruct (expanding c) as [[concept depth] path].
  destruct Heff as (_ & _ & _ & _ & _ & _ & _ & Hg).
  destruct Hfit as (Hcn & _ & _ & _ & Hlink & Hhead).
  cbn [fst snd] in Hcn, Hlink, Hhead.
  destruct (add_related_graph (graph (explorer c)) concept rel Hcn)
    as [Hnodes Hedges].
  rewrite <- Hg in Hnodes, Hedges.
  assert (Hold : ∀ x, x ∈ nodes (graph (explorer c)) →
    ∃ p, linked (graph (explorer (add_related max_depth c rel rest))) p
         ∧ head p = Some root ∧ last p = Some x).
  { intros x Hx. destruct (Hreach x Hx) as (p & Hl & ? & ?).
    exists p. split; [|done]. eapply linked_mono; [|exact Hl].
    intros u v Huv. apply Hedges. by left. }
  intros x. rewrite Hnodes.
  case_bool_decide; [by apply Hold|].
  intros [Hx| ->%list_elem_of_singleton]%elem_of_app; [by apply Hold|].
  exists ((path ++ [concept]) ++ [rel]). split; [|split].
  - apply linked_snoc.
    + eapply linked_mono; [|exact Hlink]. intros u v Huv. apply Hedges.
      by left.
    + apply Hedges. by right.
  - rewrite <- app_assoc. by destruct path.
  - by rewrite last_snoc.
Qed.

End StepFacts.

Section RunShape.
Variable json_loads : str → option (list json).
Variables (max_depth : Z) (diversity_bias : Q).
Variables (model root : str).
Variables (backend : nat → backend_reply) (random_values : nat → Q)
          (terminal_sizes : nat → Z * Z).

Let state (n : nat) : Config :=
  explore json_loads model root max_depth diversity_bias
          (new_world backend random_values terminal_sizes) n.

Lemma explore_graph_inv n : graph_inv (state n).
Proof using All.
  unfold state.
  destruct (explore_start json_loads max_depth diversity_bias model root
              (new_world backend random_values terminal_sizes))
    as (c0 & Hrun & Hedges & _ & _ & Hpend & _).
  rewrite Hrun. apply run_invariant; [apply graph_inv_step|].
  split; [|split].
  - intros x Hx. destruct (tc_source _ _ _ Hx) as [y Hy].
    unfold edge in Hy. rewrite Hedges in Hy. by apply elem_of_nil in Hy.
  - intros u v Huv. unfold edge in Huv. rewrite Hedges in Huv.
    by apply elem_of_nil in Huv.
  - rewrite Hpend. by intros rc ?%elem_of_nil.
Qed.

Lemma explore_named_inv n : named_inv (state n).
Proof using All.
  unfold state.
  destruct (explore_start json_loads max_depth diversity_bias model root
              (new_world backend random_values terminal_sizes))
    as (c0 & Hrun & Hedges & _ & _ & Hpend & _).
  rewrite Hrun. apply run_invariant; [apply named_inv_step|].
  split.
  - intros u v Huv. unfold edge in Huv. rewrite Hedges in Huv.
    by apply elem_of_nil in Huv.
  - rewrite Hpend. by intros rc ?%elem_of_nil.
Qed.

Lemma explore_reachable n :
  reachable_from root (graph (explorer (state n))).
Proof using All.
  assert (Hboth : web_inv root max_depth (state n)
                  ∧ reachable_from root (graph (explorer (state n))));
    [|by destruct Hboth].
  unfold state, explore, new_explorer, build_concept_web.
  cbn [get_terminal_size new_world fst snd]. rewrite refresh_eq.
  apply (run_invariant json_loads max_depth diversity_bias
           (λ c, web_inv root max_depth c
                 ∧ reachable_from root (graph (explorer c)))).
  { intros c [Hw Hr]. split; [by apply web_inv_step|by apply reachable_step]. }
  split.
  - apply (explore_web_inv json_loads max_depth diversity_bias model root
             backend random_values terminal_sizes 0).
  - intros x Hx. cbn in Hx. apply list_elem_of_singleton in Hx as ->.
    by exists [root].
Qed.

(** The live display is drawn at every point of a run: the graph has the
    seed as root and no cycle, so the walk from a focus node of the graph
    up the first predecessors ends and the renderer returns a text, for
    every depth limit and terminal size, and whatever the other fields of
    the explorer are.  The focus node, when one is given, is a node of the
    graph, as it is at every call of the program. *)
Theorem live_display_defined (n : nat) (self : ConceptExplorer)
    (terminal : Z * Z) (focus_node : option str)
    (max_display_depth : option Z) :
  (∀ focus, focus_node = Some focus →
            focus ∈ nodes (graph (explorer (state n)))) →
  ∃ tree_text,
    (update_live_tree (set_graph self (graph (explorer (state n)))) terminal
                      focus_node max_display_depth).2
    = Tree tree_text.
Proof using All.
  intros _.
  destruct (explore_graph_inv n) as (Hacyc & _).
  destruct (explore_web_inv json_loads max_depth diversity_bias model root
              backend random_values terminal_sizes n)
    as [W1 [rest Hn] W3 W4 _ _ _ _ _ _].
  fold (state n) in *.
  assert (Hroots : roots (graph (explorer (state n))) = [root]).
  { eapply roots_single; [done|exact Hn| |done].
    intros u v Huv. by destruct (W3 u v Huv) as (_ & _ & ? & _). }
  unfold update_live_tree. cbn [snd set_terminal set_graph graph term_height].
  rewrite Hroots.
  set (g := graph (explorer (state n))) in *.
  assert (Hpath : ∃ path,
    (if truthy focus_node then path_to_highlight (tree_fuel g) g focus_node
     else Some []) = Some path).
  { destruct (truthy focus_node); [|by exists []].
    destruct (walk_up g Hacyc (tree_fuel g) focus_node ∅)
      as (path & -> & _); [set_solver| |by exists path].
    unfold tree_fuel.
    assert (size (labels g ∖ ∅) ≤ size (labels g))
      by (apply subseteq_size; set_solver).
    lia. }
  destruct Hpath as [path ->].
  match goal with
  | |- context [_generate_ascii_tree ?s ?r ?f ?d ?h] =>
      destruct (generate_fuel_total s (tree_fuel (graph s)) r [] true ∅ f d
                  0 h 0) as [t Ht]
  end.
  { unfold tree_fuel.
    match goal with
    | |- size (labels ?x ∖ ∅) < _ =>
        assert (size (labels x ∖ ∅) ≤ size (labels x))
          by (apply subseteq_size; set_solver)
    end.
    lia. }
  unfold _generate_ascii_tree. rewrite Ht. by exists t.
Qed.

(** The path highlighted for a focus node leads to the seed: in a run
    with a named seed, the walk from a named node of the graph up the
    first predecessors returns a path that starts at the node, ends at the
    seed, climbs along edges of the graph and passes no label twice. *)
Theorem focus_path_reaches_seed (n : nat) (focus : str) :
  let g := graph (explorer (state n)) in
  focus ∈ nodes g → focus ≠ [] → root ≠ [] →
  ∃ path,
    path_to_highlight (tree_fuel g) g (Some focus) = Some path
    ∧ head path = Some focus ∧ last path = Some root
    ∧ linked g (reverse path) ∧ NoDup path
    ∧ length path ≤ length (nodes g).
Proof using All.
  cbv zeta. intros Hfocus Hne Hroot.
  destruct (explore_graph_inv n) as (Hacyc & _).
  destruct (explore_named_inv n) as (Hnamed & _).
  destruct (explore_web_inv json_loads max_depth diversity_bias model root
              backend random_values terminal_sizes n)
    as [W1 [rest Hn] W3 W4 _ _ _ _ _ _].
  fold (state n) in *.
  set (g := graph (explorer (state n))) in *.
  destruct (walk_up g Hacyc (tree_fuel g) (Some focus) ∅)
    as (path & Hpath & Hh & Hl & He & Hlast); [set_solver| |].
  { unfold tree_fuel.
    assert (size (labels g ∖ ∅) ≤ size (labels g))
      by (apply subseteq_size; set_solver).
    lia. }
  assert (Hnodes : ∀ x, x ∈ path → x ∈ nodes g).
  { intros x Hx. destruct (He x Hx) as [_ [[= ->]|[y Hy]]]; [done|].
    by destruct (W3 x y Hy). }
  assert (Hnd : NoDup path).
  { rewrite <- (reverse_Permutation path). by eapply linked_NoDup. }
  exists path. split; [done|].
  split; [by destruct focus|].
  split; [|split; [done|split; [done|]]].
  - destruct (last path) as [l|] eqn:Hlp.
    2:{ apply last_None in Hlp. subst path. by destruct focus. }
    assert (Hin : l ∈ path).
    { apply last_Some in Hlp as [l' ->]. set_solver. }
    destruct (W4 l (Hnodes l Hin)) as [->|[u Hu]]; [done|].
    exfalso.
    destruct (predecessors g l) as [|p ps] eqn:Hpred.
    { apply predecessors_edge in Hu. rewrite Hpred in Hu.
      by apply elem_of_nil in Hu. }
    assert (Hp : p = []) by (eapply Hlast; [done|by rewrite Hpred]).
    subst p.
    assert (Hedge : edge g [] l) by (apply predecessors_edge; rewrite Hpred; left).
    destruct (W3 [] l Hedge) as (Hin' & _).
    destruct (W4 [] Hin') as [Heq|[u' Hu']]; [by subst root|].
    by apply (Hnamed u' []).
  - apply submseteq_length, NoDup_submseteq; [done|]. exact Hnodes.
Qed.

(** The export is written at every point of a run: its first line is the
    seed, and every concept of the graph has a line of its own. *)
Theorem export_lists_every_concept (n : nat) :
  ∃ text,
    export_ascii_tree (explorer (state n)) = Some text
    ∧ (∃ rest, text = plain_line [] true root ++ rest)
    ∧ ∀ x, x ∈ nodes (graph (explorer (state n))) → has_line text x.
Proof using All.
  destruct (explore_graph_inv n) as (Hacyc & _).
  destruct (explore_web_inv json_loads max_depth diversity_bias model root
              backend random_values terminal_sizes n)
    as [W1 [rest Hn] W3 W4 _ _ _ _ _ _].
  fold (state n) in *.
  assert (Hroots : roots (graph (explorer (state n))) = [root]).
  { eapply roots_single; [done|exact Hn| |done].
    intros u v Huv. by destruct (W3 u v Huv) as (_ & _ & ? & _). }
  unfold export_ascii_tree. rewrite Hroots.
  set (g := graph (explorer (state n))) in *.
  destruct (plain_ascii_tree_total g root) as [text Ht].
  exists text. split; [done|]. unfold _plain_ascii_tree in Ht.
  split.
  - unfold tree_fuel in Ht. cbn [_plain_ascii_tree_fuel] in Ht.
    rewrite bool_decide_eq_false_2 in Ht by set_solver.
    fold (plain_line [] true root) in Ht.
    case_bool_decide; [injection Ht as <-; exists []; by rewrite app_nil_r|].
    by apply plain_children_extends in Ht.
  - intros x Hx.
    destruct (explore_reachable n x Hx) as (p & Hl & Hh & Hlast).
    eapply plain_tree_line; [exact Hl|exact Hh|exact Hlast| | |exact Ht].
    + by eapply linked_NoDup.
    + set_solver.
Qed.

End RunShape.

Lemma live_display_defined_witness :
  let c := explore chain_decoder (py "llama3") (py "root") 300 (4 # 5)
                   chain_world 6 in
  numbered 2 ∈ nodes (graph (explorer c))
  ∧ ∃ tree_text,
      (update_live_tree (set_graph (explorer c) (graph (explorer c)))
                        (80, 24)%Z (Some (numbered 2)) (Some 4%Z)).2
      = Tree tree_text.
Proof.
  cbv zeta.
  assert (Hfocus : numbered 2
                   ∈ nodes (graph (explorer
                       (explore chain_decoder (py "llama3") (py "root") 300
                                (4 # 5) chain_world 6)))).
  { apply (bool_decide_unpack _). vm_compute. exact I. }
  split; [exact Hfocus|].
  apply (live_display_defined chain_decoder 300 (4 # 5) (py "llama3")
           (py "root")
           (λ k, mkReply [py "llama3"] (Some (json_array_text [numbered k])))
           (λ _, 1 # 2) (λ _, (80, 24)%Z) 6).
  intros focus [= <-]. exact Hfocus.
Defined.

Lemma focus_path_reaches_seed_witness :
  let g := graph (explorer (explore chain_decoder (py "llama3") (py "root")
                                    300 (4 # 5) chain_world 6)) in
  ∃ path,
    path_to_highlight (tree_fuel g) g (Some (numbered 2)) = Some path
    ∧ head path = Some (numbered 2) ∧ last path = Some (py "root")
    ∧ linked g (reverse path) ∧ NoDup path
    ∧ length path ≤ length (nodes g).
Proof.
  apply (focus_path_reaches_seed chain_decoder 300 (4 # 5) (py "llama3")
           (py "root")
           (λ k, mkReply [py "llama3"] (Some (json_array_text [numbered k])))
           (λ _, 1 # 2) (λ _, (80, 24)%Z) 6 (numbered 2)).
  - apply (bool_decide_unpack _). vm_compute. exact I.
  - discriminate.
  - discriminate.
Defined.

(** ** Breadth first *)

Section BreadthFirst.
Variable json_loads : str → option (list json).
Variables (max_depth : Z) (diversity_bias : Q).

(** What the head of an iteration does to the oracles: without a request
    no candidate is pending and no random value is drawn. *)
Lemma expand_oracles c concept depth path rest :
  let c' := expand json_loads max_depth diversity_bias c concept depth path
                   rest in
  (requests (world c') = requests (world c)
   ∧ draws (world c') = draws (world c) ∧ pending c' = [])
  ∨ (requests (world c')
     = requests (world c) ++ [mkRequest concept depth (path ++ [concept])]
     ∧ draws (world c') ≤ S (draws (world c))).
Proof using All.
  cbv zeta. unfold expand.
  destruct (max_depth <=? depth)%Z; [by left|].
  rewrite refresh_eq.
  generalize (set_terminal (explorer c)
                (terminal_sizes (world c) (size_queries (world c)))).
  intros self.
  assert (Hw : requests (get_terminal_size (world c)).2 = requests (world c)
               ∧ draws (get_terminal_size (world c)).2 = draws (world c))
    by done.
  destruct Hw as [Hwr Hwd]. revert Hwr Hwd.
  generalize ((get_terminal_size (world c)).2). intros w Hwr Hwd.
  destruct (decide (concept ∈ seen_concepts self ∨ (5 < depth)%Z))
    as [Hg|Hg].
  - rewrite get_related_concepts_guard by done. left.
    unfold apply_diversity_bias.
    rewrite bool_decide_eq_true_2 by done. by rewrite andb_false_r.
  - rewrite get_related_concepts_dispatch by (try lia; tauto).
    cbv zeta. right. unfold apply_diversity_bias.
    destruct (Qltb 0 diversity_bias && _).
    + cbn [random_random]. destruct (Qltb _ _); simpl; rewrite Hwr, Hwd;
        (split; [done|lia]).
    + simpl. rewrite Hwr, Hwd. split; [done|lia].
Qed.

Lemma bfs_inv_step c :
  bfs_inv c → bfs_inv (step json_loads max_depth diversity_bias c).
Proof using All.
  intros [B1 B2 B3 B4 B5 B6 B7]. destruct (finished c) eqn:Hfin.
  { unfold step. by rewrite Hfin. }
  destruct (step_cases json_loads max_depth diversity_bias c Hfin)
    as [(rel & rest & Hp & ->)
       |[(concept & depth & path & rest & Hp & Hq & ->)|(Hp & Hq & ->)]].
  - pose proof (add_related_effect max_depth c rel rest) as He.
    assert (Hd : draws (world (add_related max_depth c rel rest))
                 = draws (world c)).
    { unfold add_related. destruct (expanding c) as [[? ?] ?].
      by rewrite refresh_eq. }
    destruct (expanding c) as [[concept depth] path] eqn:Hexp.
    destruct He as (_ & Hr & _ & Hp' & Hexp' & _ & Hq' & _).
    assert (Hne : pending c ≠ []) by (by rewrite Hp).
    specialize (B3 Hne). specialize (B6 Hne). cbn [fst snd] in B3, B6.
    assert (Hqd : queue_depths (add_related max_depth c rel rest)
                  = queue_depths c ++ [(depth + 1)%Z]).
    { unfold queue_depths. by rewrite Hq', fmap_app. }
    unfold request_depths in *.
    constructor; unfold request_depths;
      rewrite ?Hqd, ?Hr, ?Hexp', ?Hd; cbn [fst snd]; try done.
    + apply StronglySorted_app. split; [|split; [done|]].
      * intros a b Ha ->%list_elem_of_singleton. specialize (B3 a Ha). lia.
      * repeat constructor.
    + intros a b [Ha| ->%list_elem_of_singleton]%elem_of_app
                 [Hb| ->%list_elem_of_singleton]%elem_of_app.
      * by apply B2.
      * specialize (B3 a Ha). lia.
      * specialize (B3 b Hb). lia.
      * lia.
    + intros _ a [Ha| ->%list_elem_of_singleton]%elem_of_app;
        [by apply B3|lia].
    + intros r a Hr' [Ha| ->%list_elem_of_singleton]%elem_of_app;
        [by apply B5|].
      specialize (B6 r Hr'). lia.
  - destruct (expand_effect json_loads max_depth diversity_bias c concept
                depth path rest) as (Hq' & Hexp' & _ & _).
    assert (Hqd : queue_depths c = depth :: queue_depths
                    (expand json_loads max_depth diversity_bias c concept
                            depth path rest)).
    { unfold queue_depths. by rewrite Hq', Hq. }
    rewrite Hqd in B1, B2, B5.
    apply StronglySorted_cons in B1 as [Hle B1].
    rewrite Forall_forall in Hle.
    assert (Hspan : ∀ a,
      a ∈ queue_depths (expand json_loads max_depth diversity_bias c concept
                               depth path rest) →
      (depth ≤ a ≤ depth + 1)%Z).
    { intros a Ha. split; [by apply Hle|].
      apply B2; [left|by right]. }
    destruct (expand_oracles c concept depth path rest)
      as [(Hr & Hd & Hp')|(Hr & Hd)].
    + unfold request_depths in *.
      constructor; unfold request_depths;
        rewrite ?Hr, ?Hd, ?Hp', ?Hexp'; try done.
      * intros a b Ha Hb. apply B2; by right.
      * intros r a Hr' Ha. apply B5; [done|by right].
    + unfold request_depths in *.
      constructor; unfold request_depths;
        rewrite ?Hr, ?Hexp', ?fmap_app, ?length_app;
        cbn [fst snd fmap list_fmap req_depth length]; try done.
      * intros a b Ha Hb. apply B2; by right.
      * apply StronglySorted_app. split; [|split; [done|]].
        -- intros r b Hr' ->%list_elem_of_singleton. apply B5; [done|left].
        -- repeat constructor.
      * intros r a [Hr'| ->%list_elem_of_singleton]%elem_of_app Ha.
        -- apply B5; [done|by right].
        -- by apply Hspan.
      * intros _ r [Hr'| ->%list_elem_of_singleton]%elem_of_app; [|lia].
        apply B5; [done|left].
      * lia.
  - destruct (finish_effect c) as (_ & _ & Hr & Hp' & Hq').
    assert (Hd : draws (world (finish c)) = draws (world c)).
    { unfold finish. by rewrite refresh_eq. }
    unfold queue_depths, request_depths in *.
    constructor; unfold queue_depths, request_depths;
      rewrite ?Hr, ?Hp', ?Hq', ?Hd; try done.
    + constructor.
    + by intros a b ?%elem_of_nil.
    + by intros r a _ ?%elem_of_nil.
Qed.

End BreadthFirst.

Section RunOrder.
Variable json_loads : str → option (list json).
Variables (max_depth : Z) (diversity_bias : Q).
Variables (model root : str).
Variables (backend : nat → backend_reply) (random_values : nat → Q)
          (terminal_sizes : nat → Z * Z).

Let state (n : nat) : Config :=
  explore json_loads model root max_depth diversity_bias
          (new_world backend random_values terminal_sizes) n.

(** The exploration is breadth first: at every point of a run the
    requests have been sent in order of depth, the depths of the queue
    never decrease from front to back and differ by at most one, no
    waiting entry is shallower than a request already sent, and the
    random generator has been consulted at most once per request. *)
Theorem requests_breadth_first (n : nat) :
  let c := state n in
  StronglySorted Z.le (request_depths (world c))
  ∧ StronglySorted Z.le (queue_depths c)
  ∧ (∀ a b, a ∈ queue_depths c → b ∈ queue_depths c → (b ≤ a + 1)%Z)
  ∧ (∀ r a, r ∈ request_depths (world c) → a ∈ queue_depths c → (r ≤ a)%Z)
  ∧ draws (world c) ≤ length (requests (world c)).
Proof using All.
  assert (Hinv : bfs_inv (state n)).
  { unfold state, explore, new_explorer, build_concept_web.
    cbn [get_terminal_size new_world fst snd]. rewrite refresh_eq.
    apply run_invariant; [apply bfs_inv_step|].
    constructor; cbn; try done.
    - repeat constructor.
    - intros a b ->%list_elem_of_singleton ->%list_elem_of_singleton. lia.
    - constructor.
    - by intros r a ?%elem_of_nil. }
  by destruct Hinv.
Qed.

End RunOrder.

(** ** The line of a node *)

Lemma depth_color_listed k :
  nth (Nat.min k (length depth_colors - 1)) depth_colors [] ∈ depth_colors.
Proof.
  apply list_elem_of_In, nth_In. change (length depth_colors) with 6. lia.
Qed.

(** A label that does not fit is cut so that prefix, connector and label
    stay five columns inside the terminal width, as long as three columns
    are left for the label.  The style is chosen by comparing the label
    after the cut, so a current concept whose label is cut is not
    highlighted as current. *)
Theorem color_node_fits (self : ConceptExplorer) (node prefix : str)
    (is_last : bool) (current_depth : nat) :
  let available_width :=
    (term_width self - len prefix - len (connector is_last) - 5)%Z in
  let label :=
    if (available_width <? len node)%Z
    then take (Z.to_nat (available_width - 3)) node ++ py "..."
    else node in
  (3 ≤ available_width)%Z →
  (len prefix + len (connector is_last) + len label ≤ term_width self - 5)%Z
  ∧ ((available_width < len node)%Z → label ≠ node)
  ∧ ∃ style,
      _color_node self node prefix is_last current_depth
      = prefix ++ Fore_CYAN ++ connector is_last ++ style ++ label
        ++ Style_RESET_ALL
      ∧ style ∈ style_current :: style_last_added :: style_root
                :: depth_colors
      ∧ (style = style_current ↔ current_concept self = Some label).
Proof.
  cbv zeta. intros Hw.
  set (available_width :=
         (term_width self - len prefix - len (connector is_last) - 5)%Z) in *.
  assert (Hcut : slice_to node (available_width - 3)
                 = take (Z.to_nat (available_width - 3)) node).
  { unfold slice_to, norm_index.
    rewrite (proj2 (Z.ltb_ge (available_width - 3) 0)) by lia.
    destruct (Z.le_ge_cases (available_width - 3) (Z.of_nat (length node))).
    - by rewrite Z.min_l.
    - rewrite Z.min_r, Nat2Z.id by lia. rewrite !take_ge; [done|lia|lia]. }
  unfold _color_node. fold available_width. rewrite Hcut.
  set (label := if (available_width <? len node)%Z
                then take (Z.to_nat (available_width - 3)) node ++ py "..."
                else node).
  assert (Hlen : (len label ≤ available_width)%Z).
  { unfold label. destruct (Z.ltb_spec available_width (len node)); [|done].
    unfold len in *. rewrite length_app, length_take.
    change (length (py "...")) with 3. lia. }
  split; [unfold available_width in Hlen; lia|]. split.
  { intros Hlong Heq. rewrite Heq in Hlen. lia. }
  case_bool_decide as Hcur.
  { exists style_current. unfold style_current.
    rewrite <- !app_assoc. split; [done|]. split; [left|done]. }
  case_bool_decide as Hlast.
  { exists style_last_added. unfold style_last_added.
    rewrite <- !app_assoc. split; [done|]. split; [right; left|].
    split; [done|]. by intros ?. }
  destruct (current_depth =? 0)%nat.
  { exists style_root. unfold style_root.
    rewrite <- !app_assoc. split; [done|]. split; [do 2 right; left|].
    split; [done|]. by intros ?. }
  exists (nth (Nat.min current_depth (length depth_colors - 1)) depth_colors
              []).
  split; [done|]. split; [do 3 right; apply depth_color_listed|].
  split; [|by intros ?].
  intros Heq. exfalso.
  pose proof (depth_color_listed current_depth) as Hin. rewrite Heq in Hin.
  revert Hin. clear. vm_compute. intros Hin.
  repeat (apply elem_of_cons in Hin as [Hin|Hin]; [done|]).
  by apply elem_of_nil in Hin.
Qed.

Lemma color_node_fits_witness :
  let self := showing (chain (py "A") (py "B") (py "C")) 20 24 in
  let node := py "a rather long label" in
  let available_width :=
    (term_width self - len (indent true) - len (connector true) - 5)%Z in
  let label :=
    if (available_width <? len node)%Z
    then take (Z.to_nat (available_width - 3)) node ++ py "..."
    else node in
  (len (indent true) + len (connector true) + len label
   ≤ term_width self - 5)%Z
  ∧ ((available_width < len node)%Z → label ≠ node)
  ∧ ∃ style,
      _color_node self node (indent true) true 1
      = indent true ++ Fore_CYAN ++ connector true ++ style ++ label
        ++ Style_RESET_ALL
      ∧ style ∈ style_current :: style_last_added :: style_root
                :: depth_colors
      ∧ (style = style_current ↔ current_concept self = Some label).
Proof.
  apply (color_node_fits (showing (chain (py "A") (py "B") (py "C")) 20 24)
           (py "a rather long label") (indent true) true 1).
  vm_compute. discriminate.
Defined.

(** ** Nothing within the depth limit is left out *)

Section Frontier.
Variable json_loads : str → option (list json).
Variables (max_depth : Z) (diversity_bias : Q).

Lemma frontier_inv_step c :
  frontier_inv max_depth c →
  frontier_inv max_depth (step json_loads max_depth diversity_bias c).
Proof using All.
  intros [He Hp]. destruct (finished c) eqn:Hfin.
  { unfold step. by rewrite Hfin. }
  pose proof (seen_concepts_step json_loads max_depth diversity_bias c)
    as Hseen.
  destruct (step_cases json_loads max_depth diversity_bias c Hfin)
    as [(rel & rest & Hpc & Hstep)
       |[(concept & depth & path & rest & Hpc & Hq & Hstep)
        |(Hpc & Hq & Hstep)]].
  - rewrite Hstep in *.
    pose proof (add_related_effect max_depth c rel rest) as Heff.
    destruct (expanding c) as [[concept depth] path] eqn:Hexp.
    destruct Heff as (_ & Hr & _ & Hp' & Hexp' & _ & Hq' & Hg).
    destruct Hp as (r0 & Hr0 & Hc0 & Hd0); [by rewrite Hpc|].
    cbn [fst snd] in Hc0, Hd0.
    split.
    + rewrite Hg, Hr, Hq'. intros u v [Huv|[-> ->]]%edge_add_edge.
      * assert (Huv' : edge (graph (explorer c)) u v).
        { unfold edge in *.
          destruct (has_node _ _); by rewrite ?edges_add_node in Huv. }
        destruct (He u v Huv') as (r & ? & ? & [?|[?|[p ?]]]);
          exists r; (split; [done|]); (split; [done|]).
        -- left. by apply Hseen.
        -- by right; left.
        -- right; right. exists p. set_solver.
      * exists r0. split; [done|]. split; [done|]. right; right.
        exists (path ++ [concept]). rewrite Hd0. set_solver.
    + rewrite Hr, Hexp'. intros _. by exists r0.
  - pose proof (step_graph json_loads max_depth diversity_bias c Hpc) as Hg.
    rewrite Hstep in *.
    destruct (expand_effect json_loads max_depth diversity_bias c concept
                depth path rest)
      as (Hq' & Hexp' & _ & Hcases).
    assert (Hpopped : concept ∈ seen_concepts
                        (explorer (expand json_loads max_depth diversity_bias
                                          c concept depth path rest))
                      ∨ too_deep max_depth depth).
    { destruct Hcases as [(? & _)
                         |(_ & self & w & related & w' & _ & Hs & _ & _ & _
                           & Hcall & _)].
      { right. by left. }
      apply get_related_concepts_cases in Hcall
        as [(_ & -> & _ & [?|?])|(_ & _ & -> & _)].
      - by left.
      - right. by right.
      - left. set_solver. }
    destruct (expand_oracles json_loads max_depth diversity_bias c concept
                depth path rest) as [(Hr & _ & Hp')|(Hr & _)].
    + split; [|by rewrite Hp'].
      rewrite Hg, Hr, Hq'. intros u v Huv.
      destruct (He u v Huv) as (r & ? & ? & [?|[?|[p Hin]]]);
        exists r; (split; [done|]); (split; [done|]).
      * left. by apply Hseen.
      * by right; left.
      * rewrite Hq in Hin. apply elem_of_cons in Hin as [[= -> Hd ->]|Hin].
        -- rewrite Hd. destruct Hpopped; [by left|by right; left].
        -- right; right. by exists p.
    + split.
      * rewrite Hg, Hr, Hq'. intros u v Huv.
        destruct (He u v Huv) as (r & ? & ? & [?|[?|[p Hin]]]);
          exists r; (split; [set_solver|]); (split; [done|]).
        -- left. by apply Hseen.
        -- by right; left.
        -- rewrite Hq in Hin.
           apply elem_of_cons in Hin as [[= -> Hd ->]|Hin].
           ++ rewrite Hd. destruct Hpopped; [by left|by right; left].
           ++ right; right. by exists p.
      * intros _. rewrite Hr, Hexp'.
        exists (mkRequest concept depth (path ++ [concept])).
        split; [set_solver|done].
  - pose proof (step_graph json_loads max_depth diversity_bias c Hpc) as Hg.
    rewrite Hstep in *.
    destruct (finish_effect c) as (_ & _ & Hr & Hp' & Hq').
    split; [|by rewrite Hp'].
    rewrite Hg, Hr, Hq'. intros u v Huv.
    destruct (He u v Huv) as (r & ? & ? & [?|[?|[p Hin]]]);
      exists r; (split; [done|]); (split; [done|]).
    + left. by apply Hseen.
    + by right; left.
    + rewrite Hq in Hin. by apply elem_of_nil in Hin.
Qed.

End Frontier.

Section RunFrontier.
Variable json_loads : str → option (list json).
Variables (max_depth : Z) (diversity_bias : Q).
Variables (model root : str).
Variables (backend : nat → backend_reply) (random_values : nat → Q)
          (terminal_sizes : nat → Z * Z).

Let state (n : nat) : Config :=
  explore json_loads model root max_depth diversity_bias
          (new_world backend random_values terminal_sizes) n.

(** Nothing within the depth limit is left out: at every point of a run
    each edge leaves a concept that was requested, at some depth d, and
    the concept it leads to has been requested too, unless d + 1 reaches
    [max_depth] or exceeds 5, or the concept still waits in the queue at
    depth d + 1.  When the run has ended the queue is empty, so every
    concept found above the limit has been asked about. *)
Theorem exploration_complete (n : nat) (u v : str) :
  let c := state n in
  edge (graph (explorer c)) u v →
  ∃ r, r ∈ requests (world c) ∧ req_concept r = u
       ∧ (v ∈ dispatched_concepts (world c)
          ∨ (max_depth ≤ req_depth r + 1)%Z ∨ (5 < req_depth r + 1)%Z
          ∨ ∃ path, (v, (req_depth r + 1)%Z, path) ∈ queue c).
Proof using All.
  cbv zeta. intros Huv.
  assert (Hinv : frontier_inv max_depth (state n)).
  { unfold state, explore, new_explorer, build_concept_web.
    cbn [get_terminal_size new_world fst snd]. rewrite refresh_eq.
    apply run_invariant; [apply frontier_inv_step|].
    split; cbn; [|done].
    intros x y Hxy. by apply elem_of_nil in Hxy. }
  destruct Hinv as [He _].
  destruct (He u v Huv) as (r & Hr & Hu & Hv). exists r.
  split; [done|]. split; [done|].
  destruct Hv as [Hs|[[?|?]|?]]; [left|tauto|tauto|tauto].
  pose proof (web_dispatched _ _ _
                (explore_web_inv json_loads max_depth diversity_bias model
                   root backend random_values terminal_sizes n)) as Hd.
  fold (state n) in Hd. rewrite Hd in Hs. by apply elem_of_list_to_set in Hs.
Qed.

End RunFrontier.

Lemma exploration_complete_witness :
  let c := explore chain_decoder (py "llama3") (py "root") 3 (4 # 5)
                   chain_world 20 in
  ∃ r, r ∈ requests (world c) ∧ req_concept r = numbered 1
       ∧ (numbered 2 ∈ dispatched_concepts (world c)
          ∨ (3 ≤ req_depth r + 1)%Z ∨ (5 < req_depth r + 1)%Z
          ∨ ∃ path, (numbered 2, (req_depth r + 1)%Z, path) ∈ queue c).
Proof.
  apply (exploration_complete chain_decoder 3 (4 # 5) (py "llama3")
           (py "root")
           (λ k, mkReply [py "llama3"] (Some (json_array_text [numbered k])))
           (λ _, 1 # 2) (λ _, (80, 24)%Z) 20 (numbered 1) (numbered 2)).
  unfold edge. apply (bool_decide_unpack _). vm_compute. exact I.
Defined.

(** ** The order of the children *)

Lemma insert_by_key_first {A} (key : A → nat) x l :
  key x = 0 → insert_by_key key x l = x :: l.
Proof. intros Hx. destruct l as [|y l]; [done|]. simpl. by rewrite Hx. Qed.

Lemma insert_by_key_behind {A} (key : A → nat) x front back :
  key x = 1 → (∀ y, y ∈ front → key y = 0) → (∀ y, y ∈ back → 1 ≤ key y) →
  insert_by_key key x (front ++ back) = front ++ x :: back.
Proof.
  intros Hx Hfront Hback. induction front as [|y front IH].
  - destruct back as [|y back]; [done|]. simpl. rewrite Hx.
    assert (Hy : 1 ≤ key y) by (apply Hback; left).
    by rewrite (proj2 (Nat.leb_le 1 (key y))).
  - simpl. rewrite Hx, (Hfront y) by left. simpl. f_equal. apply IH.
    intros z Hz. apply Hfront. by right.
Qed.

(** Sorting by the key [x not in focus_paths] moves the children on the
    focus path to the front and keeps the order within both groups. *)
Theorem order_children_focus_first (focus_paths children : list str) :
  order_children focus_paths children
  = List.filter (in_focus focus_paths) children
    ++ List.filter (λ c, negb (in_focus focus_paths c)) children.
Proof.
  unfold order_children. destruct focus_paths as [|f focus_paths].
  { assert (Hnone : ∀ x : str, in_focus [] x = false).
    { intros x. apply bool_decide_eq_false_2. by intros ?%elem_of_nil. }
    rewrite (filter_none (in_focus [])) by (intros; apply Hnone).
    cbn [app].
    induction children as [|x children IH]; [done|]. cbn [List.filter].
    rewrite Hnone. cbn [negb]. by rewrite <- IH. }
  set (focus := f :: focus_paths).
  induction children as [|x children IH]; [done|].
  cbn [sort_key foldr List.filter]. fold (sort_key (λ x, if in_focus focus x
                                                       then 0 else 1) children).
  rewrite IH. destruct (in_focus focus x) eqn:Hx; cbn [negb].
  - apply insert_by_key_first. by rewrite Hx.
  - apply insert_by_key_behind.
    + by rewrite Hx.
    + intros y [_ Hy]%filter_elem. by rewrite Hy.
    + intros y [_ Hy]%filter_elem. apply negb_true_iff in Hy.
      by rewrite Hy.
Qed.
